(** * A transparent price cache: the model of [cache.go] and its properties

    [cache.go] wraps a slow, fallible [PriceService] in a cache keyed by item
    code.  [GetPriceFor] answers from the map while the stored entry is
    younger than [maxAge] and asks the service otherwise; [GetPricesFor] runs
    one goroutine per item code and gathers the answers from a buffered
    channel.

    The code is embedded as programs over a small set of actions (map read,
    map write, clock reading, service call, mutex, channel, wait group).  A
    single call runs its program to the end; a batch runs one program per
    goroutine, interleaved by a schedule.

    What the model takes from the Go runtime and from the environment:
    - each action is one step of the interleaving, except the map write of
      line 57, which takes two: the runtime's [mapassign] begins, and the
      entry is in the map and [mapassign] has ended.  What other goroutines
      do during an action shows as the steps that they take between the two
      steps of the write, or before and after a call of the service;
    - the map read of line 46 is done without the lock.  A map read that
      comes while another goroutine is between the two steps of a map write
      is a data race, and the runtime, which marks a map while it is being
      written, stops the process with
      [fatal error: concurrent map read and map write]; so it does a write
      that begins during a write, with [concurrent map writes].  A read
      that does not overlap a write returns the entry as it then is;
    - the clock is the monotonic clock that [time.Now] and [time.Since] use:
      a reading is never earlier than the one before it, and the difference
      of two readings of one process fits a [time.Duration];
    - the service and the passing of time are arbitrary functions of an
      unknown world [Env]. *)

From Stdlib Require Import ZArith Floats.PrimFloat.
From stdpp Require Import gmap strings list fin_maps.

Open Scope Z_scope.

(** ** Data *)

(** [time.Time] and [time.Duration]: readings of the process's monotonic
    clock and their differences, in nanoseconds. *)
Definition Time := Z.
Definition Duration := Z.

(** [t.Sub(u)] on monotonic readings (no saturation is reached). *)
Definition Sub (t u : Time) : Duration := t - u.

(** A Go [error] is represented by its message; [nil] is [None]. *)
Definition error := string.

(** [fmt.Errorf("getting price from service : %v", err.Error())] *)
Definition Errorf_getting_price (msg : string) : error :=
  ("getting price from service : " +:+ msg)%string.

Record priceValue := {
  Price : float;
  CreatedAt : Time
}.

Record priceResponse := {
  RespPrice : float;
  Err : option error
}.

(** The zero value of [float64], the [0] of [return 0, fmt.Errorf(...)]. *)
Definition zero_price : float := 0%float.

Section Cache.

(** The world outside the cache: whatever the service and the clock depend
    on. *)
Context {Env : Type}.

(** [PriceService]: one method, which answers with a price and an error (as
    in Go, both are returned) and may change the world. *)
Record PriceService := {
  svc_GetPriceFor : string -> Env -> (float * option error) * Env
}.

Record TransparentCache := {
  actualPriceService : PriceService;
  maxAge : Duration;
  prices : gmap string priceValue;
  mutex : bool   (* [true] while some goroutine holds the lock *)
}.

Definition NewTransparentCache (actualPriceService : PriceService)
    (maxAge : Duration) : TransparentCache :=
  {| actualPriceService := actualPriceService;
     maxAge := maxAge;
     prices := ∅;
     mutex := false |}.

(** ** Run-time state *)

(** [make(chan priceResponse, n)]: a buffered channel. *)
Record chan := {
  cap : nat;
  buf : list priceResponse;
  closed : bool
}.

Definition make_chan (n : nat) : chan :=
  {| cap := n; buf := []; closed := false |}.

Inductive goroutine :=
| Main
| Worker (i : nat).

#[export] Instance goroutine_eq_dec : EqDecision goroutine.
Proof. solve_decision. Defined.

(** What a goroutine did in one step, with the answer it got. *)
Inductive label :=
| LLookup (k : string) (v : option priceValue)
| LNow (t : Time)
| LService (k : string) (price : float) (err : option error)
| LLock
| LAssign (k : string)
| LStore (k : string) (v : priceValue)
| LUnlock
| LSend (r : priceResponse)
| LRecv (r : priceResponse)
| LDone.

Definition event : Type := goroutine * label.

(** The runtime's clock: each reading tells how much time went by since the
    reading before it. *)
Class Clock := elapse : Env -> N * Env.

Record Machine := {
  cache : TransparentCache;
  clock : Time;            (* the latest reading of the clock *)
  env : Env;
  output : chan;           (* [output] of the running [GetPricesFor] *)
  wg : Z;                  (* the counter of its [sync.WaitGroup] *)
  trace : list event;      (* history, oldest first *)
  fatal : option string    (* the fatal error that stopped the process *)
}.

Definition set_prices (f : gmap string priceValue -> gmap string priceValue)
    (m : Machine) : Machine :=
  {| cache := {| actualPriceService := actualPriceService (cache m);
                 maxAge := maxAge (cache m);
                 prices := f (prices (cache m));
                 mutex := mutex (cache m) |};
     clock := clock m; env := env m; output := output m; wg := wg m;
     trace := trace m; fatal := fatal m |}.

Definition set_mutex (b : bool) (m : Machine) : Machine :=
  {| cache := {| actualPriceService := actualPriceService (cache m);
                 maxAge := maxAge (cache m);
                 prices := prices (cache m);
                 mutex := b |};
     clock := clock m; env := env m; output := output m; wg := wg m;
     trace := trace m; fatal := fatal m |}.

Definition set_time (t : Time) (e : Env) (m : Machine) : Machine :=
  {| cache := cache m; clock := t; env := e; output := output m; wg := wg m;
     trace := trace m; fatal := fatal m |}.

Definition set_env (e : Env) (m : Machine) : Machine :=
  {| cache := cache m; clock := clock m; env := e; output := output m;
     wg := wg m; trace := trace m; fatal := fatal m |}.

Definition set_output (ch : chan) (m : Machine) : Machine :=
  {| cache := cache m; clock := clock m; env := env m; output := ch;
     wg := wg m; trace := trace m; fatal := fatal m |}.

Definition set_wg (n : Z) (m : Machine) : Machine :=
  {| cache := cache m; clock := clock m; env := env m; output := output m;
     wg := n; trace := trace m; fatal := fatal m |}.

Definition log (g : goroutine) (l : label) (m : Machine) : Machine :=
  {| cache := cache m; clock := clock m; env := env m; output := output m;
     wg := wg m; trace := trace m ++ [(g, l)]; fatal := fatal m |}.

Definition set_fatal (f : option string) (m : Machine) : Machine :=
  {| cache := cache m; clock := clock m; env := env m; output := output m;
     wg := wg m; trace := trace m; fatal := f |}.

(** ** Programs *)

(** The actions of the code, indexed by the type of their answer. *)
Inductive action : Type -> Type :=
| MapLookup (k : string) : action (option priceValue)
    (* [v, ok := c.prices[k]] *)
| TimeNow : action Time
    (* [time.Now()] *)
| ServiceGetPriceFor (k : string) : action (float * option error)
    (* [c.actualPriceService.GetPriceFor(k)] *)
| MutexLock : action unit
| MapAssign (k : string) : action unit
    (* [c.prices[k] = v] begins: the map is marked as being written *)
| MapStore (k : string) (v : priceValue) : action unit
    (* [c.prices[k] = v] ends: the entry is written, the mark is removed *)
| MutexUnlock : action unit
| ChanSend (r : priceResponse) : action unit
    (* [output <- r] *)
| ChanRecv : action priceResponse
    (* [<-output] *)
| WgDone : action unit.

Inductive prog (R : Type) : Type :=
| Ret (r : R)
| Act {X : Type} (a : action X) (k : X -> prog R).

Arguments Ret {R} r.
Arguments Act {R X} a k.

Fixpoint bind {A B : Type} (p : prog A) (f : A -> prog B) : prog B :=
  match p with
  | Ret a => f a
  | Act a k => Act a (fun x => bind (k x) f)
  end.

Definition act {X : Type} (a : action X) : prog X := Act a Ret.

Notation "'let*' x ':=' p 'in' q" := (bind p (fun x => q))
  (at level 10, x name, p at level 100, q at level 200, only parsing).
Notation "'do' p 'in' q" := (bind p (fun _ => q))
  (at level 10, p at level 100, q at level 200, only parsing).

Definition label_of {X : Type} (a : action X) : X -> label :=
  match a in action X return X -> label with
  | MapLookup k => fun v => LLookup k v
  | TimeNow => fun t => LNow t
  | ServiceGetPriceFor k => fun r => LService k (fst r) (snd r)
  | MutexLock => fun _ => LLock
  | MapAssign k => fun _ => LAssign k
  | MapStore k v => fun _ => LStore k v
  | MutexUnlock => fun _ => LUnlock
  | ChanSend r => fun _ => LSend r
  | ChanRecv => fun r => LRecv r
  | WgDone => fun _ => LDone
  end.

Context `{Clock}.

(** The effect of an action on the machine, without the history.  [None]: the
    goroutine cannot take the step, because it blocks (a held mutex, a full
    or an empty channel) or because the runtime stops the program (unlock of
    an unlocked mutex, send on a closed channel, negative wait-group
    counter).  Whether a map access comes during a map write of another
    goroutine is not decided here but in [step], which knows what the other
    goroutines are doing: here the access is one that overlaps no write. *)
Definition effect {X : Type} (a : action X) (m : Machine)
    : option (X * Machine) :=
  match a in action X return option (X * Machine) with
  | MapLookup k => Some (prices (cache m) !! k, m)
  | TimeNow =>
      let t := clock m + Z.of_N (fst (elapse (env m))) in
      Some (t, set_time t (snd (elapse (env m))) m)
  | ServiceGetPriceFor k =>
      let r := svc_GetPriceFor (actualPriceService (cache m)) k (env m) in
      Some (fst r, set_env (snd r) m)
  | MutexLock =>
      if mutex (cache m) then None else Some (tt, set_mutex true m)
  | MapAssign k => Some (tt, m)
  | MapStore k v => Some (tt, set_prices <[k := v]> m)
  | MutexUnlock =>
      if mutex (cache m) then Some (tt, set_mutex false m) else None
  | ChanSend r =>
      let ch := output m in
      if closed ch then None
      else if (length (buf ch) <? cap ch)%nat
           then Some (tt, set_output {| cap := cap ch; buf := buf ch ++ [r];
                                        closed := false |} m)
           else None
  | ChanRecv =>
      let ch := output m in
      match buf ch with
      | r :: rest => Some (r, set_output {| cap := cap ch; buf := rest;
                                            closed := closed ch |} m)
      | [] => if closed ch
              then Some ({| RespPrice := zero_price; Err := None |}, m)
              else None
      end
  | WgDone =>
      if 0 <? wg m then Some (tt, set_wg (wg m - 1) m) else None
  end.

(** One step of goroutine [g]: the effect, recorded in the history. *)
Definition exec {X : Type} (g : goroutine) (a : action X) (m : Machine)
    : option (X * Machine) :=
  match effect a m with
  | Some (x, m') => Some (x, log g (label_of a x) m')
  | None => None
  end.

(** A goroutine that runs alone: its program, step after step. *)
Fixpoint run {R : Type} (g : goroutine) (p : prog R) (m : Machine)
    : option (R * Machine) :=
  match p with
  | Ret r => Some (r, m)
  | Act a k =>
      match exec g a m with
      | Some (x, m') => run g (k x) m'
      | None => None
      end
  end.

(** ** The code *)

(** [time.Since(t)] *)
Definition Since (t : Time) : prog Duration :=
  let* now := act TimeNow in Ret (Sub now t).

(** Lines 52 to 63 of [GetPriceFor]: ask the service and remember the
    answer. *)
Definition fetch (itemCode : string) : prog (float * option error) :=
  let* r := act (ServiceGetPriceFor itemCode) in
  match snd r with
  | Some err => Ret (zero_price, Some (Errorf_getting_price err))
  | None =>
      do act MutexLock in
      let* now := act TimeNow in
      do act (MapAssign itemCode) in
      do act (MapStore itemCode {| Price := fst r; CreatedAt := now |}) in
      do act MutexUnlock in
      Ret (fst r, None)
  end.

(** [func (c *TransparentCache) GetPriceFor(itemCode string)], with
    [c.maxAge] as [c_maxAge].  The early [return v.Price, nil] is the [Some]
    of the first part. *)
Definition GetPriceFor (c_maxAge : Duration) (itemCode : string)
    : prog (float * option error) :=
  let* v_ok := act (MapLookup itemCode) in
  let* hit := match v_ok with
              | Some v =>
                  let* age := Since (CreatedAt v) in
                  if age <? c_maxAge then Ret (Some (Price v)) else Ret None
              | None => Ret None
              end in
  match hit with
  | Some price => Ret (price, None)
  | None => fetch itemCode
  end.

(** A call of the method by the caller's goroutine, while no other goroutine
    reads or writes the map. *)
Definition call_GetPriceFor (itemCode : string) (m : Machine)
    : option ((float * option error) * Machine) :=
  run Main (GetPriceFor (maxAge (cache m)) itemCode) m.

(** The goroutine started by [go worker(code)]. *)
Definition worker (c_maxAge : Duration) (code : string) : prog unit :=
  let* r := GetPriceFor c_maxAge code in
  do act (ChanSend {| RespPrice := fst r; Err := snd r |}) in
  do act WgDone in
  Ret tt.

(** The loop of lines 88 to 95, with [n] receptions left to do. *)
Fixpoint collect (n : nat) (results : list float)
    : prog (list float * option error) :=
  match n with
  | O => Ret (results, None)
  | S n' =>
      let* r := act ChanRecv in
      match Err r with
      | Some err => Ret (results, Some err)
      | None => collect n' (results ++ [RespPrice r])
      end
  end.

(** ** Goroutines under a scheduler *)

(** The goroutine is between the two steps of a map write. *)
Definition writing {R : Type} (p : prog R) : bool :=
  match p with
  | Act (MapStore _ _) _ => true
  | _ => false
  end.

Definition concurrent_read_write : string :=
  "concurrent map read and map write".

Definition concurrent_writes : string := "concurrent map writes".

(** The runtime's check of the map's mark: the fatal error that action [a]
    raises when the goroutines are at [pool]. *)
Definition map_fault {X : Type} (a : action X) (pool : list (prog unit))
    : option string :=
  match a with
  | MapLookup _ =>
      if existsb writing pool then Some concurrent_read_write else None
  | MapAssign _ =>
      if existsb writing pool then Some concurrent_writes else None
  | _ => None
  end.

(** The goroutines of a batch are a list of programs: what each one still
    has to run.  The scheduler gives goroutine [i] one step; a goroutine
    that has finished, or that cannot take its step now, stays as it is.  A
    step that raises a fatal error stops the process: no goroutine takes a
    step after it. *)
Definition step (i : nat) (cfg : list (prog unit) * Machine)
    : list (prog unit) * Machine :=
  match fatal (snd cfg) with
  | Some _ => cfg
  | None =>
      match fst cfg !! i with
      | Some (Act a k) =>
          match map_fault a (fst cfg) with
          | Some msg => (fst cfg, set_fatal (Some msg) (snd cfg))
          | None =>
              match exec (Worker i) a (snd cfg) with
              | Some (x, m') => (<[i := k x]> (fst cfg), m')
              | None => cfg
              end
          end
      | _ => cfg
      end
  end.

(** A schedule names the goroutine to run at each step. *)
Definition run_sched (sched : list nat) (cfg : list (prog unit) * Machine)
    : list (prog unit) * Machine :=
  fold_left (fun cfg i => step i cfg) sched cfg.

(** Lines 69 to 85: the channel, the wait group, a goroutine per item code.
    A goroutine started late in the loop of line 83 is one that the schedule
    runs late.  The caller is a running process: no fatal error has stopped
    it. *)
Definition launch (itemCodes : list string) (m : Machine)
    : list (prog unit) * Machine :=
  (worker (maxAge (cache m)) <$> itemCodes,
   set_fatal None
     (set_wg (Z.of_nat (length itemCodes))
        (set_output (make_chan (length itemCodes)) m))).

(** [defer close(output)] *)
Definition close_output (m : Machine) : Machine :=
  set_output {| cap := cap (output m); buf := buf (output m);
                closed := true |} m.

(** [func (c *TransparentCache) GetPricesFor(itemCodes ...string)] when the
    goroutines run as [sched] says.  [wg.Wait()] returns once the counter is
    zero; [None] when a fatal error has stopped the process, when [sched]
    ends before the counter is zero, or when the caller cannot go on. *)
Definition call_GetPricesFor (sched : list nat) (itemCodes : list string)
    (m : Machine) : option ((list float * option error) * Machine) :=
  let cfg := run_sched sched (launch itemCodes m) in
  match fatal (snd cfg) with
  | Some _ => None
  | None =>
      if wg (snd cfg) =? 0 then
        match run Main (collect (length itemCodes) []) (snd cfg) with
        | Some (res, m') => Some (res, close_output m')
        | None => None
        end
      else None
  end.

(** ** Reading the history *)

Definition is_service_call (e : event) : bool :=
  match snd e with
  | LService _ _ _ => true
  | _ => false
  end.

(** How often the service was called. *)
Definition invocations (tr : list event) : nat :=
  length (List.filter is_service_call tr).

(** The clock reading that a [time.Now()] made in state [m] returns. *)
Definition now_at (m : Machine) : Time :=
  clock m + Z.of_N (fst (elapse (env m))).

(** The entry of [k], if any, is as old as [maxAge] or older. *)
Definition miss (k : string) (m : Machine) : Prop :=
  match prices (cache m) !! k with
  | Some v => maxAge (cache m) <= Sub (now_at m) (CreatedAt v)
  | None => True
  end.

(** The world in which the service is called after a miss: the clock has
    been read if there was an entry to check. *)
Definition env_at_fetch (k : string) (m : Machine) : Env :=
  match prices (cache m) !! k with
  | Some _ => snd (elapse (env m))
  | None => env m
  end.

(** The answer of the service to a call for [k] made after a miss in [m]. *)
Definition answer (k : string) (m : Machine) : float * option error :=
  fst (svc_GetPriceFor (actualPriceService (cache m)) k (env_at_fetch k m)).

(** No entry carries a time stamp later than the latest clock reading. *)
Definition store_past (m : Machine) : Prop :=
  forall k v, prices (cache m) !! k = Some v -> CreatedAt v <= clock m.

(** Every entry holds a price that the service returned, without an error,
    for the entry's item code. *)
Definition store_inv (m : Machine) : Prop :=
  forall k v, prices (cache m) !! k = Some v ->
    exists g, In (g, LService k (Price v) None) (trace m).

(** ** The states a call goes through

    Abbreviations for the machine after the steps of [GetPriceFor], each the
    composition of the effects above. *)

Definition looked_up (g : goroutine) (k : string) (m : Machine) : Machine :=
  log g (LLookup k (prices (cache m) !! k)) m.

Definition clock_read (g : goroutine) (m : Machine) : Machine :=
  log g (LNow (now_at m)) (set_time (now_at m) (snd (elapse (env m))) m).

(** After the map read and, when there is an entry, the reading of its age. *)
Definition checked (g : goroutine) (k : string) (m : Machine) : Machine :=
  match prices (cache m) !! k with
  | Some _ => clock_read g (looked_up g k m)
  | None => looked_up g k m
  end.

(** After the call of the service. *)
Definition asked (g : goroutine) (k : string) (m : Machine) : Machine :=
  let r := svc_GetPriceFor (actualPriceService (cache m)) k (env m) in
  log g (LService k (fst (fst r)) (snd (fst r))) (set_env (snd r) m).

(** After lines 56 to 61: lock, time stamp, map write, unlock. *)
Definition remembered (g : goroutine) (k : string) (price : float)
    (m : Machine) : Machine :=
  let m1 := clock_read g (log g LLock (set_mutex true m)) in
  let v := {| Price := price; CreatedAt := clock m1 |} in
  log g LUnlock
    (set_mutex false
       (log g (LStore k v)
          (set_prices <[k := v]> (log g (LAssign k) m1)))).

(** ** A goroutine of the batch as a state machine

    The eleven points a [worker] can be at, with what it has computed so
    far.
    [WDone] and [WEnd] remember the response that was sent. *)
Inductive wstate :=
| WStart                                  (* line 46, the map read *)
| WAge (v : priceValue)                   (* line 48, [time.Since] *)
| WFetch                                  (* line 52, the service *)
| WLock (price : float)                   (* line 56 *)
| WStamp (price : float)                  (* line 59, [time.Now] *)
| WAssign (price : float) (now : Time)    (* line 57, the map write *)
| WStore (price : float) (now : Time)     (* line 57, during the write *)
| WUnlock (price : float)                 (* line 61 *)
| WSend (r : priceResponse)               (* line 75 *)
| WDone (r : priceResponse)               (* line 79 *)
| WEnd (r : priceResponse).

(** A goroutine of the batch: its item code and the point it is at. *)
Record task := Task {
  t_code : string;
  t_state : wstate
}.

(** Line 48: the age of the entry decides. *)
Definition check (c_maxAge : Duration) (v : priceValue) : prog (option float) :=
  let* age := Since (CreatedAt v) in
  if age <? c_maxAge then Ret (Some (Price v)) else Ret None.

Definition conclude (itemCode : string) (hit : option float)
    : prog (float * option error) :=
  match hit with
  | Some price => Ret (price, None)
  | None => fetch itemCode
  end.

(** Lines 75 to 79. *)
Definition deliver (r : float * option error) : prog unit :=
  do act (ChanSend {| RespPrice := fst r; Err := snd r |}) in
  do act WgDone in
  Ret tt.

(** The program that a [worker] for [code] still has to run at each point. *)
Definition prog_of (c_maxAge : Duration) (t : task) : prog unit :=
  let code := t_code t in
  match t_state t with
  | WStart => worker c_maxAge code
  | WAge v => bind (bind (check c_maxAge v) (conclude code)) deliver
  | WFetch => bind (fetch code) deliver
  | WLock price =>
      bind (do act MutexLock in
            let* now := act TimeNow in
            do act (MapAssign code) in
            do act (MapStore code {| Price := price; CreatedAt := now |}) in
            do act MutexUnlock in
            Ret (price, None)) deliver
  | WStamp price =>
      bind (let* now := act TimeNow in
            do act (MapAssign code) in
            do act (MapStore code {| Price := price; CreatedAt := now |}) in
            do act MutexUnlock in
            Ret (price, None)) deliver
  | WAssign price now =>
      bind (do act (MapAssign code) in
            do act (MapStore code {| Price := price; CreatedAt := now |}) in
            do act MutexUnlock in
            Ret (price, None)) deliver
  | WStore price now =>
      bind (do act (MapStore code {| Price := price; CreatedAt := now |}) in
            do act MutexUnlock in
            Ret (price, None)) deliver
  | WUnlock price => bind (do act MutexUnlock in Ret (price, None)) deliver
  | WSend r => do act (ChanSend r) in do act WgDone in Ret tt
  | WDone _ => do act WgDone in Ret tt
  | WEnd _ => Ret tt
  end.

(** The step a [worker] takes from each point: the point it reaches, the
    label of the step and the machine after the step's effect. *)
Definition wnext (c_maxAge : Duration) (code : string) (st : wstate)
    (m : Machine) : option (wstate * label * Machine) :=
  match st with
  | WStart =>
      let v_ok := prices (cache m) !! code in
      Some (match v_ok with Some v => WAge v | None => WFetch end,
            LLookup code v_ok, m)
  | WAge v =>
      Some (if Sub (now_at m) (CreatedAt v) <? c_maxAge
            then WSend {| RespPrice := Price v; Err := None |}
            else WFetch,
            LNow (now_at m),
            set_time (now_at m) (snd (elapse (env m))) m)
  | WFetch =>
      let r := svc_GetPriceFor (actualPriceService (cache m)) code (env m) in
      Some (match snd (fst r) with
            | Some err =>
                WSend {| RespPrice := zero_price;
                         Err := Some (Errorf_getting_price err) |}
            | None => WLock (fst (fst r))
            end,
            LService code (fst (fst r)) (snd (fst r)),
            set_env (snd r) m)
  | WLock price =>
      if mutex (cache m) then None
      else Some (WStamp price, LLock, set_mutex true m)
  | WStamp price =>
      Some (WAssign price (now_at m), LNow (now_at m),
            set_time (now_at m) (snd (elapse (env m))) m)
  | WAssign price now => Some (WStore price now, LAssign code, m)
  | WStore price now =>
      let v := {| Price := price; CreatedAt := now |} in
      Some (WUnlock price, LStore code v, set_prices <[code := v]> m)
  | WUnlock price =>
      if mutex (cache m)
      then Some (WSend {| RespPrice := price; Err := None |}, LUnlock,
                 set_mutex false m)
      else None
  | WSend r =>
      if closed (output m) then None
      else if (length (buf (output m)) <? cap (output m))%nat
           then Some (WDone r, LSend r,
                      set_output {| cap := cap (output m);
                                    buf := buf (output m) ++ [r];
                                    closed := false |} m)
           else None
  | WDone r =>
      if 0 <? wg m then Some (WEnd r, LDone, set_wg (wg m - 1) m) else None
  | WEnd _ => None
  end.

(** The goroutine is between the two steps of a map write. *)
Definition in_write (t : task) : bool :=
  match t_state t with
  | WStore _ _ => true
  | _ => false
  end.

(** The fatal error that the step from [st] raises when the goroutines are
    at [tasks]. *)
Definition wfault (st : wstate) (tasks : list task) : option string :=
  match st with
  | WStart =>
      if existsb in_write tasks then Some concurrent_read_write else None
  | WAssign _ _ =>
      if existsb in_write tasks then Some concurrent_writes else None
  | _ => None
  end.

(** The scheduler's step on the state machines. *)
Definition astep (c_maxAge : Duration) (i : nat) (cfg : list task * Machine)
    : list task * Machine :=
  match fatal (snd cfg) with
  | Some _ => cfg
  | None =>
      match fst cfg !! i with
      | Some t =>
          match wfault (t_state t) (fst cfg) with
          | Some msg => (fst cfg, set_fatal (Some msg) (snd cfg))
          | None =>
              match wnext c_maxAge (t_code t) (t_state t) (snd cfg) with
              | Some (st', l, m') =>
                  (<[i := Task (t_code t) st']> (fst cfg),
                   log (Worker i) l m')
              | None => cfg
              end
          end
      | None => cfg
      end
  end.

Definition arun (c_maxAge : Duration) (sched : list nat)
    (cfg : list task * Machine) : list task * Machine :=
  fold_left (fun cfg i => astep c_maxAge i cfg) sched cfg.

(** ** What holds of a batch at every moment *)

(** The goroutine has not yet called [wg.Done]. *)
Definition pending (t : task) : bool :=
  match t_state t with
  | WEnd _ => false
  | _ => true
  end.

(** The response the goroutine has put on the channel. *)
Definition delivered (t : task) : option priceResponse :=
  match t_state t with
  | WDone r | WEnd r => Some r
  | _ => None
  end.

Definition has_delivered (t : task) : bool :=
  match delivered t with
  | Some _ => true
  | None => false
  end.

(** The goroutine is between [Lock] and [Unlock]. *)
Definition holds (t : task) : bool :=
  match t_state t with
  | WStamp _ | WAssign _ _ | WStore _ _ | WUnlock _ => true
  | _ => false
  end.

(** The result of the goroutine's [GetPriceFor], once it has one. *)
Definition outcome (t : task) : option priceResponse :=
  match t_state t with
  | WSend r | WDone r | WEnd r => Some r
  | _ => None
  end.

(** The price the goroutine got from the service and has not yet returned. *)
Definition fetched (t : task) : option float :=
  match t_state t with
  | WLock p | WStamp p | WAssign p _ | WStore p _ | WUnlock p => Some p
  | _ => None
  end.

(** The time stamp the goroutine is about to write. *)
Definition stamp_of (t : task) : option Time :=
  match t_state t with
  | WAssign _ now | WStore _ now => Some now
  | _ => None
  end.

(** The steps a goroutine has left, at most. *)
Definition weight (t : task) : nat :=
  match t_state t with
  | WStart => 10
  | WAge _ => 9
  | WFetch => 8
  | WLock _ => 7
  | WStamp _ => 6
  | WAssign _ _ => 5
  | WStore _ _ => 4
  | WUnlock _ => 3
  | WSend _ => 2
  | WDone _ => 1
  | WEnd _ => 0
  end.

Definition count {A : Type} (f : A -> bool) (l : list A) : nat :=
  length (List.filter f l).

(** The responses sent in a history, in order, each with the number of the
    goroutine that sent it. *)
Fixpoint sends (tr : list event) : list (nat * priceResponse) :=
  match tr with
  | [] => []
  | (Worker i, LSend r) :: tr' => (i, r) :: sends tr'
  | _ :: tr' => sends tr'
  end.

(** The steps of goroutine [i] in a history. *)
Fixpoint steps_of (i : nat) (tr : list event) : list label :=
  match tr with
  | [] => []
  | (g, l) :: tr' =>
      if decide (g = Worker i) then l :: steps_of i tr' else steps_of i tr'
  end.

(** [runs p ls q]: program [p], taking the steps [ls], becomes [q]. *)
Fixpoint runs {R : Type} (p : prog R) (ls : list label) (q : prog R)
    {struct ls} : Prop :=
  match ls with
  | [] => p = q
  | l :: ls' =>
      match p with
      | Ret _ => False
      | Act a k => exists x, l = label_of a x /\ runs (k x) ls' q
      end
  end.

(** The state of a batch launched from [m0] for [codes]: the goroutines are
    at [tasks], the machine is [m], and [new] is what happened since the
    launch. *)
Record Inv (m0 : Machine) (codes : list string) (tasks : list task)
    (m : Machine) (new : list event) : Prop := {
  inv_codes : t_code <$> tasks = codes;
  inv_trace : trace m = trace m0 ++ new;
  inv_service : actualPriceService (cache m) = actualPriceService (cache m0);
  inv_maxAge : maxAge (cache m) = maxAge (cache m0);
  inv_wg : wg m = Z.of_nat (count pending tasks);
  inv_open : closed (output m) = false;
  inv_cap : cap (output m) = length tasks;
  inv_buf : buf (output m) = snd <$> sends new;
  inv_sent : length (sends new) = count has_delivered tasks;
  inv_lock : count holds tasks = if mutex (cache m) then 1%nat else 0%nat;
  inv_deliv : forall i r,
    In (i, r) (sends new) <->
    exists t, tasks !! i = Some t /\ delivered t = Some r;
  inv_nodup : NoDup (fst <$> sends new);
  inv_fail : forall i k p e,
    In (Worker i, LService k p (Some e)) new ->
    exists t r, tasks !! i = Some t /\ outcome t = Some r /\
                is_Some (Err r);
  inv_ok : forall i t r e,
    tasks !! i = Some t -> outcome t = Some r -> Err r = Some e ->
    exists k p e', In (Worker i, LService k p (Some e')) new;
  inv_just : forall i t p,
    tasks !! i = Some t -> fetched t = Some p ->
    In (Worker i, LService (t_code t) p None) new;
  inv_store : forall k v,
    prices (cache m) !! k = Some v ->
    prices (cache m0) !! k = Some v \/
    exists g, In (g, LService k (Price v) None) new;
  inv_dom : forall k,
    is_Some (prices (cache m0) !! k) -> is_Some (prices (cache m) !! k);
  inv_past :
    store_past m0 ->
    store_past m /\ clock m0 <= clock m /\
    forall i t now,
      tasks !! i = Some t -> stamp_of t = Some now -> now <= clock m
}.

(** The sum of the steps left. *)
Definition total (tasks : list task) : nat :=
  foldr (fun t n => (weight t + n)%nat) 0%nat tasks.

(** What the loop of lines 88 to 95 makes of the responses it receives. *)
Fixpoint gather (rs : list priceResponse) (results : list float)
    : list float * option error :=
  match rs with
  | [] => (results, None)
  | r :: rs' =>
      match Err r with
      | Some err => (results, Some err)
      | None => gather rs' (results ++ [RespPrice r])
      end
  end.

(** What happens between the launch of the goroutines and the return of
    [wg.Wait()]. *)
Definition batch_events (sched : list nat) (itemCodes : list string)
    (m : Machine) : list event :=
  drop (length (trace m))
       (trace (snd (run_sched sched (launch itemCodes m)))).

(** The responses in the order in which they reach the channel, each with
    the number of its goroutine, which is the position of its item code. *)
Definition deliveries (sched : list nat) (itemCodes : list string)
    (m : Machine) : list (nat * priceResponse) :=
  sends (batch_events sched itemCodes m).

(** The two operations of the cache. *)
Inductive operation :=
| OpGetPriceFor (itemCode : string)
| OpGetPricesFor (sched : list nat) (itemCodes : list string).

Definition perform (op : operation) (m : Machine) : option Machine :=
  match op with
  | OpGetPriceFor itemCode => snd <$> call_GetPriceFor itemCode m
  | OpGetPricesFor sched itemCodes =>
      snd <$> call_GetPricesFor sched itemCodes m
  end.

(** The state machines of a batch after a schedule. *)
Definition batch_tasks (sched : list nat) (itemCodes : list string)
    (m : Machine) : list task * Machine :=
  arun (maxAge (cache m)) sched
    ((fun code => Task code WStart) <$> itemCodes, snd (launch itemCodes m)).

(** The service answered this call with an error. *)
Definition failed_call (e : event) : bool :=
  match snd e with
  | LService _ _ (Some _) => true
  | _ => false
  end.

(** The states a cache can be in: made by [NewTransparentCache], then any
    number of operations, with time going by in between. *)
Inductive reachable : Machine -> Prop :=
| reach_new m svc age :
    cache m = NewTransparentCache svc age -> reachable m
| reach_op m op m' :
    reachable m -> perform op m = Some m' -> reachable m'
| reach_later m m' :
    reachable m ->
    cache m' = cache m -> trace m' = trace m -> clock m <= clock m' ->
    reachable m'.


(** The price that the goroutine has in hand is the one that [price_of]
    gives for its item code. *)
Definition priced (price_of : string -> float) (t : task) : Prop :=
  match t_state t with
  | WAge v => Price v = price_of (t_code t)
  | WLock p | WStamp p | WAssign p _ | WStore p _ | WUnlock p =>
      p = price_of (t_code t)
  | WSend r | WDone r | WEnd r =>
      Err r = None -> RespPrice r = price_of (t_code t)
  | _ => True
  end.

(** The service's price for an item code does not change: whenever it
    answers without an error, the price is the one [price_of] gives. *)
Definition stable_prices (svc : PriceService)
    (price_of : string -> float) : Prop :=
  forall k e,
    snd (fst (svc_GetPriceFor svc k e)) = None ->
    fst (fst (svc_GetPriceFor svc k e)) = price_of k.

(** The entries of the store hold the prices that [price_of] gives. *)
Definition store_priced (m : Machine) (price_of : string -> float) : Prop :=
  forall k v, prices (cache m) !! k = Some v -> Price v = price_of k.
(** ** More about a batch *)

(** The goroutine is past line 52: it has either found a fresh entry or
    called the service. *)
Definition past_fetch (t : task) : bool :=
  match t_state t with
  | WStart | WAge _ | WFetch => false
  | _ => true
  end.

(** The goroutine has read an entry of its item code, or has written one, or
    has a price for it. *)
Definition expects_entry (t : task) : bool :=
  match t_state t with
  | WAge _ | WUnlock _ => true
  | WSend r | WDone r | WEnd r =>
      match Err r with
      | None => true
      | Some _ => false
      end
  | _ => false
  end.

(** The service was called for item code [k]. *)
Definition is_call_for (k : string) (e : event) : bool :=
  match snd e with
  | LService k' _ _ => String.eqb k k'
  | _ => false
  end.

Definition invocations_for (k : string) (tr : list event) : nat :=
  length (List.filter (is_call_for k) tr).

(** How often [k] occurs among the item codes. *)
Definition occurrences (k : string) (codes : list string) : nat :=
  length (List.filter (String.eqb k) codes).

(** The lock discipline, read off a history: [Lock] only when nobody holds
    the lock, [Unlock] and map writes only by the holder.  [None] when an
    event breaks it, the holder after the event otherwise. *)
Definition lock_step (holder : option goroutine) (e : event)
    : option (option goroutine) :=
  match snd e with
  | LLock =>
      match holder with
      | None => Some (Some (fst e))
      | Some _ => None
      end
  | LUnlock =>
      match holder with
      | Some g => if decide (g = fst e) then Some None else None
      | None => None
      end
  | LAssign _ | LStore _ _ =>
      match holder with
      | Some g => if decide (g = fst e) then Some holder else None
      | None => None
      end
  | _ => Some holder
  end.

Fixpoint lock_discipline (holder : option goroutine) (tr : list event)
    : option (option goroutine) :=
  match tr with
  | [] => Some holder
  | e :: tr' =>
      match lock_step holder e with
      | Some holder' => lock_discipline holder' tr'
      | None => None
      end
  end.

(** The holder that a history names is the one goroutine between [Lock] and
    [Unlock]. *)
Definition holder_ok (holder : option goroutine) (tasks : list task) : Prop :=
  match holder with
  | None => forall j t, tasks !! j = Some t -> holds t = false
  | Some g =>
      exists j, g = Worker j /\
        (exists t, tasks !! j = Some t /\ holds t = true) /\
        forall j' t, tasks !! j' = Some t -> holds t = true -> j' = j
  end.

(** The action a program is about to take is [Lock]. *)
Definition is_lock {X : Type} (a : action X) : bool :=
  match a with
  | MutexLock => true
  | _ => false
  end.

Definition at_lock {R : Type} (p : prog R) : bool :=
  match p with
  | Act a _ => is_lock a
  | Ret _ => false
  end.

(** The action a program is about to take is the map read. *)
Definition at_read {R : Type} (p : prog R) : bool :=
  match p with
  | Act (MapLookup _) _ => true
  | _ => false
  end.

(** The fatal error that the next step of a program raises when the
    goroutines are at [pool]. *)
Definition fault_of {R : Type} (p : prog R) (pool : list (prog unit))
    : option string :=
  match p with
  | Act a _ => map_fault a pool
  | Ret _ => None
  end.

(** Goroutine [g] has a step to take and cannot take it now. *)
Definition stuck {R : Type} (g : goroutine) (p : prog R) (m : Machine)
    : bool :=
  match p with
  | Act a _ =>
      match exec g a m with
      | Some _ => false
      | None => true
      end
  | Ret _ => false
  end.

(** More of what holds of a batch at every moment. *)
Record Inv2 (m0 : Machine) (codes : list string) (tasks : list task)
    (m : Machine) (new : list event) : Prop := {
  i2_lock : exists holder,
    lock_discipline None new = Some holder /\ holder_ok holder tasks;
  i2_calls : forall k,
    (invocations_for k new <=
     count (fun t => String.eqb k (t_code t) && past_fetch t) tasks)%nat;
  i2_all_calls : (invocations new <= count past_fetch tasks)%nat;
  i2_steps : (length new + total tasks <= 10 * length tasks)%nat;
  i2_frame : forall k,
    ~ In k codes -> prices (cache m) !! k = prices (cache m0) !! k;
  i2_err : forall i t r e,
    tasks !! i = Some t -> outcome t = Some r -> Err r = Some e ->
    exists p msg,
      In (Worker i, LService (t_code t) p (Some msg)) new /\
      e = Errorf_getting_price msg;
  i2_present : forall i t,
    tasks !! i = Some t -> expects_entry t = true ->
    is_Some (prices (cache m) !! t_code t)
}.

(** The schedule that runs the goroutines one after the other, in the order
    of the item codes: ten steps for goroutine [i], then goroutine [i + 1],
    and so on. *)
Fixpoint in_order (i n : nat) : list nat :=
  match n with
  | O => []
  | S n' => repeat i 10 ++ in_order (S i) n'
  end.

(** Every item code has an entry that is younger than [maxAge] at clock
    reading [now]. *)
Definition all_fresh (codes : list string) (m : Machine) (now : Time)
    : Prop :=
  forall code, In code codes ->
    exists v, prices (cache m) !! code = Some v /\
              Sub now (CreatedAt v) < maxAge (cache m).

(** The goroutine is on the path of line 49, with an entry of [m0] in
    hand. *)
Definition served (m0 : Machine) (t : task) : Prop :=
  match t_state t with
  | WStart => True
  | WAge v => prices (cache m0) !! t_code t = Some v
  | WSend r | WDone r | WEnd r =>
      exists v, prices (cache m0) !! t_code t = Some v /\
                r = {| RespPrice := Price v; Err := None |}
  | _ => False
  end.

End Cache.

Arguments PriceService : clear implicits.
Arguments TransparentCache : clear implicits.
Arguments Machine : clear implicits.
Arguments Clock : clear implicits.

Arguments Ret {R} r.
Arguments Act {R X} a k.
Arguments invocations : simpl never.

(** ** A small world for the examples

    The service knows three item codes: it fails for ["B"], answers 20 for
    ["C"] and 10 for every other code, and counts its calls.  Five
    nanoseconds go by between two readings of the clock. *)

Definition demo_service : PriceService nat :=
  {| svc_GetPriceFor := fun k calls =>
       (if String.eqb k "B" then (0%float, Some "unavailable"%string)
        else if String.eqb k "C" then (20%float, None)
        else (10%float, None),
        S calls) |}.

#[export] Instance demo_clock : Clock nat := fun e => (5%N, e).

(** A machine around a cache that [NewTransparentCache] has just made. *)
Definition demo_machine (maxAge : Duration) : Machine nat :=
  {| cache := NewTransparentCache demo_service maxAge;
     clock := 0;
     env := O;
     output := make_chan 0;
     wg := 0;
     trace := [];
     fatal := None |}.

(** The same with an entry for ["A"], written at time 0. *)
Definition demo_machine_A (maxAge : Duration) : Machine nat :=
  {| cache := {| actualPriceService := demo_service;
                 maxAge := maxAge;
                 prices :=
                   {[ "A"%string :=
                        {| Price := 10%float; CreatedAt := 0 |} ]};
                 mutex := false |};
     clock := 0;
     env := 1%nat;
     output := make_chan 0;
     wg := 0;
     trace := [(Main, LService "A" 10%float None)];
     fatal := None |}.

(** The machine a call leaves behind, [d] if it does not return. *)
Definition machine_after {A : Type} (r : option (A * Machine nat))
    (d : Machine nat) : Machine nat :=
  match r with
  | Some (_, m') => m'
  | None => d
  end.

(** Goroutine 1 runs to its end, then goroutine 0. *)
Definition second_first : list nat := repeat 1%nat 9 ++ repeat 0%nat 9.

(** Goroutine 1 runs to its end, then goroutine 0, then goroutine 2. *)
Definition second_first_third : list nat :=
  repeat 1%nat 9 ++ repeat 0%nat 9 ++ repeat 2%nat 9.

(** Goroutine 0 runs to its end, then goroutine 1, then goroutine 2. *)
Definition first_second_third : list nat :=
  repeat 0%nat 9 ++ repeat 1%nat 9 ++ repeat 2%nat 9.

(** Goroutine 1 runs to its end; goroutine 0 gets as far as the middle of
    its map write (map read, service, lock, clock, beginning of the write);
    then goroutine 2 reads the map. *)
Definition read_during_write : list nat :=
  repeat 1%nat 4 ++ repeat 0%nat 5 ++ [2%nat].

(** A service whose prices change: the first call made to it is answered
    with 10 (20 for ["C"]), every later call with 11 (21 for ["C"]). *)
Definition drifting_service : PriceService nat :=
  {| svc_GetPriceFor := fun k calls =>
       (if String.eqb k "C"
        then (if Nat.eqb calls 0 then 20%float else 21%float, None)
        else (if Nat.eqb calls 0 then 10%float else 11%float, None),
        S calls) |}.

(** A machine around a new cache for that service. *)
Definition drifting_machine (maxAge : Duration) : Machine nat :=
  {| cache := NewTransparentCache drifting_service maxAge;
     clock := 0;
     env := O;
     output := make_chan 0;
     wg := 0;
     trace := [];
     fatal := None |}.

(** The prices of [demo_service]. *)
Definition demo_price (k : string) : float :=
  if String.eqb k "C" then 20%float else 10%float.

(** Goroutine 0 takes the lock, then goroutine 1 comes to line 56. *)
Definition first_holds_lock : list nat := [0; 0; 0; 1; 1]%nat.

(** * Properties *)

(** ** A single call *)

Section Sequential.

Context {Env : Type} `{Clock Env}.
Implicit Types (m : Machine Env) (k : string) (tr : list event).

Lemma invocations_app tr1 tr2 :
  invocations (tr1 ++ tr2) = (invocations tr1 + invocations tr2)%nat.
Proof. unfold invocations. by rewrite List.filter_app, length_app. Qed.

(** Counts the service calls of a history that ends in known events. *)
Ltac count_calls :=
  cbn; rewrite ?invocations_app; unfold invocations; cbn; lia.

Lemma run_bind {A B : Type} g (p : prog A) (f : A -> prog B) m :
  run g (bind p f) m =
  match run g p m with
  | Some (x, m') => run g (f x) m'
  | None => None
  end.
Proof.
  revert m. induction p as [a | X a k IH]; intros m; simpl; [done |].
  destruct (exec g a m) as [[x m'] |]; [apply IH | done].
Qed.

(** A call that finds a fresh entry takes two steps: the map read and the
    clock reading. *)
Lemma call_hit m k v :
  prices (cache m) !! k = Some v ->
  Sub (now_at m) (CreatedAt v) < maxAge (cache m) ->
  call_GetPriceFor k m = Some ((Price v, None), checked Main k m).
Proof.
  intros Hk Hage.
  unfold call_GetPriceFor, GetPriceFor, exec, checked, clock_read, looked_up.
  cbn. rewrite Hk. cbn. fold (now_at m).
  apply Z.ltb_lt in Hage. rewrite Hage. reflexivity.
Qed.

(** A call that finds no entry, or one that is too old, goes on to the
    service. *)
Lemma call_miss m k :
  miss k m ->
  call_GetPriceFor k m =
  match snd (answer k m) with
  | Some err =>
      Some ((zero_price, Some (Errorf_getting_price err)),
            asked Main k (checked Main k m))
  | None =>
      if mutex (cache m) then None
      else Some ((fst (answer k m), None),
                 remembered Main k (fst (answer k m))
                   (asked Main k (checked Main k m)))
  end.
Proof.
  unfold miss, answer, env_at_fetch, call_GetPriceFor, GetPriceFor, exec,
    checked, remembered, asked, clock_read, looked_up.
  cbn. destruct (prices (cache m) !! k) as [v |] eqn:Hk; cbn.
  - fold (now_at m). intros Hage.
    apply Z.ltb_ge in Hage. rewrite Hage. cbn.
    destruct (svc_GetPriceFor _ k _) as [[price [err |]] e']; cbn; [done |].
    unfold exec; cbn. destruct (mutex (cache m)); [done |].
    unfold exec; cbn. reflexivity.
  - intros _.
    destruct (svc_GetPriceFor _ k _) as [[price [err |]] e']; cbn; [done |].
    unfold exec; cbn. destruct (mutex (cache m)); [done |].
    unfold exec; cbn. reflexivity.
Qed.

(** Every call is of one of the two kinds. *)
Lemma hit_or_miss m k :
  (exists v, prices (cache m) !! k = Some v /\
             Sub (now_at m) (CreatedAt v) < maxAge (cache m)) \/
  miss k m.
Proof.
  unfold miss. destruct (prices (cache m) !! k) as [v |]; [| by right].
  destruct (Z.lt_ge_cases (Sub (now_at m) (CreatedAt v)) (maxAge (cache m)));
    [left; eauto | by right].
Qed.

Lemma now_at_ge m : clock m <= now_at m.
Proof. unfold now_at. lia. Qed.

(** *** What the steps change *)

Lemma checked_cache g k m : cache (checked g k m) = cache m.
Proof. unfold checked. by destruct (prices (cache m) !! k). Qed.

Lemma checked_env g k m : env (checked g k m) = env_at_fetch k m.
Proof. unfold checked, env_at_fetch. by destruct (prices (cache m) !! k). Qed.

Lemma checked_invocations g k m :
  invocations (trace (checked g k m)) = invocations (trace m).
Proof.
  unfold checked. destruct (prices (cache m) !! k); count_calls.
Qed.

Lemma checked_clock g k m :
  clock m <= clock (checked g k m) /\
  (is_Some (prices (cache m) !! k) -> clock (checked g k m) = now_at m).
Proof.
  unfold checked. destruct (prices (cache m) !! k) as [v |]; cbn.
  - split; [unfold now_at; cbn; lia | done].
  - split; [lia | by intros [? ?]].
Qed.

Lemma asked_cache g k m : cache (asked g k m) = cache m.
Proof. reflexivity. Qed.

Lemma asked_clock g k m : clock (asked g k m) = clock m.
Proof. reflexivity. Qed.

Lemma asked_invocations g k m :
  invocations (trace (asked g k m)) = (invocations (trace m) + 1)%nat.
Proof. unfold asked. count_calls. Qed.

Lemma asked_checked_trace g k m :
  In (g, LService k (fst (answer k m)) (snd (answer k m)))
     (trace (asked g k (checked g k m))).
Proof.
  unfold asked, answer. cbn. rewrite checked_cache, checked_env.
  apply in_or_app. right. by left.
Qed.

Lemma remembered_prices g k price m :
  prices (cache (remembered g k price m)) =
  <[k := {| Price := price; CreatedAt := clock (remembered g k price m) |}]>
    (prices (cache m)).
Proof. reflexivity. Qed.

Lemma remembered_clock g k price m :
  clock (remembered g k price m) = now_at m.
Proof. reflexivity. Qed.

Lemma remembered_invocations g k price m :
  invocations (trace (remembered g k price m)) = invocations (trace m).
Proof.
  unfold remembered. count_calls.
Qed.

Lemma remembered_trace g k price m e :
  In e (trace m) -> In e (trace (remembered g k price m)).
Proof. unfold remembered. cbn. rewrite !in_app_iff. tauto. Qed.

(** *** What a call leaves behind *)

(** The outcome of any call that returns. *)
Lemma call_outcome m k res m' :
  call_GetPriceFor k m = Some (res, m') ->
  (exists v, prices (cache m) !! k = Some v /\
     Sub (now_at m) (CreatedAt v) < maxAge (cache m) /\
     res = (Price v, None) /\ m' = checked Main k m) \/
  (exists err, miss k m /\ snd (answer k m) = Some err /\
     res = (zero_price, Some (Errorf_getting_price err)) /\
     m' = asked Main k (checked Main k m)) \/
  (miss k m /\ snd (answer k m) = None /\ mutex (cache m) = false /\
     res = (fst (answer k m), None) /\
     m' = remembered Main k (fst (answer k m))
            (asked Main k (checked Main k m))).
Proof.
  intros Hcall. destruct (hit_or_miss m k) as [(v & Hk & Hage) | Hmiss].
  - rewrite (call_hit m k v Hk Hage) in Hcall. left. exists v.
    by simplify_eq.
  - rewrite (call_miss m k Hmiss) in Hcall. right.
    destruct (snd (answer k m)) as [err |] eqn:Herr.
    + left. exists err. by simplify_eq.
    + right. destruct (mutex (cache m)); [done |]. by simplify_eq.
Qed.

(** A call without a holder of the lock always returns. *)
Lemma call_returns m k :
  mutex (cache m) = false ->
  exists res m', call_GetPriceFor k m = Some (res, m').
Proof.
  intros Hfree. destruct (hit_or_miss m k) as [(v & Hk & Hage) | Hmiss].
  - rewrite (call_hit m k v Hk Hage). eauto.
  - rewrite (call_miss m k Hmiss), Hfree.
    destruct (snd (answer k m)); eauto.
Qed.

(** After a call that returned a price, the store has an entry with that
    price; at most one call of the service was made. *)
Lemma call_success m k price m' :
  call_GetPriceFor k m = Some ((price, None), m') ->
  (exists v, prices (cache m') !! k = Some v /\ Price v = price) /\
  (invocations (trace m') <= invocations (trace m) + 1)%nat /\
  (miss k m -> invocations (trace m') = (invocations (trace m) + 1)%nat).
Proof.
  intros Hcall.
  destruct (call_outcome _ _ _ _ Hcall)
    as [(v & Hk & Hage & Hres & ->) | [(err & _ & _ & Hres & _) |
        (Hmiss & Herr & Hfree & Hres & ->)]]; [| done |].
  - simplify_eq. rewrite checked_cache, checked_invocations.
    split; [eauto |]. split; [lia |].
    unfold miss. rewrite Hk. lia.
  - simplify_eq. rewrite remembered_prices, lookup_insert_eq.
    rewrite remembered_invocations, asked_invocations, checked_invocations.
    split; [eauto |]. split; [lia | done].
Qed.

(** Time stamps stay in the past, the lock stays free. *)
Lemma call_keeps_shape m k res m' :
  call_GetPriceFor k m = Some (res, m') ->
  store_past m ->
  store_past m' /\ clock m <= clock m' /\
  maxAge (cache m') = maxAge (cache m) /\
  actualPriceService (cache m') = actualPriceService (cache m) /\
  mutex (cache m') = mutex (cache m).
Proof.
  intros Hcall Hpast.
  pose proof (checked_clock Main k m) as [Hck _].
  assert (Hpast' : store_past (checked Main k m)).
  { intros k' v'. rewrite checked_cache. intros Hv'.
    specialize (Hpast _ _ Hv'). lia. }
  destruct (call_outcome _ _ _ _ Hcall)
    as [(v & Hk & Hage & Hres & ->) | [(err & _ & _ & Hres & ->) |
        (Hmiss & Herr & Hfree & Hres & ->)]].
  - by rewrite checked_cache.
  - rewrite asked_cache, asked_clock, checked_cache. split; [| done].
    intros k' v'. rewrite asked_cache, asked_clock. apply Hpast'.
  - split; [| split].
    + intros k' v'. rewrite remembered_prices, remembered_clock.
      destruct (decide (k = k')) as [<- | Hne].
      * rewrite lookup_insert_eq. intros [= <-]. cbn. lia.
      * rewrite lookup_insert_ne by done. rewrite asked_cache.
        intros Hv'. specialize (Hpast' _ _ Hv').
        pose proof (now_at_ge (asked Main k (checked Main k m))).
        rewrite asked_clock in *. lia.
    + rewrite remembered_clock.
      pose proof (now_at_ge (asked Main k (checked Main k m))).
      rewrite asked_clock in *. lia.
    + cbn. rewrite checked_cache. by rewrite Hfree.
Qed.

(** With [maxAge] zero no entry is young enough. *)
Lemma maxAge_zero_miss m k :
  maxAge (cache m) = 0 -> store_past m -> miss k m.
Proof.
  intros Hzero Hpast. unfold miss.
  destruct (prices (cache m) !! k) as [v |] eqn:Hk; [| done].
  specialize (Hpast _ _ Hk). pose proof (now_at_ge m).
  unfold Sub. lia.
Qed.

(** A miss costs exactly one call of the service. *)
Lemma miss_invocations m k res m' :
  miss k m ->
  call_GetPriceFor k m = Some (res, m') ->
  invocations (trace m') = (invocations (trace m) + 1)%nat /\
  In (Main, LService k (fst (answer k m)) (snd (answer k m))) (trace m').
Proof.
  intros Hmiss Hcall. rewrite (call_miss m k Hmiss) in Hcall.
  pose proof (asked_checked_trace Main k m) as Hin.
  destruct (snd (answer k m)) as [err |].
  - simplify_eq. by rewrite asked_invocations, checked_invocations.
  - destruct (mutex (cache m)); [done |]. simplify_eq.
    rewrite remembered_invocations, asked_invocations, checked_invocations.
    split; [done |]. by apply remembered_trace.
Qed.

Lemma checked_trace g k m :
  exists evs, trace (checked g k m) = trace m ++ evs.
Proof.
  unfold checked. destruct (prices (cache m) !! k); cbn.
  - eexists. by rewrite <- app_assoc.
  - by eexists.
Qed.

(** What a call does to the store: an entry is new only if the service
    returned its price, without an error, during the call; no entry goes
    away. *)
Lemma call_store m k res m' :
  call_GetPriceFor k m = Some (res, m') ->
  exists new,
    trace m' = trace m ++ new /\
    (forall k' v, prices (cache m') !! k' = Some v ->
       prices (cache m) !! k' = Some v \/
       exists g, In (g, LService k' (Price v) None) new) /\
    (forall k', is_Some (prices (cache m) !! k') ->
                is_Some (prices (cache m') !! k')).
Proof.
  intros Hcall. destruct (checked_trace Main k m) as (evs & Hevs).
  destruct (call_outcome _ _ _ _ Hcall)
    as [(v & Hk & Hage & Hres & ->) | [(err & _ & _ & Hres & ->) |
        (Hmiss & Herr & Hfree & Hres & ->)]].
  - exists evs. rewrite checked_cache. eauto.
  - exists (evs ++ [(Main, LService k (fst (answer k m)) (snd (answer k m)))]).
    rewrite asked_cache, checked_cache. split; [| eauto].
    unfold asked, answer. cbn.
    by rewrite checked_cache, checked_env, Hevs, app_assoc.
  - eexists (evs ++ [(Main, LService k (fst (answer k m)) None)] ++ _).
    split; [| split].
    + unfold remembered, asked, answer in *. cbn.
      rewrite checked_cache, checked_env, Hevs. unfold env_at_fetch in *.
      rewrite Herr. by rewrite <- !app_assoc.
    + intros k' v. rewrite remembered_prices, asked_cache, checked_cache.
      destruct (decide (k = k')) as [<- | Hne].
      * rewrite lookup_insert_eq. intros [= <-]. right. exists Main. cbn.
        rewrite in_app_iff. right. by left.
      * rewrite lookup_insert_ne by done. by left.
    + intros k'. rewrite remembered_prices, asked_cache, checked_cache.
      destruct (decide (k = k')) as [<- | Hne].
      * by rewrite lookup_insert_eq.
      * by rewrite lookup_insert_ne.
Qed.

End Sequential.

(** ** The goroutines of a batch *)

Section Batch.

Context {Env : Type} `{Clock Env}.
Implicit Types (m : Machine Env) (k code : string) (tr : list event)
  (st : wstate) (tasks : list task) (a : Duration).

(** *** The state machines run the programs *)

Lemma writing_prog_of a t : writing (prog_of a t) = in_write t.
Proof. by destruct t as [code []]. Qed.

Lemma existsb_prog_of a tasks :
  existsb writing (prog_of a <$> tasks) = existsb in_write tasks.
Proof.
  induction tasks as [| t tasks IH]; [done |].
  cbn [fmap list_fmap existsb]. by rewrite writing_prog_of, <- IH.
Qed.

Lemma step_astep a i tasks m :
  step i (prog_of a <$> tasks, m) =
  (prog_of a <$> fst (astep a i (tasks, m)), snd (astep a i (tasks, m))).
Proof.
  unfold step, astep. cbn [fst snd].
  destruct (fatal m); [done |].
  rewrite list_lookup_fmap.
  destruct (tasks !! i) as [[code st] |] eqn:Hi;
    cbn [fmap option_fmap option_map]; [| done].
  destruct st; unfold exec; cbn -[Z.ltb Nat.ltb existsb].
  - rewrite existsb_prog_of. destruct (existsb in_write tasks); [done |].
    destruct (prices (cache m) !! code); cbn; by rewrite list_fmap_insert.
  - fold (now_at m).
    destruct (Sub (now_at m) (CreatedAt v) <? a); cbn;
      by rewrite list_fmap_insert.
  - destruct (svc_GetPriceFor _ code _) as [[price [err |]] e']; cbn;
      by rewrite list_fmap_insert.
  - destruct (mutex (cache m)); cbn; [done |]. by rewrite list_fmap_insert.
  - fold (now_at m). by rewrite list_fmap_insert.
  - rewrite existsb_prog_of. destruct (existsb in_write tasks); [done |].
    cbn. by rewrite list_fmap_insert.
  - by rewrite list_fmap_insert.
  - destruct (mutex (cache m)); cbn; [| done]. by rewrite list_fmap_insert.
  - destruct (closed (output m)); cbn -[Nat.ltb]; [done |].
    destruct (length (buf (output m)) <? cap (output m))%nat; cbn; [| done].
    by rewrite list_fmap_insert.
  - destruct (0 <? wg m); cbn; [| done]. by rewrite list_fmap_insert.
  - done.
Qed.

Lemma run_sched_arun a sched tasks m :
  run_sched sched (prog_of a <$> tasks, m) =
  (prog_of a <$> fst (arun a sched (tasks, m)),
   snd (arun a sched (tasks, m))).
Proof.
  revert tasks m. induction sched as [| i sched IH]; intros tasks m; [done |].
  cbn. rewrite step_astep.
  destruct (astep a i (tasks, m)) as [tasks1 m1]. apply IH.
Qed.

Lemma launch_tasks codes m :
  launch codes m =
  (prog_of (maxAge (cache m)) <$> ((fun code => Task code WStart) <$> codes),
   snd (launch codes m)).
Proof.
  unfold launch. cbn [snd]. f_equal.
  rewrite <- list_fmap_compose. by apply list_fmap_ext.
Qed.

(** *** Counting *)

Lemma count_cons {A} (f : A -> bool) x l :
  count f (x :: l) = (Nat.b2n (f x) + count f l)%nat.
Proof. unfold count. cbn. by destruct (f x). Qed.

Lemma count_insert {A} (f : A -> bool) l i x y :
  l !! i = Some x ->
  (count f (<[i := y]> l) + Nat.b2n (f x) = count f l + Nat.b2n (f y))%nat.
Proof.
  revert i. induction l as [| z l IH]; intros [| i] Hi; simplify_eq/=.
  - rewrite !count_cons. lia.
  - rewrite !count_cons. specialize (IH _ Hi). lia.
Qed.

Lemma count_le {A} (f : A -> bool) l : (count f l <= length l)%nat.
Proof.
  induction l as [| z l IH]; [done |]. rewrite count_cons. cbn.
  destruct (f z); cbn; lia.
Qed.

Lemma count_lt {A} (f : A -> bool) l i x :
  l !! i = Some x -> f x = false -> (count f l < length l)%nat.
Proof.
  revert i. induction l as [| z l IH]; intros [| i] Hi Hx; simplify_eq/=.
  - rewrite count_cons, Hx. pose proof (count_le f l). cbn. lia.
  - rewrite count_cons. specialize (IH _ Hi Hx). destruct (f z); cbn; lia.
Qed.

Lemma count_pos {A} (f : A -> bool) l :
  (0 < count f l)%nat -> exists i x, l !! i = Some x /\ f x = true.
Proof.
  induction l as [| z l IH]; [unfold count; cbn; lia |].
  rewrite count_cons. destruct (f z) eqn:Hz.
  - intros _. by exists 0%nat, z.
  - cbn. intros Hpos. destruct (IH Hpos) as (i & x & Hi & Hx).
    by exists (S i), x.
Qed.

Lemma count_zero {A} (f : A -> bool) l i x :
  count f l = 0%nat -> l !! i = Some x -> f x = false.
Proof.
  revert i. induction l as [| z l IH]; intros [| i]; rewrite ?count_cons;
    intros Hzero Hi; simplify_eq/=.
  - destruct (f x); [cbn in Hzero; lia | done].
  - apply (IH i); [lia | done].
Qed.

Lemma count_all {A} (f : A -> bool) l :
  (forall x, In x l -> f x = true) -> count f l = length l.
Proof.
  induction l as [| z l IH]; intros Hall; [done |].
  rewrite count_cons, (Hall z) by (by left).
  rewrite IH; [done |]. intros x Hx. apply Hall. by right.
Qed.

Lemma count_none {A} (f : A -> bool) l :
  (forall x, In x l -> f x = false) -> count f l = 0%nat.
Proof.
  induction l as [| z l IH]; intros Hall; [done |].
  rewrite count_cons, (Hall z) by (by left).
  rewrite IH; [done |]. intros x Hx. apply Hall. by right.
Qed.

Lemma sends_app tr1 tr2 : sends (tr1 ++ tr2) = sends tr1 ++ sends tr2.
Proof.
  induction tr1 as [| [g l] tr1 IH]; [done |].
  cbn. destruct g; [done |]. destruct l; cbn; by rewrite ?IH.
Qed.

Lemma steps_of_app i tr1 tr2 :
  steps_of i (tr1 ++ tr2) = steps_of i tr1 ++ steps_of i tr2.
Proof.
  induction tr1 as [| [g l] tr1 IH]; [done |].
  cbn. destruct (decide (g = Worker i)); cbn; by rewrite IH.
Qed.

End Batch.

(** *** The invariant *)

Section Invariant.

Context {Env : Type} `{Clock Env}.
Implicit Types (m : Machine Env) (k code : string) (tr : list event)
  (st : wstate) (tasks : list task) (a : Duration).

(** Splits a step of a goroutine into its cases. *)
Ltac wnext_cases Hnext :=
  match type of Hnext with
  | wnext _ _ ?st _ = _ => destruct st
  end;
  cbn -[Z.ltb Nat.ltb] in Hnext;
  repeat match type of Hnext with
         | context [match ?x with _ => _ end] => destruct x eqn:?
         end;
  simplify_eq.

(** What no step changes. *)
Lemma wnext_frame a code st m st' l m' :
  wnext a code st m = Some (st', l, m') ->
  trace m' = trace m /\
  actualPriceService (cache m') = actualPriceService (cache m) /\
  maxAge (cache m') = maxAge (cache m).
Proof. intros Hnext. wnext_cases Hnext; done. Qed.

Lemma wnext_fatal a code st m st' l m' :
  wnext a code st m = Some (st', l, m') -> fatal m' = fatal m.
Proof. intros Hnext. wnext_cases Hnext; done. Qed.

(** A property of one goroutine that the stepping goroutine keeps is kept by
    the whole list. *)
Lemma lookup_insert_keep {B} (f : task -> option B) tasks i t t' j b :
  tasks !! i = Some t ->
  f t' = f t ->
  (exists u, <[i := t']> tasks !! j = Some u /\ f u = Some b) <->
  (exists u, tasks !! j = Some u /\ f u = Some b).
Proof.
  intros Hi Hf. destruct (decide (j = i)) as [-> | Hne].
  - rewrite list_lookup_insert_eq by (by eapply lookup_lt_Some).
    split; intros (u & Hu & Hb); simplify_eq; eexists; split; eauto;
      congruence.
  - by rewrite list_lookup_insert_ne.
Qed.

Lemma wnext_inv a m0 codes tasks m new i code st st' l m' :
  Inv m0 codes tasks m new ->
  tasks !! i = Some (Task code st) ->
  wnext a code st m = Some (st', l, m') ->
  Inv m0 codes (<[i := (Task code st')]> tasks) (log (Worker i) l m')
    (new ++ [(Worker i, l)]).
Proof.
  intros [Hcodes Htrace Hsvc Hage Hwg Hopen Hcap Hbuf Hsent Hlock Hdeliv
          Hnodup Hfail Hok Hjust Hstore Hdom Hpast] Hi Hnext.
  pose proof (wnext_frame _ _ _ _ _ _ _ Hnext) as (Htr' & Hsvc' & Hage').
  pose proof (lookup_lt_Some _ _ _ Hi) as Hlt.
  pose proof (count_insert pending tasks i _ (Task code st') Hi) as Hcp.
  pose proof (count_insert has_delivered tasks i _ (Task code st') Hi) as Hcd.
  pose proof (count_insert holds tasks i _ (Task code st') Hi) as Hch.
  split.
  - (* codes *)
    rewrite list_fmap_insert. cbn. rewrite list_insert_id; [done |].
    by rewrite list_lookup_fmap, Hi.
  - cbn. by rewrite Htr', Htrace, app_assoc.
  - cbn. congruence.
  - cbn. congruence.
  - (* wait group *)
    wnext_cases Hnext; cbn in *; lia.
  - wnext_cases Hnext; cbn in *; done.
  - rewrite length_insert. wnext_cases Hnext; cbn in *; done.
  - (* channel *)
    rewrite sends_app, fmap_app.
    wnext_cases Hnext; cbn in *; rewrite ?app_nil_r; congruence.
  - rewrite sends_app, length_app.
    wnext_cases Hnext; cbn in *; lia.
  - (* lock *)
    wnext_cases Hnext; cbn in *;
      repeat match goal with
             | E : mutex _ = _ |- _ => rewrite E in *
             end; lia.
  - (* deliveries *)
    intros j r. rewrite sends_app, in_app_iff, Hdeliv.
    wnext_cases Hnext; cbn [sends In];
      try (rewrite (lookup_insert_keep delivered _ _ _ _ j r Hi)
             by reflexivity; tauto).
    destruct (decide (j = i)) as [-> | Hne].
    + rewrite list_lookup_insert_eq by done. split.
      * intros [(t & Ht & Hd) | [Heq | []]]; simplify_eq; try done.
        by eexists.
      * intros (t & Ht & Hd). simplify_eq. cbn in Hd. simplify_eq.
        right. by left.
    + rewrite list_lookup_insert_ne by done.
      split; [intros [? | [? | []]]; [done | simplify_eq] | by left].
  - (* one delivery per goroutine *)
    rewrite sends_app, fmap_app.
    wnext_cases Hnext; cbn [sends fmap list_fmap]; rewrite ?app_nil_r;
      try done.
    apply NoDup_app. split; [done |]. split; [| apply NoDup_singleton].
    intros j Hj ->%list_elem_of_singleton.
    apply list_elem_of_fmap in Hj as ([j r'] & Hfst & Hin).
    cbn in Hfst. subst j.
    apply list_elem_of_In, Hdeliv in Hin as (t & Ht & Hd).
    by simplify_eq.
  - (* failures *)
    intros j k p e [Hin | [Heq | []]]%in_app_iff.
    + destruct (Hfail _ _ _ _ Hin) as (t & r & Ht & Ho & He).
      destruct (decide (j = i)) as [-> | Hne].
      * rewrite list_lookup_insert_eq by done. simplify_eq.
        exists (Task code st'), r.
        wnext_cases Hnext; cbn in *; by simplify_eq.
      * exists t, r. by rewrite list_lookup_insert_ne.
    + simplify_eq. rewrite list_lookup_insert_eq by done.
      wnext_cases Hnext; cbn in *; simplify_eq.
      eexists _, _. split; [done |]. cbn. split; [done | eauto].
  - intros j t r e Ht Ho He.
    destruct (decide (j = i)) as [-> | Hne].
    + rewrite list_lookup_insert_eq in Ht by done. simplify_eq.
      wnext_cases Hnext; cbn in *; simplify_eq.
      * eexists _, _, _. apply in_app_iff. right. by left.
      * destruct (Hok _ _ _ _ Hi eq_refl He) as (k & p & e' & Hin).
        exists k, p, e'. apply in_app_iff. by left.
      * destruct (Hok _ _ _ _ Hi eq_refl He) as (k & p & e' & Hin).
        exists k, p, e'. apply in_app_iff. by left.
    + rewrite list_lookup_insert_ne in Ht by done.
      destruct (Hok _ _ _ _ Ht Ho He) as (k & p & e' & Hin).
      exists k, p, e'. apply in_app_iff. by left.
  - (* prices in hand *)
    intros j t p Ht Hf. apply in_app_iff.
    destruct (decide (j = i)) as [-> | Hne].
    + rewrite list_lookup_insert_eq in Ht by done. simplify_eq.
      cbn [t_code].
      wnext_cases Hnext; cbn in *; simplify_eq;
        try (left; by apply (Hjust _ _ _ Hi)).
      right. by left.
    + rewrite list_lookup_insert_ne in Ht by done. left. eauto.
  - (* the store *)
    intros k v Hk.
    assert (prices (cache m) !! k = Some v \/
            exists g, In (g, LService k (Price v) None) new) as [Hold | Hnew].
    { wnext_cases Hnext; cbn in *; try (by left).
      destruct (decide (code = k)) as [-> | Hne].
      - rewrite lookup_insert_eq in Hk. simplify_eq. right.
        exists (Worker i). by apply (Hjust _ _ _ Hi).
      - rewrite lookup_insert_ne in Hk by done. by left. }
    + destruct (Hstore _ _ Hold) as [? | [g Hg]]; [by left |].
      right. exists g. apply in_app_iff. by left.
    + destruct Hnew as [g Hg]. right. exists g. apply in_app_iff. by left.
  - intros k Hk. specialize (Hdom k Hk).
    wnext_cases Hnext; cbn in *; try done.
    destruct (decide (code = k)) as [-> | Hne].
    + by rewrite lookup_insert_eq.
    + by rewrite lookup_insert_ne.
  - (* time stamps *)
    intros Hpast0. destruct (Hpast Hpast0) as (Hsp & Hclk & Hst).
    assert (Hmono : clock m <= clock (log (Worker i) l m')).
    { wnext_cases Hnext; cbn; unfold now_at; lia. }
    split; [| split; [lia |]].
    + intros k v Hk.
      assert (prices (cache m) !! k = Some v \/ CreatedAt v <= clock m)
        as [Hold | Hnew].
      { wnext_cases Hnext; cbn in *; try (by left).
        destruct (decide (code = k)) as [-> | Hne].
        - rewrite lookup_insert_eq in Hk. simplify_eq. right. cbn.
          by apply (Hst _ _ _ Hi).
        - rewrite lookup_insert_ne in Hk by done. by left. }
      * specialize (Hsp _ _ Hold). lia.
      * lia.
    + intros j t now Ht Hs.
      destruct (decide (j = i)) as [-> | Hne].
      * rewrite list_lookup_insert_eq in Ht by done. simplify_eq.
        wnext_cases Hnext; cbn in *; simplify_eq; try done.
        by apply (Hst _ _ _ Hi).
      * rewrite list_lookup_insert_ne in Ht by done.
        specialize (Hst _ _ _ Ht Hs). lia.
Qed.

(** A fatal error changes nothing of what the invariant is about. *)
Lemma inv_set_fatal m0 codes tasks m new f :
  Inv m0 codes tasks m new -> Inv m0 codes tasks (set_fatal f m) new.
Proof. intros []. by split. Qed.

Lemma launch_inv codes m :
  mutex (cache m) = false ->
  Inv m codes ((fun code => Task code WStart) <$> codes)
    (snd (launch codes m)) [].
Proof.
  intros Hfree.
  assert (Hin : forall (f : task -> bool) b,
            f (Task "" WStart) = b ->
            (forall code, f (Task code WStart) = b) ->
            forall t, In t ((fun code => Task code WStart) <$> codes) ->
                      f t = b).
  { intros f b _ Hf t Ht. apply list_elem_of_In, list_elem_of_fmap in Ht
      as (code & -> & _). apply Hf. }
  split; cbn; try done.
  - rewrite <- list_fmap_compose. apply list_fmap_id.
  - by rewrite app_nil_r.
  - rewrite count_all, !length_fmap; [done |]. by eapply Hin.
  - by rewrite length_fmap.
  - rewrite count_none; [done |]. by eapply Hin.
  - rewrite count_none, Hfree; [done |]. by eapply Hin.
  - intros i r. split; [done |]. intros (t & Ht & Hd).
    apply list_lookup_fmap_Some in Ht as (code & -> & _). done.
  - constructor.
  - intros i t r e Ht Ho.
    apply list_lookup_fmap_Some in Ht as (code & -> & _). done.
  - intros i t p Ht Hf.
    apply list_lookup_fmap_Some in Ht as (code & -> & _). done.
  - intros k v Hk. by left.
  - intros Hpast. split; [done |]. split; [done |].
    intros i t now Ht Hs.
    apply list_lookup_fmap_Some in Ht as (code & -> & _). done.
Qed.

Lemma astep_inv a m0 codes tasks m new i :
  Inv m0 codes tasks m new ->
  exists more,
    Inv m0 codes (fst (astep a i (tasks, m))) (snd (astep a i (tasks, m)))
      (new ++ more).
Proof.
  intros HInv. unfold astep. cbn [fst snd].
  destruct (fatal m); [exists []; by rewrite app_nil_r |].
  destruct (tasks !! i) as [[code st] |] eqn:Hi;
    [| exists []; by rewrite app_nil_r].
  cbn [t_code t_state].
  destruct (wfault st tasks) as [msg |].
  { exists []. rewrite app_nil_r. by apply inv_set_fatal. }
  destruct (wnext a code st m) as [[[st' l] m'] |] eqn:Hnext;
    [| exists []; by rewrite app_nil_r].
  exists [(Worker i, l)]. by eapply wnext_inv.
Qed.

Lemma arun_inv a m0 codes sched tasks m new :
  Inv m0 codes tasks m new ->
  exists more,
    Inv m0 codes (fst (arun a sched (tasks, m)))
      (snd (arun a sched (tasks, m))) (new ++ more).
Proof.
  revert tasks m new.
  induction sched as [| i sched IH]; intros tasks m new HInv.
  - exists []. by rewrite app_nil_r.
  - cbn. destruct (astep_inv a _ _ _ _ _ i HInv) as (more1 & HInv1).
    destruct (astep a i (tasks, m)) as [tasks1 m1].
    destruct (IH _ _ _ HInv1) as (more2 & HInv2).
    exists (more1 ++ more2). by rewrite app_assoc.
Qed.

End Invariant.

(** *** Every goroutine gets to its end *)

Section Progress.

Context {Env : Type} `{Clock Env}.
Implicit Types (m : Machine Env) (k code : string) (tr : list event)
  (st : wstate) (tasks : list task) (a : Duration).

Lemma total_insert tasks i t t' :
  tasks !! i = Some t ->
  (total (<[i := t']> tasks) + weight t = total tasks + weight t')%nat.
Proof.
  revert i. induction tasks as [| z tasks IH]; intros [| i] Hi; simplify_eq/=.
  - lia.
  - specialize (IH _ Hi). lia.
Qed.

Lemma wnext_weight a code st m st' l m' :
  wnext a code st m = Some (st', l, m') ->
  (weight (Task code st') < weight (Task code st))%nat.
Proof.
  intros Hnext. destruct st; cbn -[Z.ltb Nat.ltb] in Hnext;
    repeat case_match; simplify_eq; cbn; lia.
Qed.

(** *** Who is writing the map *)

Lemma count_unique {A} (f : A -> bool) l i j x y :
  (count f l <= 1)%nat ->
  l !! i = Some x -> l !! j = Some y -> f x = true -> f y = true -> i = j.
Proof.
  revert i j. induction l as [| z l IH]; intros i j Hone Hi Hj Hx Hy;
    [done |].
  rewrite count_cons in Hone.
  destruct i as [| i], j as [| j]; simplify_eq/=; [done | | |].
  - rewrite Hx in Hone. cbn in Hone.
    assert (count f l = 0%nat) as Hzero by lia.
    rewrite (count_zero f l j y Hzero Hj) in Hy. done.
  - rewrite Hy in Hone. cbn in Hone.
    assert (count f l = 0%nat) as Hzero by lia.
    rewrite (count_zero f l i x Hzero Hi) in Hx. done.
  - f_equal. apply (IH i j); [lia | done..].
Qed.

Lemma in_write_holds t : in_write t = true -> holds t = true.
Proof. by destruct t as [code []]. Qed.

(** A goroutine that is between the two steps of a map write holds the
    lock: while the lock is free nobody is writing. *)
Lemma no_writer tasks :
  count holds tasks = 0%nat -> existsb in_write tasks = false.
Proof.
  intros Hzero. destruct (existsb in_write tasks) eqn:Hex; [| done].
  apply existsb_exists in Hex as (t & Hin & Hw).
  apply list_elem_of_In, list_elem_of_lookup in Hin as (j & Hj).
  apply in_write_holds in Hw.
  by rewrite (count_zero holds tasks j t Hzero Hj) in Hw.
Qed.

(** The goroutine that holds the lock is alone with the map's mark. *)
Lemma sole_writer tasks i t :
  (count holds tasks <= 1)%nat ->
  tasks !! i = Some t -> holds t = true -> in_write t = false ->
  existsb in_write tasks = false.
Proof.
  intros Hone Hi Hholds Hnot.
  destruct (existsb in_write tasks) eqn:Hex; [| done].
  apply existsb_exists in Hex as (u & Hin & Hw).
  apply list_elem_of_In, list_elem_of_lookup in Hin as (j & Hj).
  pose proof (count_unique holds tasks i j t u Hone Hi Hj Hholds
                (in_write_holds _ Hw)) as ->.
  rewrite Hi in Hj. injection Hj as <-. congruence.
Qed.

Lemma wfault_none st tasks :
  existsb in_write tasks = false -> wfault st tasks = None.
Proof. intros Hex. destruct st; cbn; by rewrite ?Hex. Qed.

(** Two map writes never overlap: a write that begins finds no write under
    way. *)
Lemma inv_no_concurrent_writes m0 codes tasks m new i t :
  Inv m0 codes tasks m new ->
  tasks !! i = Some t ->
  forall msg, wfault (t_state t) tasks = Some msg ->
    t_state t = WStart /\ msg = concurrent_read_write.
Proof.
  intros HInv Hi msg Hfault.
  pose proof (inv_lock _ _ _ _ _ HInv) as Hlock.
  assert (Hone : (count holds tasks <= 1)%nat)
    by (destruct (mutex (cache m)); lia).
  destruct t as [code st].
  destruct st; cbn in Hfault; try done.
  - destruct (existsb in_write tasks); by simplify_eq.
  - by rewrite (sole_writer tasks i _ Hone Hi) in Hfault.
Qed.

(** While a goroutine is pending, some goroutine can take a step that
    raises no fatal error: the one that holds the lock if the lock is held,
    any pending one otherwise. *)
Lemma inv_progress a m0 codes tasks m new :
  Inv m0 codes tasks m new ->
  (0 < count pending tasks)%nat ->
  exists i t st' l m',
    tasks !! i = Some t /\
    wfault (t_state t) tasks = None /\
    wnext a (t_code t) (t_state t) m = Some (st', l, m').
Proof.
  intros HInv Hpos.
  pose proof (inv_lock _ _ _ _ _ HInv) as Hlock.
  destruct (mutex (cache m)) eqn:Hmutex.
  - destruct (count_pos holds tasks) as (i & [code st] & Hi & Hholds);
      [lia |].
    exists i, (Task code st).
    assert (Hone : (count holds tasks <= 1)%nat) by lia.
    destruct st; cbn in Hholds; try done; cbn; rewrite ?Hmutex;
      rewrite ?(sole_writer tasks i _ Hone Hi) by done; eauto 7.
  - destruct (count_pos pending tasks Hpos) as (i & [code st] & Hi & Hpend).
    exists i, (Task code st).
    pose proof (count_zero holds tasks i _ Hlock Hi) as Hfree.
    cbn [t_code t_state]. rewrite (wfault_none _ _ (no_writer _ Hlock)).
    destruct st; cbn in Hpend, Hfree; try done; cbn -[Z.ltb Nat.ltb];
      rewrite ?Hmutex; eauto 7.
    + (* the channel has room *)
      rewrite (inv_open _ _ _ _ _ HInv).
      assert ((length (buf (output m)) <? cap (output m))%nat = true) as ->;
        [| eauto 7].
      apply Nat.ltb_lt.
      rewrite (inv_buf _ _ _ _ _ HInv), (inv_cap _ _ _ _ _ HInv).
      rewrite length_fmap, (inv_sent _ _ _ _ _ HInv).
      by apply (count_lt _ _ _ _ Hi).
    + (* the counter is positive *)
      assert ((0 <? wg m) = true) as ->; [| eauto 7].
      apply Z.ltb_lt. rewrite (inv_wg _ _ _ _ _ HInv). lia.
Qed.

(** From any state of the batch in which no fatal error has stopped the
    process, some schedule brings every goroutine to its end without a
    fatal error. *)
Lemma inv_completes a m0 codes n tasks m new :
  Inv m0 codes tasks m new ->
  fatal m = None ->
  (total tasks <= n)%nat ->
  exists sched,
    count pending (fst (arun a sched (tasks, m))) = 0%nat /\
    fatal (snd (arun a sched (tasks, m))) = None.
Proof.
  revert tasks m new.
  induction n as [| n IH]; intros tasks m new HInv Hlive Hn.
  - destruct (count pending tasks) eqn:Hc; [by exists [] |].
    destruct (inv_progress a _ _ _ _ _ HInv)
      as (i & t & st' & l & m' & Hi & _ & Hnext); [lia |].
    destruct t as [code st]. cbn in Hnext. apply wnext_weight in Hnext.
    pose proof (total_insert tasks i _ (Task code st') Hi). lia.
  - destruct (count pending tasks) eqn:Hc; [by exists [] |].
    destruct (inv_progress a _ _ _ _ _ HInv)
      as (i & t & st' & l & m' & Hi & Hsafe & Hnext); [lia |].
    destruct t as [code st]. cbn [t_code t_state] in Hnext, Hsafe.
    pose proof (wnext_inv _ _ _ _ _ _ _ _ _ _ _ _ HInv Hi Hnext) as HInv'.
    pose proof (wnext_weight _ _ _ _ _ _ _ Hnext).
    pose proof (total_insert tasks i _ (Task code st') Hi).
    pose proof (wnext_fatal _ _ _ _ _ _ _ Hnext) as Hlive'.
    destruct (IH _ _ _ HInv') as (sched & Hdone); [cbn; congruence | lia |].
    exists (i :: sched). cbn. unfold astep at 2 4. cbn [fst snd].
    rewrite Hlive, Hi. cbn [t_code t_state]. by rewrite Hsafe, Hnext.
Qed.

Lemma arun_app a sched1 sched2 cfg :
  arun a (sched1 ++ sched2) cfg = arun a sched2 (arun a sched1 cfg).
Proof. apply fold_left_app. Qed.

(** The goroutines at their end are the finished programs. *)
Lemma pending_zero_finished a tasks :
  count pending tasks = 0%nat ->
  Forall (fun p => p = Ret tt) (prog_of a <$> tasks).
Proof.
  intros Hdone. apply Forall_fmap, Forall_lookup. intros i [code st] Hi.
  pose proof (count_zero pending tasks i _ Hdone Hi) as Hend.
  destruct st; cbn in Hend; done.
Qed.

(** *** The loop that gathers the responses *)

Lemma run_collect n m results :
  length (buf (output m)) = n ->
  exists m',
    run Main (collect n results) m =
      Some (gather (buf (output m)) results, m') /\
    cache m' = cache m /\
    clock m' = clock m /\
    env m' = env m /\
    exists rcv,
      trace m' = trace m ++ rcv /\
      invocations rcv = 0%nat /\
      Forall (fun e => fst e = Main) rcv.
Proof.
  revert m results. induction n as [| n IH]; intros m results Hlen.
  - destruct (buf (output m)) eqn:Hbuf; [| done].
    exists m. cbn. repeat split; try done.
    exists []. by rewrite app_nil_r.
  - destruct (buf (output m)) as [| r rest] eqn:Hbuf; [done |].
    cbn. unfold exec. cbn. rewrite Hbuf.
    destruct (Err r) as [err |] eqn:Herr.
    + eexists. split; [done |]. cbn. repeat split; try done.
      exists [(Main, LRecv r)]. split; [done |]. split; [done |].
      by repeat constructor.
    + edestruct (IH (log Main (LRecv r)
                       (set_output {| cap := cap (output m); buf := rest;
                                      closed := closed (output m) |} m))
                    (results ++ [RespPrice r]))
        as (m' & Hrun & Hcache & Hclock & Henv & rcv & Htr & Hinv & Hmain).
      { cbn. cbn in Hlen. lia. }
      exists m'. split; [exact Hrun |]. cbn in *.
      repeat split; try done.
      exists ((Main, LRecv r) :: rcv). split; [| split].
      * by rewrite Htr, <- app_assoc.
      * change ((Main, LRecv r) :: rcv) with ([(Main, LRecv r)] ++ rcv).
        by rewrite invocations_app, Hinv.
      * by constructor.
Qed.

End Progress.

(** *** The steps of each goroutine are a run of its program *)

Section History.

Context {Env : Type} `{Clock Env}.
Implicit Types (m : Machine Env) (tr new : list event)
  (pool : list (prog unit)).

Lemma effect_trace {X} (a : action X) m x m' :
  effect a m = Some (x, m') -> trace m' = trace m.
Proof.
  revert x. destruct a; intros x Heff; cbn -[Z.ltb Nat.ltb] in Heff;
    repeat case_match; by simplify_eq.
Qed.

Lemma exec_trace {X} g (a : action X) m x m' :
  exec g a m = Some (x, m') -> trace m' = trace m ++ [(g, label_of a x)].
Proof.
  unfold exec. destruct (effect a m) as [[x0 m0] |] eqn:Heff; [| done].
  intros ?. simplify_eq. cbn. by rewrite (effect_trace _ _ _ _ Heff).
Qed.

Lemma runs_snoc {R X} (p : prog R) ls (a : action X) k x :
  runs p ls (Act a k) -> runs p (ls ++ [label_of a x]) (k x).
Proof.
  revert p. induction ls as [| l ls IH]; intros p; cbn.
  - intros ->. eauto.
  - destruct p as [r | Y b kb]; [done |].
    intros (y & -> & Hruns). eauto.
Qed.

Lemma runs_bind {A B} (p : prog A) (f : A -> prog B) ls b :
  runs (bind p f) ls (Ret b) ->
  exists x ls1 ls2,
    ls = ls1 ++ ls2 /\ runs p ls1 (Ret x) /\ runs (f x) ls2 (Ret b).
Proof.
  revert ls. induction p as [x | X a k IH]; intros ls; cbn.
  - intros Hruns. by exists x, [], ls.
  - destruct ls as [| l ls]; cbn; [done |].
    intros (y & -> & Hruns).
    destruct (IH _ _ Hruns) as (x & ls1 & ls2 & -> & H1 & H2).
    exists x, (label_of a y :: ls1), ls2. cbn. eauto.
Qed.

(** The two steps after [GetPriceFor] has returned. *)
Lemma runs_deliver r ls :
  runs (deliver r) ls (Ret tt) ->
  ls = [LSend {| RespPrice := fst r; Err := snd r |}; LDone].
Proof.
  destruct ls as [| l1 [| l2 [| l3 ls]]]; cbn; try done.
  - by intros (? & _ & ?).
  - by intros (? & -> & ? & -> & _).
  - by intros (? & _ & ? & _ & ?).
Qed.

Lemma steps_of_other i j l :
  i <> j -> steps_of j [(Worker i, l)] = [].
Proof.
  intros Hne. cbn. destruct (decide (Worker i = Worker j)); [| done].
  by simplify_eq.
Qed.

Lemma steps_of_self i l : steps_of i [(Worker i, l)] = [l].
Proof. cbn. by rewrite decide_True. Qed.

(** [hist pool0 pool new]: each program of [pool0] has become the one at its
    place in [pool] by the steps that [new] records for its goroutine. *)
Lemma step_hist i pool0 pool m tr0 new :
  trace m = tr0 ++ new ->
  (forall j p0, pool0 !! j = Some p0 ->
     exists p, pool !! j = Some p /\ runs p0 (steps_of j new) p) ->
  exists more,
    trace (snd (step i (pool, m))) = tr0 ++ new ++ more /\
    forall j p0, pool0 !! j = Some p0 ->
      exists p, fst (step i (pool, m)) !! j = Some p /\
                runs p0 (steps_of j (new ++ more)) p.
Proof.
  intros Htr Hhist. unfold step. cbn [fst snd].
  destruct (fatal m); [exists []; by rewrite !app_nil_r |].
  destruct (pool !! i) as [[r | X a k] |] eqn:Hi;
    try (exists []; by rewrite !app_nil_r).
  destruct (map_fault a pool); [exists []; by rewrite !app_nil_r |].
  destruct (exec (Worker i) a m) as [[x m'] |] eqn:Hexec;
    [| exists []; by rewrite !app_nil_r].
  exists [(Worker i, label_of a x)]. cbn [fst snd]. split.
  { by rewrite (exec_trace _ _ _ _ _ Hexec), Htr, app_assoc. }
  intros j p0 Hj. destruct (Hhist _ _ Hj) as (p & Hp & Hruns).
  rewrite steps_of_app. destruct (decide (i = j)) as [<- | Hne].
  - rewrite list_lookup_insert_eq by (by eapply lookup_lt_Some).
    rewrite steps_of_self. simplify_eq. eexists. split; [done |].
    by apply runs_snoc.
  - rewrite list_lookup_insert_ne by done.
    rewrite steps_of_other, app_nil_r by done. eauto.
Qed.

Lemma run_sched_hist sched pool0 pool m tr0 new :
  trace m = tr0 ++ new ->
  (forall j p0, pool0 !! j = Some p0 ->
     exists p, pool !! j = Some p /\ runs p0 (steps_of j new) p) ->
  exists more,
    trace (snd (run_sched sched (pool, m))) = tr0 ++ new ++ more /\
    forall j p0, pool0 !! j = Some p0 ->
      exists p, fst (run_sched sched (pool, m)) !! j = Some p /\
                runs p0 (steps_of j (new ++ more)) p.
Proof.
  revert pool m new.
  induction sched as [| i sched IH]; intros pool m new Htr Hhist.
  - exists []. rewrite !app_nil_r. eauto.
  - cbn. destruct (step_hist i _ _ _ _ _ Htr Hhist) as (more1 & Htr1 & Hh1).
    destruct (step i (pool, m)) as [pool1 m1]. cbn [fst snd] in *.
    destruct (IH _ _ (new ++ more1) Htr1 Hh1) as (more2 & Htr2 & Hh2).
    exists (more1 ++ more2). rewrite !app_assoc in *. eauto.
Qed.

(** A response is among the sends of a history exactly when its goroutine
    took the step that sends it. *)
Lemma sends_steps i r tr :
  In (i, r) (sends tr) <-> In (LSend r) (steps_of i tr).
Proof.
  induction tr as [| [g l] tr IH]; [done |]. cbn.
  destruct (decide (g = Worker i)) as [-> | Hne].
  - destruct l; cbn; rewrite IH; try tauto;
      try (split; [tauto | intros [? | ?]; [done | tauto]]).
    split; intros [? | ?]; simplify_eq; tauto.
  - destruct g as [| j]; [tauto |].
    destruct l; cbn; rewrite ?IH; try tauto.
    split; [intros [? | ?]; [by simplify_eq | tauto] | tauto].
Qed.

End History.

(** *** A batch as a whole *)

Section Whole.

Context {Env : Type} `{Clock Env}.
Implicit Types (m : Machine Env) (code : string) (tr new : list event)
  (tasks : list task) (codes : list string) (sched : list nat).

Lemma run_sched_batch sched codes m :
  run_sched sched (launch codes m) =
  (prog_of (maxAge (cache m)) <$> fst (batch_tasks sched codes m),
   snd (batch_tasks sched codes m)).
Proof. by rewrite launch_tasks, run_sched_arun. Qed.

(** The state of a batch after any schedule. *)
Lemma batch_inv sched codes m :
  mutex (cache m) = false ->
  Inv m codes (fst (batch_tasks sched codes m))
    (snd (batch_tasks sched codes m)) (batch_events sched codes m).
Proof.
  intros Hfree. unfold batch_events. rewrite run_sched_batch. cbn [snd].
  destruct (arun_inv (maxAge (cache m)) m codes sched _ _ []
              (launch_inv codes m Hfree)) as (more & HInv).
  fold (batch_tasks sched codes m) in HInv. cbn [app] in HInv.
  by rewrite (inv_trace _ _ _ _ _ HInv), drop_app_length.
Qed.

(** The steps of goroutine [i] are a run of [worker] for the [i]-th code. *)
Lemma batch_hist sched codes m i code :
  codes !! i = Some code ->
  exists p,
    fst (run_sched sched (launch codes m)) !! i = Some p /\
    runs (worker (maxAge (cache m)) code)
      (steps_of i (batch_events sched codes m)) p.
Proof.
  intros Hi. unfold batch_events.
  destruct (run_sched_hist sched (fst (launch codes m)) (fst (launch codes m))
              (snd (launch codes m)) (trace m) [])
    as (more & Htr & Hhist).
  { by rewrite app_nil_r. }
  { intros j p0 Hj. by exists p0. }
  rewrite <- surjective_pairing in Htr, Hhist.
  cbn [app] in Htr, Hhist. rewrite Htr, drop_app_length.
  apply Hhist. cbn. by rewrite list_lookup_fmap, Hi.
Qed.

(** When [wg.Wait()] returns, every goroutine has delivered. *)
Lemma batch_done sched codes m :
  mutex (cache m) = false ->
  wg (snd (run_sched sched (launch codes m))) = 0 ->
  Forall (fun p => p = Ret tt) (fst (run_sched sched (launch codes m))) /\
  length (deliveries sched codes m) = length codes /\
  buf (output (snd (run_sched sched (launch codes m)))) =
    snd <$> deliveries sched codes m.
Proof.
  intros Hfree Hwg.
  pose proof (batch_inv sched codes m Hfree) as HInv.
  rewrite run_sched_batch in *. cbn [fst snd] in *.
  destruct (batch_tasks sched codes m) as [tasks m1]. cbn [fst snd] in *.
  rewrite (inv_wg _ _ _ _ _ HInv) in Hwg.
  assert (Hdone : count pending tasks = 0%nat) by lia.
  split; [by apply pending_zero_finished |].
  split; [| apply (inv_buf _ _ _ _ _ HInv)].
  unfold deliveries. rewrite (inv_sent _ _ _ _ _ HInv).
  rewrite <- (inv_codes _ _ _ _ _ HInv), length_fmap.
  apply count_all. intros [code st] Ht.
  apply list_elem_of_In, list_elem_of_lookup in Ht as [i Hi].
  pose proof (count_zero pending tasks i _ Hdone Hi) as Hend.
  by destruct st.
Qed.

(** The call returns what the loop makes of the deliveries. *)
Lemma call_batch sched codes m :
  mutex (cache m) = false ->
  wg (snd (run_sched sched (launch codes m))) = 0 ->
  fatal (snd (run_sched sched (launch codes m))) = None ->
  exists m' rcv,
    call_GetPricesFor sched codes m =
      Some (gather (snd <$> deliveries sched codes m) [], m') /\
    cache m' = cache (snd (run_sched sched (launch codes m))) /\
    clock m' = clock (snd (run_sched sched (launch codes m))) /\
    trace m' = trace m ++ batch_events sched codes m ++ rcv /\
    invocations rcv = 0%nat.
Proof.
  intros Hfree Hwg Hlive.
  destruct (batch_done sched codes m Hfree Hwg) as (_ & Hlen & Hbuf).
  pose proof (batch_inv sched codes m Hfree) as HInv.
  assert (Hsnd : snd (batch_tasks sched codes m) =
                 snd (run_sched sched (launch codes m)))
    by (by rewrite run_sched_batch).
  rewrite Hsnd in HInv.
  unfold call_GetPricesFor. cbn zeta. rewrite Hlive, Hwg. cbn [Z.eqb].
  destruct (run_collect (length codes)
              (snd (run_sched sched (launch codes m))) [])
    as (m' & Hrun & Hcache & Hclock & _ & rcv & Htr & Hinv & _).
  { by rewrite Hbuf, length_fmap. }
  rewrite Hrun, Hbuf. exists (close_output m'), rcv.
  split; [done |]. split; [done |]. split; [done |]. split; [| done].
  cbn. by rewrite Htr, (inv_trace _ _ _ _ _ HInv), app_assoc.
Qed.

Lemma call_batch_inv sched codes m res m' :
  call_GetPricesFor sched codes m = Some (res, m') ->
  wg (snd (run_sched sched (launch codes m))) = 0.
Proof.
  unfold call_GetPricesFor. cbn zeta.
  destruct (fatal _); [done |].
  destruct (wg _ =? 0) eqn:Hwg; [| done]. intros _. by apply Z.eqb_eq.
Qed.

(** A call that returns was not stopped by a fatal error. *)
Lemma call_live sched codes m res m' :
  call_GetPricesFor sched codes m = Some (res, m') ->
  fatal (snd (run_sched sched (launch codes m))) = None.
Proof.
  unfold call_GetPricesFor. cbn zeta. by destruct (fatal _).
Qed.

(** Once a fatal error has stopped the process nothing happens any more,
    and the call does not return. *)
Lemma step_stopped i (cfg : list (prog unit) * Machine Env) :
  is_Some (fatal (snd cfg)) -> step i cfg = cfg.
Proof. unfold step. by intros [msg ->]. Qed.

Lemma run_sched_stopped sched (cfg : list (prog unit) * Machine Env) :
  is_Some (fatal (snd cfg)) -> run_sched sched cfg = cfg.
Proof.
  induction sched as [| i sched IH]; intros Hstop; [done |].
  cbn. rewrite step_stopped by done. by apply IH.
Qed.

Lemma run_sched_app sched1 sched2 (cfg : list (prog unit) * Machine Env) :
  run_sched (sched1 ++ sched2) cfg = run_sched sched2 (run_sched sched1 cfg).
Proof. apply fold_left_app. Qed.

Lemma stopped_no_return sched sched' codes m :
  is_Some (fatal (snd (run_sched sched (launch codes m)))) ->
  call_GetPricesFor (sched ++ sched') codes m = None.
Proof.
  intros Hstop. unfold call_GetPricesFor. cbn zeta.
  rewrite run_sched_app, run_sched_stopped by done.
  by destruct Hstop as [msg ->].
Qed.

(** Every schedule that has not run into a fatal error can be continued so
    that the call returns: the goroutines do not block each other for
    ever. *)
Lemma batch_returns sched codes m :
  mutex (cache m) = false ->
  fatal (snd (run_sched sched (launch codes m))) = None ->
  exists sched' res m',
    call_GetPricesFor (sched ++ sched') codes m = Some (res, m').
Proof.
  intros Hfree Hlive.
  pose proof (batch_inv sched codes m Hfree) as HInv.
  rewrite run_sched_batch in Hlive. cbn [snd] in Hlive.
  destruct (inv_completes (maxAge (cache m)) _ _
              (total (fst (batch_tasks sched codes m))) _ _ _ HInv Hlive)
    as (sched' & Hdone & Hlive'); [done |].
  exists sched'.
  rewrite <- surjective_pairing in Hdone, Hlive'.
  assert (Hwg : wg (snd (run_sched (sched ++ sched') (launch codes m))) = 0).
  { pose proof (batch_inv (sched ++ sched') codes m Hfree) as HInv'.
    rewrite run_sched_batch. cbn [snd].
    rewrite (inv_wg _ _ _ _ _ HInv').
    unfold batch_tasks at 1. rewrite arun_app.
    fold (batch_tasks sched codes m). by rewrite Hdone. }
  assert (Hend : fatal (snd (run_sched (sched ++ sched') (launch codes m)))
                 = None).
  { rewrite run_sched_batch. cbn [snd].
    unfold batch_tasks. rewrite arun_app.
    by fold (batch_tasks sched codes m). }
  destruct (call_batch _ _ _ Hfree Hwg Hend) as (m' & rcv & Hcall & _).
  eauto.
Qed.

(** The only fatal error of a batch is that of a map read during a map
    write; the goroutine that is writing holds the lock. *)
Lemma batch_fatal sched codes m msg :
  mutex (cache m) = false ->
  fatal (snd (batch_tasks sched codes m)) = Some msg ->
  msg = concurrent_read_write /\
  mutex (cache (snd (batch_tasks sched codes m))) = true.
Proof.
  intros Hfree. induction sched as [| i sched IH] using rev_ind; [done |].
  pose proof (batch_inv sched codes m Hfree) as HInv.
  unfold batch_tasks in *. rewrite arun_app.
  destruct (arun (maxAge (cache m)) sched _) as [tasks m1] eqn:Hrun.
  cbn [fst snd arun fold_left] in *.
  unfold astep. cbn [fst snd].
  destruct (fatal m1) as [msg1 |] eqn:Hlive;
    [cbn [snd]; rewrite Hlive; exact IH |].
  destruct (tasks !! i) as [[code st] |] eqn:Hi;
    [| cbn [snd]; by rewrite Hlive].
  cbn [t_code t_state].
  destruct (wfault st tasks) as [msg1 |] eqn:Hfault.
  - cbn. intros [= <-].
    destruct (inv_no_concurrent_writes _ _ _ _ _ _ _ HInv Hi _ Hfault)
      as [Hst ->].
    split; [done |]. cbn in Hst. subst st. cbn in Hfault.
    destruct (existsb in_write tasks) eqn:Hex; [| done].
    pose proof (inv_lock _ _ _ _ _ HInv) as Hlock.
    destruct (mutex (cache m1)); [done |].
    by rewrite (no_writer _ Hlock) in Hex.
  - destruct (wnext (maxAge (cache m)) code st m1) as [[[st' l] m2] |]
      eqn:Hnext; cbn [snd]; [| by rewrite Hlive].
    cbn. by rewrite (wnext_fatal _ _ _ _ _ _ _ Hnext), Hlive.
Qed.

(** *** What the loop returns *)

Lemma gather_ok rs results :
  Forall (fun r => Err r = None) rs ->
  gather rs results = (results ++ (RespPrice <$> rs), None).
Proof.
  revert results. induction rs as [| r rs IH]; intros results Hall; cbn.
  - by rewrite app_nil_r.
  - apply Forall_cons in Hall as [-> Hall].
    by rewrite IH, <- app_assoc.
Qed.

Lemma gather_fail before r after err results :
  Forall (fun r => Err r = None) before ->
  Err r = Some err ->
  gather (before ++ r :: after) results =
    (results ++ (RespPrice <$> before), Some err).
Proof.
  revert results.
  induction before as [| r0 before IH]; intros results Hall Herr; cbn.
  - by rewrite Herr, app_nil_r.
  - apply Forall_cons in Hall as [-> Hall].
    by rewrite IH, <- app_assoc.
Qed.

Lemma gather_none rs results res :
  gather rs results = (res, None) ->
  Forall (fun r => Err r = None) rs.
Proof.
  revert results. induction rs as [| r rs IH]; intros results; cbn.
  - by constructor.
  - destruct (Err r) eqn:Herr; [done |]. intros Hg.
    constructor; [done | by eapply IH].
Qed.

(** The first response that carries an error. *)
Lemma first_failure rs r0 :
  In r0 rs -> is_Some (Err r0) ->
  exists before r after err,
    rs = before ++ r :: after /\
    Forall (fun r => Err r = None) before /\
    Err r = Some err.
Proof.
  induction rs as [| r rs IH]; [done |]. intros Hin Hsome.
  destruct (Err r) as [err |] eqn:Herr.
  - by exists [], r, rs, err.
  - destruct Hin as [-> | Hin]; [by destruct Hsome; simplify_eq |].
    destruct (IH Hin Hsome) as (before & r1 & after & err & -> & Hall & Herr1).
    exists (r :: before), r1, after, err. by repeat constructor.
Qed.

Lemma no_failed_call (tr : list event) :
  forallb (fun e => negb (failed_call e)) tr = true ->
  forall g k p e, ~ In (g, LService k p (Some e)) tr.
Proof.
  intros Hall g k p e Hin.
  rewrite forallb_forall in Hall. by specialize (Hall _ Hin).
Qed.

(** *** What the deliveries are *)

Lemma delivered_outcome t r : delivered t = Some r -> outcome t = Some r.
Proof. destruct t as [code []]; cbn; congruence. Qed.

(** After the batch the response of goroutine [i] is the result of its
    [GetPriceFor] for the [i]-th code. *)
Lemma delivery_is_result sched codes m i r :
  mutex (cache m) = false ->
  wg (snd (run_sched sched (launch codes m))) = 0 ->
  In (i, r) (deliveries sched codes m) ->
  exists code ls,
    codes !! i = Some code /\
    steps_of i (batch_events sched codes m) = ls ++ [LSend r; LDone] /\
    runs (GetPriceFor (maxAge (cache m)) code) ls
      (Ret (RespPrice r, Err r)).
Proof.
  intros Hfree Hwg Hin.
  pose proof (batch_inv sched codes m Hfree) as HInv.
  destruct (batch_done sched codes m Hfree Hwg) as (Hfin & _ & _).
  pose proof Hin as Hin'.
  apply (inv_deliv _ _ _ _ _ HInv) in Hin' as (t & Ht & Hd).
  destruct (lookup_lt_is_Some_2 codes i) as [code Hcode].
  { rewrite <- (inv_codes _ _ _ _ _ HInv), length_fmap.
    by eapply lookup_lt_Some. }
  exists code.
  destruct (batch_hist sched codes m i code Hcode) as (p & Hp & Hruns).
  rewrite Forall_lookup in Hfin. rewrite (Hfin _ _ Hp) in Hruns.
  apply (runs_bind (GetPriceFor (maxAge (cache m)) code) deliver)
    in Hruns as (x & ls1 & ls2 & Hsplit & Hruns1 & Hruns2).
  apply runs_deliver in Hruns2. subst ls2.
  assert (Hsent : In (i, {| RespPrice := fst x; Err := snd x |})
                     (deliveries sched codes m)).
  { apply sends_steps. rewrite Hsplit, in_app_iff. right. by left. }
  apply (inv_deliv _ _ _ _ _ HInv) in Hsent as (t' & Ht' & Hd').
  simplify_eq. exists ls1. cbn. split; [done |]. split; [done |].
  by destruct x.
Qed.

(** The cache after the batch: nothing changes after [wg.Wait()]. *)
Lemma batch_store sched codes m res m' :
  mutex (cache m) = false ->
  call_GetPricesFor sched codes m = Some (res, m') ->
  exists rcv,
    trace m' = trace m ++ batch_events sched codes m ++ rcv /\
    invocations rcv = 0%nat /\
    (forall k v, prices (cache m') !! k = Some v ->
       prices (cache m) !! k = Some v \/
       exists g, In (g, LService k (Price v) None)
                    (batch_events sched codes m)) /\
    (forall k, is_Some (prices (cache m) !! k) ->
               is_Some (prices (cache m') !! k)).
Proof.
  intros Hfree Hcall.
  pose proof (call_batch_inv _ _ _ _ _ Hcall) as Hwg.
  pose proof (call_live _ _ _ _ _ Hcall) as Hlive.
  destruct (call_batch sched codes m Hfree Hwg Hlive)
    as (m1 & rcv & Hcall1 & Hcache & _ & Htr & Hinv).
  rewrite Hcall in Hcall1. simplify_eq.
  pose proof (batch_inv sched codes m Hfree) as HInv.
  rewrite run_sched_batch in Hcache. cbn [snd] in Hcache.
  exists rcv. rewrite Hcache. split; [done |]. split; [done |].
  split; [apply (inv_store _ _ _ _ _ HInv) | apply (inv_dom _ _ _ _ _ HInv)].
Qed.

(** After a batch the time stamps are in the past and the lock is free. *)
Lemma batch_keeps_shape sched codes m res m' :
  mutex (cache m) = false ->
  store_past m ->
  call_GetPricesFor sched codes m = Some (res, m') ->
  store_past m' /\ clock m <= clock m' /\ mutex (cache m') = false.
Proof.
  intros Hfree Hpast Hcall.
  pose proof (call_batch_inv _ _ _ _ _ Hcall) as Hwg.
  pose proof (call_live _ _ _ _ _ Hcall) as Hlive.
  destruct (call_batch sched codes m Hfree Hwg Hlive)
    as (m1 & rcv & Hcall1 & Hcache & Hclock & _).
  rewrite Hcall in Hcall1. simplify_eq.
  pose proof (batch_inv sched codes m Hfree) as HInv.
  rewrite run_sched_batch in Hcache, Hclock, Hwg. cbn [snd] in *.
  destruct (inv_past _ _ _ _ _ HInv Hpast) as (Hpast' & Hlater & _).
  split; [| split].
  - intros k v. rewrite Hcache, Hclock. apply Hpast'.
  - by rewrite Hclock.
  - rewrite Hcache. pose proof (inv_lock _ _ _ _ _ HInv) as Hlock.
    rewrite (inv_wg _ _ _ _ _ HInv) in Hwg.
    assert (Hb : forall b : bool,
              0%nat = (if b then 1%nat else 0%nat) -> b = false)
      by (by intros []).
    rewrite count_none in Hlock; [by apply Hb |].
    intros [code st] Ht.
    apply list_elem_of_In, list_elem_of_lookup in Ht as [i Hi].
    assert (Hzero : count pending (fst (batch_tasks sched codes m)) = 0%nat)
      by lia.
    pose proof (count_zero pending _ i _ Hzero Hi) as Hend.
    by destruct st.
Qed.

(** In every state the cache can be in, between two operations, the lock is
    free and no time stamp is later than the clock. *)
Lemma reachable_shape m :
  reachable m -> mutex (cache m) = false /\ store_past m.
Proof.
  induction 1 as [m svc age Hnew | m op m' _ [Hfree Hpast] Hop |
                  m m' _ [Hfree Hpast] Hcache _ Hlater].
  - rewrite Hnew. split; [done |]. intros k v. by rewrite Hnew.
  - destruct op as [k | sched codes]; unfold perform in Hop.
    + destruct (call_GetPriceFor k m) as [[res m1] |] eqn:Hcall;
        cbn in Hop; [| done]. injection Hop as <-.
      destruct (call_keeps_shape _ _ _ _ Hcall Hpast)
        as (Hpast1 & _ & _ & _ & Hfree1).
      split; [congruence | done].
    + destruct (call_GetPricesFor sched codes m) as [[res m1] |] eqn:Hcall;
        cbn in Hop; [| done]. injection Hop as <-.
      destruct (batch_keeps_shape _ _ _ _ _ Hfree Hpast Hcall)
        as (Hpast1 & _ & Hfree1).
      done.
  - rewrite Hcache. split; [done |].
    intros k v Hk. rewrite Hcache in Hk. specialize (Hpast _ _ Hk). lia.
Qed.

(** What an operation does to the store: an entry is new only if the
    service returned its price, without an error, during the operation; no
    entry goes away. *)
Lemma perform_store op m m' :
  mutex (cache m) = false ->
  perform op m = Some m' ->
  exists new,
    trace m' = trace m ++ new /\
    (forall k v, prices (cache m') !! k = Some v ->
       prices (cache m) !! k = Some v \/
       exists g, In (g, LService k (Price v) None) new) /\
    (forall k, is_Some (prices (cache m) !! k) ->
               is_Some (prices (cache m') !! k)).
Proof.
  intros Hfree Hop. destruct op as [k | sched codes]; unfold perform in Hop.
  - destruct (call_GetPriceFor k m) as [[res m1] |] eqn:Hcall;
      cbn in Hop; [| done]. injection Hop as <-.
    by eapply call_store.
  - destruct (call_GetPricesFor sched codes m) as [[res m1] |] eqn:Hcall;
      cbn in Hop; [| done]. injection Hop as <-.
    destruct (batch_store _ _ _ _ _ Hfree Hcall)
      as (rcv & Htr & _ & Hnew & Hkeep).
    exists (batch_events sched codes m ++ rcv). split; [done |].
    split; [| done]. intros k v Hk.
    destruct (Hnew _ _ Hk) as [? | [g Hg]]; [by left |].
    right. exists g. apply in_app_iff. by left.
Qed.

Lemma perform_store_inv op m m' :
  mutex (cache m) = false ->
  perform op m = Some m' ->
  store_inv m -> store_inv m'.
Proof.
  intros Hfree Hop Hinv k v Hk.
  destruct (perform_store op m m' Hfree Hop) as (new & Htr & Hnew & _).
  rewrite Htr. destruct (Hnew _ _ Hk) as [Hold | [g Hg]].
  - destruct (Hinv _ _ Hold) as [g Hg]. exists g. apply in_app_iff.
    by left.
  - exists g. apply in_app_iff. by right.
Qed.

(** The store invariant holds in every state the cache can be in. *)
Lemma reachable_store_inv m : reachable m -> store_inv m.
Proof.
  induction 1 as [m svc age Hnew | m op m' Hreach Hinv Hop |
                  m m' _ Hinv Hcache Htrace _].
  - intros k v. by rewrite Hnew.
  - apply reachable_shape in Hreach as [Hfree _].
    by eapply perform_store_inv.
  - intros k v. rewrite Hcache, Htrace. apply Hinv.
Qed.

End Whole.

(** ** The single-key operation and the constructor *)

Section SingleKey.

Context {Env : Type} `{Clock Env}.
Implicit Types (m : Machine Env) (k : string).

(** C1: when the store holds an entry for [k] whose age, at the clock
    reading of the call, is below [maxAge], [GetPriceFor k] returns the price
    of that entry and no error; the call consists of the map read and the
    clock reading only, so the service is not called and the cache is as it
    was.  Consequently, if such a call comes after a first call for [k] that
    returned a price, with nothing but time in between, it returns that same
    price, and both calls together called the service at most once (exactly
    once when the first call was a miss). *)
Theorem fresh_entry_served m k v :
  prices (cache m) !! k = Some v ->
  Sub (now_at m) (CreatedAt v) < maxAge (cache m) ->
  exists m',
    call_GetPriceFor k m = Some ((Price v, None), m') /\
    cache m' = cache m /\
    trace m' =
      trace m ++ [(Main, LLookup k (Some v)); (Main, LNow (now_at m))] /\
    invocations (trace m') = invocations (trace m) /\
    forall m0 price0 m1,
      call_GetPriceFor k m0 = Some ((price0, None), m1) ->
      cache m = cache m1 -> trace m = trace m1 ->
      Price v = price0 /\
      (invocations (trace m') <= invocations (trace m0) + 1)%nat /\
      (miss k m0 ->
       invocations (trace m') = (invocations (trace m0) + 1)%nat).
Proof.
  intros Hk Hage. exists (checked Main k m).
  split; [by apply call_hit |].
  split; [apply checked_cache |].
  split.
  { unfold checked, clock_read, looked_up. rewrite Hk. cbn.
    by rewrite <- app_assoc. }
  split; [apply checked_invocations |].
  intros m0 price0 m1 Hfirst Hcache Htrace.
  destruct (call_success _ _ _ _ Hfirst) as ((v1 & Hv1 & Hprice) & Hle & Heq).
  rewrite checked_invocations, Htrace.
  rewrite Hcache, Hv1 in Hk. by simplify_eq.
Qed.

(** C2: when the store has no entry for [k], or one whose age is [maxAge] or
    more, [GetPriceFor k] calls the service exactly once; when the service
    answers without an error, the call returns the price of the answer and no
    error, and the store is the old one with [k] bound to that price and the
    clock reading made at the write, whatever [k] was bound to before. *)
Theorem miss_fetches_and_stores m k :
  mutex (cache m) = false ->
  miss k m ->
  exists res m',
    call_GetPriceFor k m = Some (res, m') /\
    invocations (trace m') = (invocations (trace m) + 1)%nat /\
    In (Main, LService k (fst (answer k m)) (snd (answer k m))) (trace m') /\
    (snd (answer k m) = None ->
     res = (fst (answer k m), None) /\
     clock m <= clock m' /\
     prices (cache m') =
       <[k := {| Price := fst (answer k m); CreatedAt := clock m' |}]>
         (prices (cache m))).
Proof.
  intros Hfree Hmiss.
  destruct (call_returns m k Hfree) as (res & m' & Hcall).
  exists res, m'. split; [done |].
  destruct (miss_invocations _ _ _ _ Hmiss Hcall) as [Hcount Hin].
  split; [done |]. split; [done |]. intros Hok.
  rewrite (call_miss m k Hmiss), Hok, Hfree in Hcall. simplify_eq.
  split; [done |]. split.
  - rewrite remembered_clock.
    pose proof (now_at_ge (asked Main k (checked Main k m))).
    pose proof (checked_clock Main k m) as [? _].
    rewrite asked_clock in *. lia.
  - by rewrite remembered_prices, asked_cache, checked_cache.
Qed.

(** C3: when the call of the service made by [GetPriceFor k] fails with the
    message [err], [GetPriceFor k] returns the price zero and the error
    "getting price from service : " followed by [err]; the cache is as it
    was, so no entry was written and an old entry for [k] is still there.
    The next [GetPriceFor k] on that cache calls the service again. *)
Theorem failure_not_cached m k err :
  miss k m ->
  snd (answer k m) = Some err ->
  exists m',
    call_GetPriceFor k m =
      Some ((0%float, Some ("getting price from service : " +:+ err)%string),
            m') /\
    cache m' = cache m /\
    invocations (trace m') = (invocations (trace m) + 1)%nat /\
    forall m2,
      cache m2 = cache m' -> clock m' <= clock m2 ->
      mutex (cache m) = false ->
      exists res m3,
        call_GetPriceFor k m2 = Some (res, m3) /\
        invocations (trace m3) = (invocations (trace m2) + 1)%nat.
Proof.
  intros Hmiss Herr. exists (asked Main k (checked Main k m)).
  split; [by rewrite (call_miss m k Hmiss), Herr |].
  rewrite asked_cache, asked_clock, checked_cache.
  split; [done |].
  split; [by rewrite asked_invocations, checked_invocations |].
  intros m2 Hcache Hlater Hfree.
  assert (Hmiss2 : miss k m2).
  { unfold miss in *. rewrite Hcache.
    destruct (prices (cache m) !! k) as [v |] eqn:Hk; [| done].
    destruct (checked_clock Main k m) as [_ Hnow].
    rewrite Hnow in Hlater by (rewrite Hk; eauto).
    pose proof (now_at_ge m2). unfold Sub in *. lia. }
  destruct (call_returns m2 k) as (res & m3 & Hcall);
    [by rewrite Hcache |].
  exists res, m3. split; [done |].
  by apply (miss_invocations _ _ _ _ Hmiss2 Hcall).
Qed.

(** C9: [NewTransparentCache] returns a cache with an empty store (and a
    free lock, the given service and the given [maxAge]); it is a function of
    its two arguments alone.  The first [GetPriceFor k] on such a cache finds
    nothing and calls the service. *)
Theorem new_cache_is_empty (svc : PriceService Env) (age : Duration) :
  prices (NewTransparentCache svc age) = ∅ /\
  mutex (NewTransparentCache svc age) = false /\
  actualPriceService (NewTransparentCache svc age) = svc /\
  maxAge (NewTransparentCache svc age) = age /\
  forall m k,
    cache m = NewTransparentCache svc age ->
    exists res m',
      call_GetPriceFor k m = Some (res, m') /\
      invocations (trace m') = (invocations (trace m) + 1)%nat /\
      In (Main, LService k (fst (answer k m)) (snd (answer k m)))
         (trace m').
Proof.
  repeat split. intros m k Hnew.
  assert (Hmiss : miss k m) by (unfold miss; by rewrite Hnew).
  destruct (call_returns m k) as (res & m' & Hcall); [by rewrite Hnew |].
  exists res, m'. split; [done |].
  by apply (miss_invocations _ _ _ _ Hmiss Hcall).
Qed.

End SingleKey.

(** ** The batch operation *)

Section BatchClaims.

Context {Env : Type} `{Clock Env}.
Implicit Types (m : Machine Env) (code : string) (codes : list string)
  (sched : list nat).

(** X15: what a batch returns after a failure.  When the service has
    answered some goroutine of a batch with an error and [GetPricesFor]
    returns, it returns an error: the error of the first response, in the
    order in which the responses reached the channel, that carries one; with
    it come the prices of the responses before that one.  Every goroutine
    has run to its end and has delivered its response by then. *)
Theorem batch_failure sched codes m res err m' i k p e :
  mutex (cache m) = false ->
  call_GetPricesFor sched codes m = Some ((res, err), m') ->
  In (Worker i, LService k p (Some e)) (batch_events sched codes m) ->
  (exists before r after err',
     snd <$> deliveries sched codes m = before ++ r :: after /\
     Forall (fun r => Err r = None) before /\
     Err r = Some err' /\
     err = Some err' /\
     res = RespPrice <$> before) /\
  Forall (fun p => p = Ret tt) (fst (run_sched sched (launch codes m))) /\
  length (deliveries sched codes m) = length codes.
Proof.
  intros Hfree Hcall Hfailed.
  pose proof (call_batch_inv _ _ _ _ _ Hcall) as Hwg.
  pose proof (call_live _ _ _ _ _ Hcall) as Hlive.
  destruct (call_batch sched codes m Hfree Hwg Hlive)
    as (m1 & rcv & Hcall1 & _).
  assert (Hres : gather (snd <$> deliveries sched codes m) [] = (res, err))
    by (rewrite Hcall in Hcall1; congruence).
  destruct (batch_done sched codes m Hfree Hwg) as (Hfin & Hlen & _).
  pose proof (batch_inv sched codes m Hfree) as HInv.
  split; [| split; [done | done]].
  destruct (inv_fail _ _ _ _ _ HInv _ _ _ _ Hfailed)
    as (t & r0 & Ht & Ho & Hsome).
  assert (Hin : In r0 (snd <$> deliveries sched codes m)).
  { apply list_elem_of_In, list_elem_of_fmap. exists (i, r0).
    split; [done |]. apply list_elem_of_In, (inv_deliv _ _ _ _ _ HInv).
    exists t. split; [done |].
    pose proof (inv_wg _ _ _ _ _ HInv) as Hcount.
    rewrite run_sched_batch in Hwg. cbn [snd] in Hwg.
    rewrite Hwg in Hcount.
    assert (Hzero : count pending (fst (batch_tasks sched codes m)) = 0%nat)
      by lia.
    pose proof (count_zero pending _ i _ Hzero Ht) as Hend.
    destruct t as [code []]; cbn in *; by simplify_eq. }
  destruct (first_failure _ _ Hin Hsome)
    as (before & r & after & err' & Hsplit & Hall & Herr).
  exists before, r, after, err'. split; [done |].
  rewrite Hsplit, (gather_fail _ _ _ _ _ Hall Herr) in Hres.
  by simplify_eq.
Qed.

(** Splits a step of a goroutine into its cases. *)
Ltac step_cases Hnext :=
  match type of Hnext with
  | wnext _ _ ?st _ = _ => destruct st
  end;
  cbn -[Z.ltb Nat.ltb] in Hnext;
  repeat match type of Hnext with
         | context [match ?x with _ => _ end] => destruct x eqn:?
         end;
  simplify_eq.

(** While the service's prices do not change, every price that a goroutine
    of a batch has in hand, and every price in the store, is the price of
    its item code. *)
Lemma batch_priced price_of sched codes m :
  mutex (cache m) = false ->
  stable_prices (actualPriceService (cache m)) price_of ->
  store_priced m price_of ->
  store_priced (snd (batch_tasks sched codes m)) price_of /\
  Forall (priced price_of) (fst (batch_tasks sched codes m)).
Proof.
  intros Hfree Hsvc Hstore.
  induction sched as [| i sched IH] using rev_ind.
  - cbn. split; [done |]. apply Forall_fmap, Forall_forall. by intros code _.
  - pose proof (batch_inv sched codes m Hfree) as HInv.
    destruct IH as [Hstore1 Htasks].
    unfold batch_tasks in *. rewrite arun_app.
    destruct (arun (maxAge (cache m)) sched _) as [tasks m1] eqn:Hrun.
    cbn [fst snd arun fold_left] in *.
    unfold astep. cbn [fst snd].
    destruct (fatal m1); [done |].
    destruct (tasks !! i) as [[code st] |] eqn:Hi; [| done].
    cbn [t_code t_state].
    destruct (wfault st tasks); [done |].
    destruct (wnext (maxAge (cache m)) code st m1) as [[[st' l] m2] |]
      eqn:Hnext; [| done].
    cbn [fst snd].
    pose proof (Forall_lookup_1 _ _ _ _ Htasks Hi) as Hst.
    pose proof (inv_service _ _ _ _ _ HInv) as Hsame.
    assert (store_priced (log (Worker i) l m2) price_of /\
            priced price_of (Task code st')) as [Hstore2 Hst'].
    { unfold store_priced, priced in *. cbn [t_code t_state] in *.
      step_cases Hnext; cbn [cache log prices set_prices] in *;
        try (split; [done |]; try done; eauto; fail).
      - (* the service has answered without an error *)
        split; [done |]. rewrite Hsame in *. by apply Hsvc.
      - (* the entry is written *)
        split; [| done]. intros k v.
        destruct (decide (code = k)) as [-> | Hne].
        + rewrite lookup_insert_eq. by intros [= <-].
        + rewrite lookup_insert_ne by done. apply Hstore1. }
    split; [done |]. by apply Forall_insert.
Qed.

(** C5, amended: when the service answers no goroutine of a batch with an
    error and [GetPricesFor] returns, it returns no error and as many prices
    as there are item codes.  The prices are those of the responses in the
    order in which they reached the channel; there is exactly one response
    of each goroutine, and the response of goroutine [i] carries the result
    of its own [GetPriceFor] for the item code at position [i].  When the
    price of the service for an item code does not change and the store
    holds these prices, that result is the price that a [GetPriceFor] for
    the item code, called alone before the batch, returns. *)
Theorem batch_success sched codes m res err m' :
  mutex (cache m) = false ->
  call_GetPricesFor sched codes m = Some ((res, err), m') ->
  (forall g k p e,
     ~ In (g, LService k p (Some e)) (batch_events sched codes m)) ->
  err = None /\
  length res = length codes /\
  res = (fun d => RespPrice (snd d)) <$> deliveries sched codes m /\
  fst <$> deliveries sched codes m ≡ₚ seq 0 (length codes) /\
  (forall i r, In (i, r) (deliveries sched codes m) ->
     exists code ls,
       codes !! i = Some code /\
       Err r = None /\
       steps_of i (batch_events sched codes m) = ls ++ [LSend r; LDone] /\
       runs (GetPriceFor (maxAge (cache m)) code) ls
         (Ret (RespPrice r, None))) /\
  (forall price_of,
     stable_prices (actualPriceService (cache m)) price_of ->
     store_priced m price_of ->
     forall i r code price m1,
       In (i, r) (deliveries sched codes m) ->
       codes !! i = Some code ->
       call_GetPriceFor code m = Some ((price, None), m1) ->
       RespPrice r = price).
Proof.
  intros Hfree Hcall Hnofail.
  pose proof (call_batch_inv _ _ _ _ _ Hcall) as Hwg.
  pose proof (call_live _ _ _ _ _ Hcall) as Hlive.
  destruct (call_batch sched codes m Hfree Hwg Hlive)
    as (m1 & rcv & Hcall1 & _).
  assert (Hres : gather (snd <$> deliveries sched codes m) [] = (res, err))
    by (rewrite Hcall in Hcall1; congruence).
  destruct (batch_done sched codes m Hfree Hwg) as (Hfin & Hlen & _).
  pose proof (batch_inv sched codes m Hfree) as HInv.
  assert (Hok : forall i r, In (i, r) (deliveries sched codes m) ->
                            Err r = None).
  { intros i r Hin. apply (inv_deliv _ _ _ _ _ HInv) in Hin as (t & Ht & Hd).
    destruct (Err r) as [e |] eqn:Herr; [| done].
    destruct (inv_ok _ _ _ _ _ HInv _ _ _ _ Ht (delivered_outcome _ _ Hd) Herr)
      as (k & p & e' & Hin).
    by destruct (Hnofail _ _ _ _ Hin). }
  assert (Hall : Forall (fun r => Err r = None)
                   (snd <$> deliveries sched codes m)).
  { apply Forall_fmap, Forall_forall. intros [i r] Hin. cbn.
    by apply (Hok i), list_elem_of_In. }
  rewrite (gather_ok _ _ Hall) in Hres. simplify_eq. cbn [app].
  split; [done |].
  split; [by rewrite !length_fmap |].
  split; [by rewrite <- list_fmap_compose |].
  split; [| split].
  - apply submseteq_length_Permutation.
    + apply NoDup_submseteq; [apply (inv_nodup _ _ _ _ _ HInv) |].
      intros i Hi. apply list_elem_of_fmap in Hi as ([j r] & -> & Hin).
      apply list_elem_of_In, (inv_deliv _ _ _ _ _ HInv) in Hin
        as (t & Ht & _).
      apply elem_of_seq. apply lookup_lt_Some in Ht.
      rewrite <- (inv_codes _ _ _ _ _ HInv), length_fmap. cbn [fst].
      clear -Ht. lia.
    + rewrite length_seq, length_fmap. clear -Hlen. lia.
  - intros i r Hin.
    destruct (delivery_is_result _ _ _ _ _ Hfree Hwg Hin)
      as (code & ls & Hcode & Hsteps & Hruns).
    exists code, ls. rewrite (Hok _ _ Hin) in *. done.
  - intros price_of Hsvc Hstore i r code price m1 Hin Hcode Hsingle.
    destruct (batch_priced price_of sched codes m Hfree Hsvc Hstore)
      as [_ Htasks].
    pose proof (Hok _ _ Hin) as Hnone.
    apply (inv_deliv _ _ _ _ _ HInv) in Hin as (t & Ht & Hd).
    pose proof (Forall_lookup_1 _ _ _ _ Htasks Ht) as Hst.
    assert (Hcode' : t_code t = code).
    { rewrite <- (inv_codes _ _ _ _ _ HInv), list_lookup_fmap, Ht in Hcode.
      by injection Hcode. }
    assert (Hr : RespPrice r = price_of code).
    { rewrite <- Hcode'. destruct t as [code' st]. unfold priced in Hst.
      destruct st; cbn in *; simplify_eq; by apply Hst. }
    rewrite Hr.
    destruct (call_outcome _ _ _ _ Hsingle)
      as [(v & Hv & _ & Hres & _) | [(msg & _ & _ & Hres & _) |
          (_ & Hans & _ & Hres & _)]]; [| done |].
    + injection Hres as ->. symmetry. by apply Hstore.
    + injection Hres as ->. symmetry. by apply Hsvc.
Qed.

(** C7: for no item codes [GetPricesFor] returns no prices and no error,
    whatever the schedule.  No goroutine is launched, nothing is recorded in
    the history (so the service is not called), and the cache, the clock and
    the world are as before. *)
Theorem batch_empty sched m :
  fst (launch [] m) = [] /\
  exists m',
    call_GetPricesFor sched [] m = Some (([], None), m') /\
    cache m' = cache m /\
    trace m' = trace m /\
    invocations (trace m') = invocations (trace m) /\
    env m' = env m /\
    clock m' = clock m.
Proof.
  split; [done |].
  assert (Hidle : run_sched sched (launch [] m) = launch [] m).
  { induction sched as [| i sched IH]; [done |].
    change (run_sched (i :: sched) (launch [] m))
      with (run_sched sched (step i (launch [] m))).
    by change (step i (launch [] m)) with (launch [] m). }
  unfold call_GetPricesFor. rewrite Hidle. cbn.
  eexists. split; [done |]. done.
Qed.

(** C10: item codes that occur more than once are not merged.  There is a
    goroutine for each position of the input, which does the map read for the
    item code at its position, and a call that returns no error returns as
    many prices as the input is long.  Every schedule that has not run into
    a fatal error can be continued so that the call returns. *)
Theorem batch_keeps_duplicates sched codes m res m' :
  mutex (cache m) = false ->
  call_GetPricesFor sched codes m = Some ((res, None), m') ->
  length res = length codes /\
  fst (launch codes m) = worker (maxAge (cache m)) <$> codes /\
  (forall i code, codes !! i = Some code ->
     exists v ls,
       steps_of i (batch_events sched codes m) = LLookup code v :: ls) /\
  (forall sched0,
     fatal (snd (run_sched sched0 (launch codes m))) = None ->
     exists sched1 res1 m1,
       call_GetPricesFor (sched0 ++ sched1) codes m = Some (res1, m1)).
Proof.
  intros Hfree Hcall.
  pose proof (call_batch_inv _ _ _ _ _ Hcall) as Hwg.
  pose proof (call_live _ _ _ _ _ Hcall) as Hlive.
  destruct (call_batch sched codes m Hfree Hwg Hlive)
    as (m1 & rcv & Hcall1 & _).
  assert (Hres : gather (snd <$> deliveries sched codes m) [] = (res, None))
    by (rewrite Hcall in Hcall1; congruence).
  destruct (batch_done sched codes m Hfree Hwg) as (Hfin & Hlen & _).
  pose proof (gather_none _ _ _ Hres) as Hall.
  rewrite (gather_ok _ _ Hall) in Hres. simplify_eq. cbn [app].
  split; [by rewrite !length_fmap |].
  split; [done |].
  split; [| intros sched0 Hlive0; by apply batch_returns].
  intros i code Hcode.
  destruct (batch_hist sched codes m i code Hcode) as (p & Hp & Hruns).
  rewrite Forall_lookup in Hfin. rewrite (Hfin _ _ Hp) in Hruns.
  destruct (steps_of i (batch_events sched codes m)) as [| l ls]; [done |].
  cbn in Hruns. destruct Hruns as (v & -> & _). eauto.
Qed.

End BatchClaims.

(** ** The store *)

Section Store.

Context {Env : Type} `{Clock Env}.
Implicit Types (m : Machine Env) (op : operation).

(** C8: the store invariant.  Each operation, from a state in which no
    goroutine holds the lock, keeps it: an entry of the store after the
    operation either was there before, unchanged, or holds a price that the
    service returned for its item code, without an error, during the
    operation; every item code that had an entry still has one.  So, in every
    state the cache can be in, every entry holds a price returned by a call
    of the service that succeeded; none comes from a call that failed, and
    entries are written or overwritten but never deleted. *)
Theorem store_invariant op m m' :
  mutex (cache m) = false ->
  perform op m = Some m' ->
  (exists new,
     trace m' = trace m ++ new /\
     (forall k v, prices (cache m') !! k = Some v ->
        prices (cache m) !! k = Some v \/
        exists g, In (g, LService k (Price v) None) new) /\
     (forall k, is_Some (prices (cache m) !! k) ->
                is_Some (prices (cache m') !! k))) /\
  (store_inv m -> store_inv m') /\
  (forall m0, reachable m0 -> store_inv m0).
Proof.
  intros Hfree Hop.
  split; [by apply (perform_store op) |].
  split; [by apply (perform_store_inv op) |].
  apply reachable_store_inv.
Qed.

(** C6: with [maxAge] zero every [GetPriceFor k] calls the service, whatever
    the store holds: in every state the cache can be in, two calls in a row
    both return and call the service once each, twice in total. *)
Theorem maxAge_zero_refetches m (k : string) :
  maxAge (cache m) = 0 ->
  reachable m ->
  exists res1 m1 res2 m2,
    call_GetPriceFor k m = Some (res1, m1) /\
    invocations (trace m1) = (invocations (trace m) + 1)%nat /\
    call_GetPriceFor k m1 = Some (res2, m2) /\
    invocations (trace m2) = (invocations (trace m) + 2)%nat.
Proof.
  intros Hzero [Hfree Hpast]%reachable_shape.
  destruct (call_returns m k Hfree) as (res1 & m1 & Hcall1).
  destruct (call_keeps_shape _ _ _ _ Hcall1 Hpast)
    as (Hpast1 & _ & Hage1 & _ & Hfree1).
  rewrite Hzero in Hage1. rewrite Hfree in Hfree1.
  destruct (call_returns m1 k Hfree1) as (res2 & m2 & Hcall2).
  exists res1, m1, res2, m2.
  pose proof (maxAge_zero_miss m k Hzero Hpast) as Hmiss.
  pose proof (maxAge_zero_miss m1 k Hage1 Hpast1) as Hmiss1.
  destruct (miss_invocations _ _ _ _ Hmiss Hcall1) as [Hn1 _].
  destruct (miss_invocations _ _ _ _ Hmiss1 Hcall2) as [Hn2 _].
  repeat split; [done | done | done | lia].
Qed.

End Store.

(** * Further properties *)

(** ** [GetPriceFor] *)

Section MoreSingleKey.

Context {Env : Type} `{Clock Env}.
Implicit Types (m : Machine Env) (k : string).

(** A fresh entry and a miss exclude each other. *)
Lemma fresh_not_miss m k v :
  prices (cache m) !! k = Some v ->
  Sub (now_at m) (CreatedAt v) < maxAge (cache m) ->
  ~ miss k m.
Proof. unfold miss. intros -> Hage. lia. Qed.

(** With a [maxAge] of zero or less no entry is young enough. *)
Lemma maxAge_nonpos_miss m k :
  maxAge (cache m) <= 0 -> store_past m -> miss k m.
Proof.
  intros Hage Hpast. unfold miss.
  destruct (prices (cache m) !! k) as [v |] eqn:Hk; [| done].
  specialize (Hpast _ _ Hk). pose proof (now_at_ge m).
  unfold Sub. lia.
Qed.

(** X1: an error returned by [GetPriceFor] always comes from the service.
    When the call returns an error, the entry of [k] was absent or too old,
    the service was called once and answered with an error, the returned
    error is "getting price from service : " followed by the message of that
    answer, the returned price is zero and the cache is as it was. *)
Theorem error_comes_from_service m k price err m' :
  call_GetPriceFor k m = Some ((price, Some err), m') ->
  price = 0%float /\
  cache m' = cache m /\
  miss k m /\
  invocations (trace m') = (invocations (trace m) + 1)%nat /\
  exists msg,
    snd (answer k m) = Some msg /\
    err = ("getting price from service : " +:+ msg)%string.
Proof.
  intros Hcall.
  destruct (call_outcome _ _ _ _ Hcall)
    as [(v & _ & _ & Hres & _) | [(msg & Hmiss & Hmsg & Hres & ->) |
        (_ & _ & _ & Hres & _)]]; [done | | done].
  simplify_eq. rewrite asked_cache, checked_cache.
  rewrite asked_invocations, checked_invocations. eauto 10.
Qed.

(** What a call leaves alone. *)
Lemma call_frame m k res m' :
  call_GetPriceFor k m = Some (res, m') ->
  (forall k', k' <> k ->
     prices (cache m') !! k' = prices (cache m) !! k') /\
  maxAge (cache m') = maxAge (cache m) /\
  actualPriceService (cache m') = actualPriceService (cache m) /\
  mutex (cache m') = mutex (cache m) /\
  output m' = output m /\
  wg m' = wg m.
Proof.
  intros Hcall.
  assert (Hout : forall g, output (checked g k m) = output m /\
                           wg (checked g k m) = wg m).
  { intros g. unfold checked. by destruct (prices (cache m) !! k). }
  destruct (Hout Main) as [Ho Hw].
  destruct (call_outcome _ _ _ _ Hcall)
    as [(v & _ & _ & _ & ->) | [(msg & _ & _ & _ & ->) |
        (_ & _ & Hfree & _ & ->)]].
  - by rewrite checked_cache.
  - by rewrite asked_cache, checked_cache.
  - split.
    + intros k' Hne. rewrite remembered_prices, asked_cache, checked_cache.
      by rewrite lookup_insert_ne.
    + cbn. by rewrite checked_cache, Hfree.
Qed.

(** X2: [GetPriceFor k] touches nothing but the entry of [k]: the entries
    of all other item codes, [maxAge], the service, the state of the lock
    and the channel and wait group of a batch are after the call what they
    were before. *)
Theorem other_entries_untouched m k res m' :
  call_GetPriceFor k m = Some (res, m') ->
  (forall k', k' <> k ->
     prices (cache m') !! k' = prices (cache m) !! k') /\
  maxAge (cache m') = maxAge (cache m) /\
  actualPriceService (cache m') = actualPriceService (cache m) /\
  mutex (cache m') = mutex (cache m) /\
  output m' = output m /\
  wg m' = wg m.
Proof. apply call_frame. Qed.

(** X4: an overwrite never makes an entry older.  From a state whose time
    stamps are not later than the clock, the time stamp of every entry after
    [GetPriceFor] is at least what it was before, and again not later than
    the clock. *)
Theorem stamps_never_decrease m k res m' :
  store_past m ->
  call_GetPriceFor k m = Some (res, m') ->
  store_past m' /\
  clock m <= clock m' /\
  forall k' v v',
    prices (cache m) !! k' = Some v ->
    prices (cache m') !! k' = Some v' ->
    CreatedAt v <= CreatedAt v'.
Proof.
  intros Hpast Hcall.
  destruct (call_keeps_shape _ _ _ _ Hcall Hpast) as (Hpast' & Hlater & _).
  split; [done |]. split; [done |].
  intros k' v v' Hv Hv'.
  destruct (decide (k' = k)) as [-> | Hne].
  - destruct (call_outcome _ _ _ _ Hcall)
      as [(v0 & _ & _ & _ & ->) | [(msg & _ & _ & _ & ->) |
          (_ & _ & _ & _ & ->)]].
    + rewrite checked_cache in Hv'. by simplify_eq.
    + rewrite asked_cache, checked_cache in Hv'. by simplify_eq.
    + rewrite remembered_prices, lookup_insert_eq in Hv'. simplify_eq.
      cbn [CreatedAt]. rewrite remembered_clock.
      pose proof (now_at_ge (asked Main k (checked Main k m))).
      pose proof (checked_clock Main k m) as [? _].
      specialize (Hpast _ _ Hv). rewrite asked_clock in *. lia.
  - destruct (call_frame _ _ _ _ Hcall) as (Hframe & _).
    rewrite (Hframe _ Hne), Hv in Hv'. by simplify_eq.
Qed.

(** X5: a [maxAge] of zero or less switches the cache off.  In every state
    the cache can be in, [GetPriceFor k] then calls the service, once, whether
    or not the store has an entry for [k]. *)
Theorem nonpositive_maxAge_always_fetches m k :
  maxAge (cache m) <= 0 ->
  reachable m ->
  exists res m',
    call_GetPriceFor k m = Some (res, m') /\
    invocations (trace m') = (invocations (trace m) + 1)%nat /\
    In (Main, LService k (fst (answer k m)) (snd (answer k m))) (trace m').
Proof.
  intros Hage [Hfree Hpast]%reachable_shape.
  destruct (call_returns m k Hfree) as (res & m' & Hcall).
  exists res, m'. split; [done |].
  apply (miss_invocations _ _ _ _ (maxAge_nonpos_miss m k Hage Hpast) Hcall).
Qed.

(** X6: between two operations the cache is well formed.  In every state
    reached from [NewTransparentCache] by the two operations, with time going
    by, the lock is free and no time stamp is later than the clock; so
    [GetPriceFor] returns for every item code, and the goroutines of a
    [GetPricesFor] never block each other for ever: every schedule that has
    not run into a fatal error can be continued so that the call returns. *)
Theorem reachable_well_formed m :
  reachable m ->
  mutex (cache m) = false /\
  store_past m /\
  (forall k, exists res m', call_GetPriceFor k m = Some (res, m')) /\
  (forall codes sched,
     fatal (snd (run_sched sched (launch codes m))) = None ->
     exists sched' res m',
       call_GetPricesFor (sched ++ sched') codes m = Some (res, m')).
Proof.
  intros [Hfree Hpast]%reachable_shape.
  split; [done |]. split; [done |]. split.
  - intros k. by apply call_returns.
  - intros codes sched Hlive. by apply batch_returns.
Qed.

End MoreSingleKey.

(** ** [GetPricesFor] *)

Section MoreBatch.

Context {Env : Type} `{Clock Env}.
Implicit Types (m : Machine Env) (k code : string) (tr new : list event)
  (st : wstate) (tasks : list task) (codes : list string) (a : Duration)
  (sched : list nat).

(** Splits a step of a goroutine into its cases. *)
Ltac wcases Hnext :=
  match type of Hnext with
  | wnext _ _ ?st _ = _ => destruct st
  end;
  cbn -[Z.ltb Nat.ltb] in Hnext;
  repeat match type of Hnext with
         | context [match ?x with _ => _ end] => destruct x eqn:?
         end;
  simplify_eq.

Lemma lock_discipline_snoc holder tr e :
  lock_discipline holder (tr ++ [e]) =
  match lock_discipline holder tr with
  | Some holder' => lock_step holder' e
  | None => None
  end.
Proof.
  revert holder. induction tr as [| e0 tr IH]; intros holder; cbn.
  - by destruct (lock_step holder e).
  - destruct (lock_step holder e0); [apply IH | done].
Qed.

Lemma invocations_for_app k tr1 tr2 :
  invocations_for k (tr1 ++ tr2) =
  (invocations_for k tr1 + invocations_for k tr2)%nat.
Proof. unfold invocations_for. by rewrite List.filter_app, length_app. Qed.

Lemma count_mono {A} (f g : A -> bool) (l : list A) :
  (forall x, f x = true -> g x = true) -> (count f l <= count g l)%nat.
Proof.
  intros Hfg. induction l as [| x l IH]; [done |].
  rewrite !count_cons. specialize (Hfg x).
  destruct (f x), (g x); cbn; first [lia | by specialize (Hfg eq_refl)].
Qed.

Lemma count_fmap {A B} (f : B -> bool) (g : A -> B) (l : list A) :
  count f (g <$> l) = count (fun x => f (g x)) l.
Proof.
  induction l as [| x l IH]; [done |]. cbn [fmap list_fmap].
  rewrite !count_cons. fold (fmap g l). by rewrite IH.
Qed.

(** A step that does not change whether its goroutine holds the lock does
    not change who the holder is. *)
Lemma holder_ok_keep holder tasks i t t' :
  tasks !! i = Some t ->
  holds t' = holds t ->
  holder_ok holder tasks ->
  holder_ok holder (<[i := t']> tasks).
Proof.
  intros Hi Hsame Hok.
  pose proof (lookup_lt_Some _ _ _ Hi) as Hlt.
  assert (Hget : forall j u, <[i := t']> tasks !! j = Some u ->
            exists u0, tasks !! j = Some u0 /\ holds u0 = holds u).
  { intros j u. destruct (decide (j = i)) as [-> | Hne].
    - rewrite list_lookup_insert_eq by done. intros [= <-]. eauto.
    - rewrite list_lookup_insert_ne by done. eauto. }
  destruct holder as [g |]; cbn in *.
  - destruct Hok as (j & -> & (t0 & Ht0 & Hh0) & Huniq).
    exists j. split; [done |]. split.
    + destruct (decide (j = i)) as [-> | Hne].
      * rewrite list_lookup_insert_eq by done. simplify_eq.
        exists t'. by rewrite Hsame.
      * rewrite list_lookup_insert_ne by done. eauto.
    + intros j' u Hu Hhu. destruct (Hget _ _ Hu) as (u0 & Hu0 & Heq).
      apply (Huniq _ _ Hu0). congruence.
  - intros j u Hu. destruct (Hget _ _ Hu) as (u0 & Hu0 & <-). eauto.
Qed.

(** While the lock is free the history names no holder, and conversely. *)
Lemma holder_free m0 codes tasks m new holder :
  Inv m0 codes tasks m new ->
  holder_ok holder tasks ->
  (holder = None <-> mutex (cache m) = false).
Proof.
  intros HInv Hok. pose proof (inv_lock _ _ _ _ _ HInv) as Hlock.
  split.
  - intros ->. cbn in Hok. rewrite count_none in Hlock.
    + by destruct (mutex (cache m)).
    + intros t [j Hj]%list_elem_of_In%list_elem_of_lookup. eauto.
  - intros Hfree. rewrite Hfree in Hlock.
    destruct holder as [g |]; [| done].
    destruct Hok as (j & _ & (t & Ht & Hh) & _).
    by rewrite (count_zero holds tasks j t Hlock Ht) in Hh.
Qed.

Lemma wnext_inv2 a m0 codes tasks m new i code st st' l m' :
  Inv m0 codes tasks m new ->
  Inv2 m0 codes tasks m new ->
  tasks !! i = Some (Task code st) ->
  wnext a code st m = Some (st', l, m') ->
  Inv2 m0 codes (<[i := Task code st']> tasks) (log (Worker i) l m')
    (new ++ [(Worker i, l)]).
Proof.
  intros HInv [Hdisc Hcalls Hall Hsteps Hframe Herr Hpresent] Hi Hnext.
  pose proof (lookup_lt_Some _ _ _ Hi) as Hlt.
  assert (Hgrow : forall k, is_Some (prices (cache m) !! k) ->
                            is_Some (prices (cache m') !! k)).
  { intros k Hk. wcases Hnext; cbn; try done.
    destruct (decide (code = k)) as [-> | Hne].
    - by rewrite lookup_insert_eq.
    - by rewrite lookup_insert_ne. }
  split.
  - (* the lock discipline *)
    destruct Hdisc as (holder & Hld & Hok).
    pose proof (holder_free _ _ _ _ _ _ HInv Hok) as Hfree.
    rewrite lock_discipline_snoc, Hld.
    wcases Hnext; cbn [lock_step snd fst];
      try (exists holder; split; [done |];
           by apply (holder_ok_keep _ _ _ _ _ Hi)).
    + (* Lock *)
      assert (holder = None) as -> by (by apply Hfree).
      exists (Some (Worker i)). split; [done |]. cbn in Hok |- *.
      exists i. split; [done |]. split.
      * rewrite list_lookup_insert_eq by done. eauto.
      * intros j t Ht Hh. destruct (decide (j = i)) as [| Hne]; [done |].
        rewrite list_lookup_insert_ne in Ht by done.
        by rewrite (Hok _ _ Ht) in Hh.
    + (* the map write begins *)
      destruct holder as [g |]; cbn in Hok.
      * destruct Hok as (j & -> & Hj & Huniq).
        rewrite <- (Huniq _ _ Hi eq_refl). rewrite decide_True by done.
        eexists. split; [done |].
        apply (holder_ok_keep _ _ _ _ _ Hi); [done |].
        cbn. exists j. by rewrite (Huniq _ _ Hi eq_refl).
      * by specialize (Hok _ _ Hi).
    + (* the map write ends *)
      destruct holder as [g |]; cbn in Hok.
      * destruct Hok as (j & -> & Hj & Huniq).
        rewrite <- (Huniq _ _ Hi eq_refl). rewrite decide_True by done.
        eexists. split; [done |].
        apply (holder_ok_keep _ _ _ _ _ Hi); [done |].
        cbn. exists j. by rewrite (Huniq _ _ Hi eq_refl).
      * by specialize (Hok _ _ Hi).
    + (* Unlock *)
      destruct holder as [g |]; cbn in Hok.
      * destruct Hok as (j & -> & Hj & Huniq).
        rewrite <- (Huniq _ _ Hi eq_refl). rewrite decide_True by done.
        exists None. split; [done |]. cbn.
        intros j' t Ht. destruct (decide (j' = i)) as [-> | Hne].
        -- rewrite list_lookup_insert_eq in Ht by done. by simplify_eq.
        -- rewrite list_lookup_insert_ne in Ht by done.
           destruct (holds t) eqn:Hh; [| done].
           pose proof (Huniq _ _ Ht Hh). pose proof (Huniq _ _ Hi eq_refl).
           congruence.
      * by specialize (Hok _ _ Hi).
  - (* calls of the service *)
    intros k. specialize (Hcalls k).
    pose proof (count_insert
      (fun t => String.eqb k (t_code t) && past_fetch t) tasks i _
      (Task code st') Hi) as Hc.
    rewrite invocations_for_app.
    assert (Hstep :
      (invocations_for k [(Worker i, l)] +
       Nat.b2n (String.eqb k code && past_fetch (Task code st)) <=
       Nat.b2n (String.eqb k code && past_fetch (Task code st')))%nat).
    { wcases Hnext; unfold invocations_for; cbn;
        destruct (String.eqb k code); cbn; lia. }
    cbn [t_code] in Hc. clear -Hcalls Hc Hstep. lia.
  - pose proof (count_insert past_fetch tasks i _ (Task code st') Hi) as Hc.
    rewrite invocations_app.
    assert (Hstep :
      (invocations [(Worker i, l)] + Nat.b2n (past_fetch (Task code st)) <=
       Nat.b2n (past_fetch (Task code st')))%nat).
    { wcases Hnext; unfold invocations; cbn; lia. }
    clear -Hall Hc Hstep. lia.
  - (* steps *)
    pose proof (total_insert tasks i _ (Task code st') Hi).
    pose proof (wnext_weight _ _ _ _ _ _ _ Hnext).
    rewrite length_app, length_insert. cbn. lia.
  - (* other item codes *)
    intros k Hk. rewrite <- (Hframe k Hk).
    assert (Hcode : In code codes).
    { rewrite <- (inv_codes _ _ _ _ _ HInv).
      apply list_elem_of_In, list_elem_of_fmap. exists (Task code st).
      split; [done |]. by eapply list_elem_of_lookup_2. }
    wcases Hnext; cbn; try done.
    rewrite lookup_insert_ne; [done |]. by intros ->.
  - (* errors *)
    intros j t r e Ht Ho He.
    destruct (decide (j = i)) as [-> | Hne].
    + rewrite list_lookup_insert_eq in Ht by done. simplify_eq.
      cbn [t_code].
      wcases Hnext; cbn in *; simplify_eq; cbn in *; simplify_eq.
      * eexists _, _. split; [| done]. apply in_app_iff. right. by left.
      * destruct (Herr _ _ _ _ Hi eq_refl He) as (p & msg & Hin & ->).
        exists p, msg. split; [| done]. apply in_app_iff. by left.
      * destruct (Herr _ _ _ _ Hi eq_refl He) as (p & msg & Hin & ->).
        exists p, msg. split; [| done]. apply in_app_iff. by left.
    + rewrite list_lookup_insert_ne in Ht by done.
      destruct (Herr _ _ _ _ Ht Ho He) as (p & msg & Hin & ->).
      exists p, msg. split; [| done]. apply in_app_iff. by left.
  - (* entries *)
    intros j t Ht Hexp. cbn [cache log].
    destruct (decide (j = i)) as [-> | Hne].
    + rewrite list_lookup_insert_eq in Ht by done. simplify_eq.
      cbn [t_code].
      wcases Hnext; cbn in *; try done;
        try (by apply (Hpresent _ _ Hi)).
      by rewrite lookup_insert_eq.
    + rewrite list_lookup_insert_ne in Ht by done.
      apply Hgrow. eauto.
Qed.

Lemma total_start codes :
  total ((fun code => Task code WStart) <$> codes) = (10 * length codes)%nat.
Proof.
  induction codes as [| code codes IH]; [done |].
  change (total ((fun code => Task code WStart) <$> code :: codes))
    with (10 + total ((fun code => Task code WStart) <$> codes))%nat.
  rewrite IH. cbn [length]. lia.
Qed.

Lemma launch_inv2 codes m :
  Inv2 m codes ((fun code => Task code WStart) <$> codes)
    (snd (launch codes m)) [].
Proof.
  assert (Hstart : forall i t,
            ((fun code => Task code WStart) <$> codes) !! i = Some t ->
            t_state t = WStart).
  { intros i t (code & -> & _)%list_lookup_fmap_Some. done. }
  split; try done.
  - exists None. split; [done |]. cbn. intros j t Ht.
    unfold holds. by rewrite (Hstart _ _ Ht).
  - intros k. unfold invocations_for. cbn. lia.
  - unfold invocations. cbn. lia.
  - rewrite total_start, length_fmap. cbn [length]. lia.
  - intros i t r e Ht. unfold outcome. by rewrite (Hstart _ _ Ht).
  - intros i t Ht. unfold expects_entry. by rewrite (Hstart _ _ Ht).
Qed.

Lemma inv2_set_fatal m0 codes tasks m new f :
  Inv2 m0 codes tasks m new -> Inv2 m0 codes tasks (set_fatal f m) new.
Proof. intros []. by split. Qed.

Lemma arun_inv2 a m0 codes sched tasks m new :
  Inv m0 codes tasks m new ->
  Inv2 m0 codes tasks m new ->
  exists more,
    Inv m0 codes (fst (arun a sched (tasks, m)))
      (snd (arun a sched (tasks, m))) (new ++ more) /\
    Inv2 m0 codes (fst (arun a sched (tasks, m)))
      (snd (arun a sched (tasks, m))) (new ++ more).
Proof.
  revert tasks m new.
  induction sched as [| i sched IH]; intros tasks m new HInv HInv2.
  - exists []. by rewrite app_nil_r.
  - cbn.
    assert (exists more1,
      Inv m0 codes (fst (astep a i (tasks, m))) (snd (astep a i (tasks, m)))
        (new ++ more1) /\
      Inv2 m0 codes (fst (astep a i (tasks, m))) (snd (astep a i (tasks, m)))
        (new ++ more1)) as (more1 & HInv1 & HInv21).
    { unfold astep. cbn [fst snd].
      destruct (fatal m); [exists []; by rewrite app_nil_r |].
      destruct (tasks !! i) as [[code st] |] eqn:Hi;
        [| exists []; by rewrite app_nil_r].
      cbn [t_code t_state].
      destruct (wfault st tasks) as [msg |].
      { exists []. rewrite app_nil_r.
        split; [by apply inv_set_fatal | by apply inv2_set_fatal]. }
      destruct (wnext a code st m) as [[[st' l] m'] |] eqn:Hnext;
        [| exists []; by rewrite app_nil_r].
      exists [(Worker i, l)]. split.
      - by eapply wnext_inv.
      - by eapply wnext_inv2. }
    destruct (astep a i (tasks, m)) as [tasks1 m1].
    destruct (IH _ _ _ HInv1 HInv21) as (more2 & HInv2' & HInv22).
    exists (more1 ++ more2). by rewrite app_assoc.
Qed.

Lemma batch_inv2 sched codes m :
  mutex (cache m) = false ->
  Inv2 m codes (fst (batch_tasks sched codes m))
    (snd (batch_tasks sched codes m)) (batch_events sched codes m).
Proof.
  intros Hfree. unfold batch_events. rewrite run_sched_batch. cbn [snd].
  destruct (arun_inv2 (maxAge (cache m)) m codes sched _ _ []
              (launch_inv codes m Hfree) (launch_inv2 codes m))
    as (more & HInv & HInv2).
  fold (batch_tasks sched codes m) in HInv, HInv2. cbn [app] in *.
  by rewrite (inv_trace _ _ _ _ _ HInv), drop_app_length.
Qed.

(** A goroutine that has a step left and cannot take it waits for the
    lock. *)
Lemma wnext_none a m0 codes tasks m new i code st :
  Inv m0 codes tasks m new ->
  tasks !! i = Some (Task code st) ->
  wnext a code st m = None ->
  (exists r, st = WEnd r) \/
  (exists p, st = WLock p /\ mutex (cache m) = true).
Proof.
  intros HInv Hi Hnone.
  pose proof (inv_lock _ _ _ _ _ HInv) as Hlock.
  destruct st; cbn -[Z.ltb Nat.ltb] in Hnone; try done.
  - right. destruct (mutex (cache m)); [eauto | done].
  - (* Unlock: the goroutine holds the lock *)
    destruct (mutex (cache m)); [done |].
    by pose proof (count_zero holds tasks i _ Hlock Hi).
  - (* the channel has room *)
    rewrite (inv_open _ _ _ _ _ HInv) in Hnone.
    assert ((length (buf (output m)) <? cap (output m))%nat = true) as Hroom.
    { apply Nat.ltb_lt.
      rewrite (inv_buf _ _ _ _ _ HInv), (inv_cap _ _ _ _ _ HInv).
      rewrite length_fmap, (inv_sent _ _ _ _ _ HInv).
      by apply (count_lt _ _ _ _ Hi). }
    by rewrite Hroom in Hnone.
  - (* the counter is positive *)
    assert ((0 <? wg m) = true) as Hpos.
    { apply Z.ltb_lt. rewrite (inv_wg _ _ _ _ _ HInv).
      pose proof (count_lt (fun t => negb (pending t)) tasks i _ Hi eq_refl).
      pose proof (count_le (fun t => negb (pending t)) tasks).
      destruct (count pending tasks) eqn:Hc; [| lia].
      by pose proof (count_zero pending tasks i _ Hc Hi). }
    by rewrite Hpos in Hnone.
  - eauto.
Qed.

Lemma gather_some rs results res err :
  gather rs results = (res, Some err) ->
  exists before r after,
    rs = before ++ r :: after /\
    Forall (fun r => Err r = None) before /\
    Err r = Some err /\
    res = results ++ (RespPrice <$> before).
Proof.
  revert results. induction rs as [| r rs IH]; intros results; cbn; [done |].
  destruct (Err r) as [e |] eqn:He.
  - intros [= <- <-]. exists [], r, rs. by rewrite app_nil_r.
  - intros Hg.
    destruct (IH _ Hg) as (before & r1 & after & -> & Hall & Hr1 & ->).
    exists (r :: before), r1, after.
    split; [done |]. split; [by constructor |]. split; [done |].
    by rewrite <- app_assoc.
Qed.

(** What a returning batch computed, in one place. *)
Lemma batch_result sched codes m res err m' :
  mutex (cache m) = false ->
  call_GetPricesFor sched codes m = Some ((res, err), m') ->
  gather (snd <$> deliveries sched codes m) [] = (res, err) /\
  cache m' = cache (snd (batch_tasks sched codes m)) /\
  count pending (fst (batch_tasks sched codes m)) = 0%nat /\
  length (deliveries sched codes m) = length codes.
Proof.
  intros Hfree Hcall.
  pose proof (call_batch_inv _ _ _ _ _ Hcall) as Hwg.
  pose proof (call_live _ _ _ _ _ Hcall) as Hlive.
  destruct (call_batch sched codes m Hfree Hwg Hlive)
    as (m1 & rcv & Hcall1 & Hcache & _).
  destruct (batch_done sched codes m Hfree Hwg) as (_ & Hlen & _).
  pose proof (batch_inv sched codes m Hfree) as HInv.
  rewrite run_sched_batch in Hcache, Hwg. cbn [snd] in *.
  rewrite (inv_wg _ _ _ _ _ HInv) in Hwg.
  rewrite Hcall in Hcall1. simplify_eq.
  repeat split; [done | done | lia | done].
Qed.

(** X7: the map is written under the lock only.  At every moment of every
    schedule of a batch, the history obeys the lock discipline: [Lock] is
    taken only while nobody holds the lock, and [Unlock] and every map write
    are done by the goroutine that holds it; the history names no holder
    exactly when the lock is free. *)
Theorem writes_under_lock sched codes m :
  mutex (cache m) = false ->
  exists holder,
    lock_discipline None (batch_events sched codes m) = Some holder /\
    (holder = None <->
     mutex (cache (snd (run_sched sched (launch codes m)))) = false).
Proof.
  intros Hfree.
  destruct (i2_lock _ _ _ _ _ (batch_inv2 sched codes m Hfree))
    as (holder & Hld & Hok).
  exists holder. split; [done |].
  rewrite run_sched_batch. cbn [snd].
  by apply (holder_free _ _ _ _ _ _ (batch_inv sched codes m Hfree)).
Qed.

(** X8: in a batch only the lock makes a goroutine wait, and only a map
    read during a map write stops the process.  At every moment of every
    schedule, a goroutine that has a step to take and cannot take it is
    about to lock a lock that is held: no send finds the channel full or
    closed, no [Done] makes the counter negative and no [Unlock] finds the
    lock free.  A goroutine whose next step would raise a fatal error is
    about to read the map while another goroutine, which holds the lock, is
    writing it; two writes never overlap.  So the fatal error that has
    stopped a batch, if any, is [concurrent map read and map write]. *)
Theorem only_the_lock_blocks sched codes m :
  mutex (cache m) = false ->
  (forall i p,
     fst (run_sched sched (launch codes m)) !! i = Some p ->
     stuck (Worker i) p (snd (run_sched sched (launch codes m))) = true ->
     at_lock p = true /\
     mutex (cache (snd (run_sched sched (launch codes m)))) = true) /\
  (forall i p msg,
     fst (run_sched sched (launch codes m)) !! i = Some p ->
     fault_of p (fst (run_sched sched (launch codes m))) = Some msg ->
     at_read p = true /\
     msg = "concurrent map read and map write"%string /\
     mutex (cache (snd (run_sched sched (launch codes m)))) = true) /\
  (forall msg,
     fatal (snd (run_sched sched (launch codes m))) = Some msg ->
     msg = "concurrent map read and map write"%string /\
     mutex (cache (snd (run_sched sched (launch codes m)))) = true).
Proof.
  intros Hfree. rewrite run_sched_batch. cbn [fst snd].
  pose proof (batch_inv sched codes m Hfree) as HInv.
  split; [| split].
  - destruct (batch_tasks sched codes m) as [tasks m1]. cbn [fst snd] in *.
    intros i p ([code st] & -> & Hi)%list_lookup_fmap_Some Hstuck.
    assert (Hnone : wnext (maxAge (cache m)) code st m1 = None).
    { destruct st; cbn -[Z.ltb Nat.ltb] in Hstuck |- *;
        unfold exec in Hstuck; cbn -[Z.ltb Nat.ltb] in Hstuck;
        repeat case_match; done. }
    destruct (wnext_none _ _ _ _ _ _ _ _ _ HInv Hi Hnone)
      as [[r ->] | (price & -> & Hheld)]; [done |].
    done.
  - destruct (batch_tasks sched codes m) as [tasks m1]. cbn [fst snd] in *.
    intros i p msg ([code st] & -> & Hi)%list_lookup_fmap_Some Hfault.
    assert (Hw : wfault st tasks = Some msg).
    { destruct st; cbn -[existsb] in Hfault |- *; try done;
        by rewrite existsb_prog_of in Hfault. }
    destruct (inv_no_concurrent_writes _ _ _ _ _ _ _ HInv Hi _ Hw)
      as [Hst ->].
    cbn in Hst. subst st. split; [done |]. split; [done |].
    cbn in Hw. destruct (existsb in_write tasks) eqn:Hex; [| done].
    pose proof (inv_lock _ _ _ _ _ HInv) as Hlock.
    destruct (mutex (cache m1)); [done |].
    by rewrite (no_writer _ Hlock) in Hex.
  - intros msg Hmsg. by apply batch_fatal.
Qed.

(** X9: a batch does a bounded amount of work.  Under every schedule the
    service is called, for each item code, at most as often as the code
    occurs in the input, hence at most once per goroutine in total, and not
    at all for other codes; and the goroutines take, all together, at most
    ten steps for each item code, the two steps of the map write
    included. *)
Theorem batch_work_bounded sched codes m :
  mutex (cache m) = false ->
  (forall k,
     (invocations_for k (batch_events sched codes m) <=
      occurrences k codes)%nat) /\
  (invocations (batch_events sched codes m) <= length codes)%nat /\
  (length (batch_events sched codes m) <= 10 * length codes)%nat.
Proof.
  intros Hfree.
  pose proof (batch_inv sched codes m Hfree) as HInv.
  pose proof (batch_inv2 sched codes m Hfree) as HInv2.
  pose proof (inv_codes _ _ _ _ _ HInv) as Hcodes.
  assert (Hlen : length (fst (batch_tasks sched codes m)) = length codes).
  { pose proof (length_fmap t_code (fst (batch_tasks sched codes m))) as E.
    by rewrite Hcodes in E. }
  split; [| split].
  - intros k. etrans; [apply (i2_calls _ _ _ _ _ HInv2) |].
    assert (Hocc : occurrences k codes =
      count (fun t => String.eqb k (t_code t))
        (fst (batch_tasks sched codes m))).
    { pose proof (count_fmap (String.eqb k) t_code
                    (fst (batch_tasks sched codes m))) as E.
      by rewrite Hcodes in E. }
    rewrite Hocc. apply count_mono.
    intros t. by intros [? _]%andb_prop.
  - etrans; [apply (i2_all_calls _ _ _ _ _ HInv2) |].
    rewrite <- Hlen. apply count_le.
  - pose proof (i2_steps _ _ _ _ _ HInv2). lia.
Qed.

(** X10: a batch touches only the entries of its item codes.  When
    [GetPricesFor] returns, the entry of every item code that is not in the
    input is what it was, and so are [maxAge] and the service. *)
Theorem batch_other_entries_untouched sched codes m res m' :
  mutex (cache m) = false ->
  call_GetPricesFor sched codes m = Some (res, m') ->
  (forall k, ~ In k codes ->
     prices (cache m') !! k = prices (cache m) !! k) /\
  maxAge (cache m') = maxAge (cache m) /\
  actualPriceService (cache m') = actualPriceService (cache m).
Proof.
  intros Hfree Hcall. destruct res as [res err].
  destruct (batch_result _ _ _ _ _ _ Hfree Hcall) as (_ & -> & _).
  pose proof (batch_inv sched codes m Hfree) as HInv.
  pose proof (batch_inv2 sched codes m Hfree) as HInv2.
  split; [apply (i2_frame _ _ _ _ _ HInv2) |].
  split; [apply (inv_maxAge _ _ _ _ _ HInv) |
          apply (inv_service _ _ _ _ _ HInv)].
Qed.

(** X11: the error of a batch and the number of its prices.  When
    [GetPricesFor] returns, it returns no error exactly when it returns as
    many prices as there are item codes, and fewer prices otherwise.  An
    error it returns is "getting price from service : " followed by the
    message with which the service answered one of its goroutines, for the
    item code of that goroutine. *)
Theorem batch_error_shape sched codes m res err m' :
  mutex (cache m) = false ->
  call_GetPricesFor sched codes m = Some ((res, err), m') ->
  (err = None <-> length res = length codes) /\
  (length res <= length codes)%nat /\
  forall e, err = Some e ->
    exists i code price msg,
      codes !! i = Some code /\
      In (Worker i, LService code price (Some msg))
         (batch_events sched codes m) /\
      e = ("getting price from service : " +:+ msg)%string.
Proof.
  intros Hfree Hcall.
  destruct (batch_result _ _ _ _ _ _ Hfree Hcall) as (Hres & _ & Hdone & Hlen).
  pose proof (batch_inv sched codes m Hfree) as HInv.
  pose proof (batch_inv2 sched codes m Hfree) as HInv2.
  destruct err as [e |].
  - destruct (gather_some _ _ _ _ Hres)
      as (before & r & after & Hsplit & _ & Hr & ->).
    assert (Hshort : (length (RespPrice <$> before) < length codes)%nat).
    { rewrite <- Hlen, <- (length_fmap snd), Hsplit.
      rewrite length_fmap, length_app. cbn. lia. }
    cbn [app]. split; [split; [done | lia] |]. split; [lia |].
    intros ? [= <-].
    assert (Hin : r ∈ snd <$> deliveries sched codes m).
    { rewrite Hsplit. apply elem_of_app. right. by left. }
    apply list_elem_of_fmap in Hin as ([i r'] & -> & Hin).
    apply list_elem_of_In, (inv_deliv _ _ _ _ _ HInv) in Hin
      as (t & Ht & Hd).
    destruct (i2_err _ _ _ _ _ HInv2 _ _ _ _ Ht (delivered_outcome _ _ Hd) Hr)
      as (price & msg & Hev & ->).
    exists i, (t_code t), price, msg. split; [| done].
    by rewrite <- (inv_codes _ _ _ _ _ HInv), list_lookup_fmap, Ht.
  - pose proof (gather_none _ _ _ Hres) as Hall.
    rewrite (gather_ok _ _ Hall) in Hres. simplify_eq. cbn [app].
    rewrite !length_fmap, Hlen. done.
Qed.

(** X12: what a batch looked up is in the store.  When [GetPricesFor]
    returns, the store has an entry for the item code of every goroutine
    whose response carries no error; so after a batch that returns no error
    every item code of the input has an entry. *)
Theorem batch_entries_present sched codes m res err m' :
  mutex (cache m) = false ->
  call_GetPricesFor sched codes m = Some ((res, err), m') ->
  (forall i r code,
     In (i, r) (deliveries sched codes m) -> Err r = None ->
     codes !! i = Some code ->
     is_Some (prices (cache m') !! code)) /\
  (err = None ->
   forall code, In code codes -> is_Some (prices (cache m') !! code)).
Proof.
  intros Hfree Hcall.
  destruct (batch_result _ _ _ _ _ _ Hfree Hcall) as (Hres & -> & Hdone & Hlen).
  pose proof (batch_inv sched codes m Hfree) as HInv.
  pose proof (batch_inv2 sched codes m Hfree) as HInv2.
  assert (Hone : forall i r code,
     In (i, r) (deliveries sched codes m) -> Err r = None ->
     codes !! i = Some code ->
     is_Some (prices (cache (snd (batch_tasks sched codes m))) !! code)).
  { intros i r code Hin Hok Hcode.
    apply (inv_deliv _ _ _ _ _ HInv) in Hin as (t & Ht & Hd).
    rewrite <- (inv_codes _ _ _ _ _ HInv), list_lookup_fmap, Ht in Hcode.
    injection Hcode as <-.
    apply (i2_present _ _ _ _ _ HInv2 _ _ Ht).
    destruct t as [code []]; cbn in *; simplify_eq; by rewrite Hok. }
  split; [done |]. intros -> code Hcode.
  pose proof (gather_none _ _ _ Hres) as Hall.
  apply list_elem_of_In, list_elem_of_lookup in Hcode as [i Hi].
  assert (exists t, fst (batch_tasks sched codes m) !! i = Some t)
    as [t Ht].
  { apply lookup_lt_is_Some_2.
    pose proof (length_fmap t_code (fst (batch_tasks sched codes m))) as E.
    rewrite (inv_codes _ _ _ _ _ HInv) in E. rewrite <- E.
    by eapply lookup_lt_Some. }
  pose proof (count_zero pending _ i _ Hdone Ht) as Hend.
  destruct t as [code' st]. destruct st; cbn in Hend; try done.
  assert (Hin : In (i, r) (deliveries sched codes m)).
  { apply (inv_deliv _ _ _ _ _ HInv). eauto. }
  apply (Hone i r code Hin); [| done].
  rewrite Forall_fmap, Forall_forall in Hall.
  by apply (Hall (i, r)), list_elem_of_In.
Qed.

(** *** Goroutines that run one after the other *)

(** While no other goroutine holds the lock, the map accesses of a
    goroutine overlap no write. *)
Lemma wfault_alone tasks i code st :
  tasks !! i = Some (Task code st) ->
  (forall j u, j <> i -> tasks !! j = Some u -> holds u = false) ->
  wfault st tasks = None.
Proof.
  intros Hi Hothers.
  assert (Hnone : in_write (Task code st) = false ->
                  existsb in_write tasks = false).
  { intros Hnot. destruct (existsb in_write tasks) eqn:Hex; [| done].
    apply existsb_exists in Hex as (u & Hin & Hw).
    apply list_elem_of_In, list_elem_of_lookup in Hin as (j & Hj).
    destruct (decide (j = i)) as [-> | Hne].
    - rewrite Hi in Hj. injection Hj as <-. congruence.
    - apply in_write_holds in Hw. by rewrite (Hothers j u Hne Hj) in Hw. }
  destruct st; cbn; try done; by rewrite Hnone.
Qed.

(** A goroutine that runs alone, while no other goroutine holds the lock,
    gets to its end within the steps it has left, without a fatal error. *)
Lemma arun_solo a m0 codes n :
  forall tasks m new i code st,
    Inv m0 codes tasks m new ->
    fatal m = None ->
    tasks !! i = Some (Task code st) ->
    (weight (Task code st) <= n)%nat ->
    (forall j u, j <> i -> tasks !! j = Some u -> holds u = false) ->
    exists r more,
      fst (arun a (repeat i n) (tasks, m)) =
        <[i := Task code (WEnd r)]> tasks /\
      Inv m0 codes (fst (arun a (repeat i n) (tasks, m)))
        (snd (arun a (repeat i n) (tasks, m))) (new ++ more) /\
      Forall (fun e => fst e = Worker i) more /\
      fatal (snd (arun a (repeat i n) (tasks, m))) = None.
Proof.
  induction n as [| n IH];
    intros tasks m new i code st HInv Hlive Hi Hw Hothers.
  - destruct st; cbn in Hw; try lia.
    exists r, []. cbn. rewrite app_nil_r, list_insert_id by done. eauto.
  - cbn [repeat]. change (arun a (i :: repeat i n) (tasks, m))
      with (arun a (repeat i n) (astep a i (tasks, m))).
    unfold astep. cbn [fst snd]. rewrite Hlive, Hi. cbn [t_code t_state].
    rewrite (wfault_alone _ _ _ _ Hi Hothers).
    pose proof (lookup_lt_Some _ _ _ Hi) as Hlt.
    destruct (wnext a code st m) as [[[st' l] m1] |] eqn:Hnext.
    + pose proof (wnext_inv _ _ _ _ _ _ _ _ _ _ _ _ HInv Hi Hnext) as HInv1.
      pose proof (wnext_weight _ _ _ _ _ _ _ Hnext) as Hless.
      pose proof (wnext_fatal _ _ _ _ _ _ _ Hnext) as Hlive1.
      destruct (IH (<[i := Task code st']> tasks) (log (Worker i) l m1)
                  (new ++ [(Worker i, l)]) i code st' HInv1)
        as (r & more & Hfst & HInv2 & Hby & Hend).
      * cbn. congruence.
      * by rewrite list_lookup_insert_eq.
      * lia.
      * intros j u Hne. rewrite list_lookup_insert_ne by done.
        by apply Hothers.
      * exists r, ((Worker i, l) :: more).
        split; [by rewrite Hfst, list_insert_insert_eq |].
        split; [| split; [by constructor | done]].
        by rewrite <- app_assoc in HInv2.
    + destruct (wnext_none _ _ _ _ _ _ _ _ _ HInv Hi Hnext)
        as [[r ->] | (price & -> & Hheld)].
      * apply (IH tasks m new i code (WEnd r) HInv Hlive Hi);
          [cbn; lia | done].
      * pose proof (inv_lock _ _ _ _ _ HInv) as Hlock.
        rewrite Hheld in Hlock.
        destruct (count_pos holds tasks) as (j & u & Hj & Hu); [lia |].
        destruct (decide (j = i)) as [-> | Hne].
        -- rewrite Hi in Hj. by simplify_eq.
        -- by rewrite (Hothers _ _ Hne Hj) in Hu.
Qed.

Lemma sends_by i more :
  Forall (fun e => fst e = Worker i) more ->
  Forall (fun d => fst d = i) (sends more).
Proof.
  induction 1 as [| [g l] more Hg _ IH]; [constructor |].
  cbn in Hg. subst g. cbn. destruct l; try done. by constructor.
Qed.

(** The goroutines from [i] on, run one after the other, deliver in that
    order. *)
Lemma arun_in_order a m0 codes n :
  forall i tasks m new,
    Inv m0 codes tasks m new ->
    fatal m = None ->
    (forall j u, tasks !! j = Some u -> holds u = false) ->
    (forall j, (i <= j < i + n)%nat ->
       exists code, tasks !! j = Some (Task code WStart)) ->
    count pending tasks = n ->
    exists more,
      Inv m0 codes (fst (arun a (in_order i n) (tasks, m)))
        (snd (arun a (in_order i n) (tasks, m))) (new ++ more) /\
      count pending (fst (arun a (in_order i n) (tasks, m))) = 0%nat /\
      fst <$> sends more = seq i n /\
      fatal (snd (arun a (in_order i n) (tasks, m))) = None.
Proof.
  induction n as [| n IH];
    intros i tasks m new HInv Hlive Hfree Hstart Hcount.
  - exists []. rewrite app_nil_r. done.
  - cbn [in_order]. rewrite arun_app.
    destruct (Hstart i) as [code Hi]; [lia |].
    destruct (arun_solo a m0 codes 10 tasks m new i code WStart HInv Hlive
                Hi) as (r & more1 & Hfst & HInv1 & Hby & Hlive1);
      [cbn; lia | by eauto |].
    destruct (arun a (repeat i 10) (tasks, m)) as [tasks1 m1].
    cbn [fst snd] in *. subst tasks1.
    pose proof (lookup_lt_Some _ _ _ Hi) as Hlt.
    pose proof (count_insert pending tasks i _ (Task code (WEnd r)) Hi)
      as Hcp.
    pose proof (count_insert has_delivered tasks i _ (Task code (WEnd r)) Hi)
      as Hcd.
    cbn in Hcp, Hcd.
    destruct (IH (S i) _ m1 (new ++ more1) HInv1 Hlive1)
      as (more2 & HInv2 & Hdone & Hseq & Hend).
    { intros j u. destruct (decide (j = i)) as [-> | Hne].
      - rewrite list_lookup_insert_eq by done. by intros [= <-].
      - rewrite list_lookup_insert_ne by done. apply Hfree. }
    { intros j Hj. rewrite list_lookup_insert_ne by lia.
      apply Hstart. lia. }
    { lia. }
    exists (more1 ++ more2). rewrite app_assoc. split; [done |].
    split; [done |]. split; [| done].
    rewrite sends_app, fmap_app, Hseq. cbn [seq]. f_equal.
    pose proof (inv_sent _ _ _ _ _ HInv) as Hs.
    pose proof (inv_sent _ _ _ _ _ HInv1) as Hs1.
    rewrite sends_app, length_app in Hs1.
    apply sends_by in Hby.
    destruct (sends more1) as [| [j r1] [| d ds]]; cbn in Hs1; try lia.
    apply Forall_cons in Hby as [Hj _]. cbn in Hj. by subst j.
Qed.

(** X13: goroutines that run one after the other give the prices in the
    order of the input.  For the schedule that runs the goroutine of the
    first item code to its end, then that of the second, and so on,
    [GetPricesFor] returns, and the responses reach the channel in the order
    of the item codes; when no error is returned, the price at each
    position is the result of the [GetPriceFor] that the goroutine of that
    position ran for the item code at that position. *)
Theorem batch_in_order codes m :
  mutex (cache m) = false ->
  exists res err m',
    call_GetPricesFor (in_order 0 (length codes)) codes m =
      Some ((res, err), m') /\
    fst <$> deliveries (in_order 0 (length codes)) codes m =
      seq 0 (length codes) /\
    (err = None ->
     forall i code, codes !! i = Some code ->
       exists price ls,
         res !! i = Some price /\
         steps_of i (batch_events (in_order 0 (length codes)) codes m) =
           ls ++ [LSend {| RespPrice := price; Err := None |}; LDone] /\
         runs (GetPriceFor (maxAge (cache m)) code) ls
           (Ret (price, None))).
Proof.
  intros Hfree. set (sched := in_order 0 (length codes)).
  pose proof (batch_inv sched codes m Hfree) as HInv.
  destruct (arun_in_order (maxAge (cache m)) m codes (length codes) 0
              ((fun code => Task code WStart) <$> codes)
              (snd (launch codes m)) [] (launch_inv codes m Hfree))
    as (more & HInv' & Hdone & Hseq & Hend).
  { done. }
  { by intros j u (code & -> & _)%list_lookup_fmap_Some. }
  { intros j Hj. destruct (lookup_lt_is_Some_2 codes j) as [code Hcode];
      [lia |].
    exists code. by rewrite list_lookup_fmap, Hcode. }
  { rewrite count_all, length_fmap; [done |].
    by intros t (code & -> & _)%list_elem_of_In%list_elem_of_fmap. }
  assert (Inv m codes (fst (batch_tasks sched codes m))
            (snd (batch_tasks sched codes m)) more) as HInv2 by exact HInv'.
  assert (count pending (fst (batch_tasks sched codes m)) = 0%nat)
    as Hdone2 by exact Hdone.
  assert (Hlive : fatal (snd (run_sched sched (launch codes m))) = None).
  { rewrite run_sched_batch. exact Hend. }
  clear HInv' Hdone Hend.
  assert (Hmore : batch_events sched codes m = more).
  { pose proof (inv_trace _ _ _ _ _ HInv) as E1.
    pose proof (inv_trace _ _ _ _ _ HInv2) as E2.
    rewrite E1 in E2. by apply app_inv_head in E2. }
  assert (Hwg : wg (snd (run_sched sched (launch codes m))) = 0).
  { rewrite run_sched_batch. cbn [snd].
    rewrite (inv_wg _ _ _ _ _ HInv), Hdone2. done. }
  destruct (call_batch sched codes m Hfree Hwg Hlive)
    as (m' & rcv & Hcall & _).
  destruct (gather (snd <$> deliveries sched codes m) []) as [res err]
    eqn:Hres.
  exists res, err, m'. split; [done |].
  assert (Horder : fst <$> deliveries sched codes m = seq 0 (length codes)).
  { unfold deliveries. by rewrite Hmore. }
  split; [done |]. intros -> i code Hcode.
  pose proof (gather_none _ _ _ Hres) as Hall.
  rewrite (gather_ok _ _ Hall) in Hres. simplify_eq. cbn [app].
  pose proof (lookup_lt_Some _ _ _ Hcode) as Hlt.
  assert (exists r, deliveries sched codes m !! i = Some (i, r)) as [r Hr].
  { pose proof (lookup_seq_lt 0 (length codes) i Hlt) as Hi.
    rewrite <- Horder, list_lookup_fmap in Hi.
    destruct (deliveries sched codes m !! i) as [[j r] |]; [| done].
    cbn in Hi. simplify_eq. eauto. }
  assert (Hin : In (i, r) (deliveries sched codes m)).
  { by apply list_elem_of_In, list_elem_of_lookup_2 with i. }
  destruct (delivery_is_result _ _ _ _ _ Hfree Hwg Hin)
    as (code' & ls & Hcode' & Hsteps & Hruns).
  assert (Hok : Err r = None).
  { rewrite Forall_fmap, Forall_forall in Hall.
    by apply (Hall (i, r)), list_elem_of_In. }
  rewrite Hcode in Hcode'. simplify_eq.
  exists (RespPrice r), ls. rewrite Hok in Hruns.
  split; [by rewrite !list_lookup_fmap, Hr |].
  split; [| done]. destruct r as [price e]. cbn in *. by subst e.
Qed.

(** *** A batch that finds every entry fresh *)

Lemma wnext_clock a code st m st' l m' :
  wnext a code st m = Some (st', l, m') -> clock m <= clock m'.
Proof. intros Hnext. wcases Hnext; cbn; unfold now_at; lia. Qed.

Lemma astep_clock a i tasks m :
  clock m <= clock (snd (astep a i (tasks, m))).
Proof.
  unfold astep. cbn [fst snd].
  destruct (fatal m); [cbn; lia |].
  destruct (tasks !! i) as [[code st] |]; [| cbn; lia].
  cbn [t_code t_state].
  destruct (wfault st tasks); [cbn; lia |].
  destruct (wnext a code st m) as [[[st' l] m'] |] eqn:Hnext; [| cbn; lia].
  apply wnext_clock in Hnext. cbn. lia.
Qed.

Lemma all_fresh_earlier codes m now now' :
  now <= now' -> all_fresh codes m now' -> all_fresh codes m now.
Proof.
  intros Hle Hfresh code Hcode.
  destruct (Hfresh code Hcode) as (v & Hv & Hage).
  exists v. split; [done |]. unfold Sub in *. lia.
Qed.

(** As long as every entry is fresh, the goroutines stay on the path of
    line 49: the cache does not change and the service is not called. *)
Lemma batch_all_fresh sched codes m :
  mutex (cache m) = false ->
  all_fresh codes m (clock (snd (batch_tasks sched codes m))) ->
  cache (snd (batch_tasks sched codes m)) = cache m /\
  invocations (trace (snd (batch_tasks sched codes m))) =
    invocations (trace m) /\
  Forall (served m) (fst (batch_tasks sched codes m)).
Proof.
  intros Hfree. induction sched as [| i sched IH] using rev_ind.
  - intros _. cbn. split; [done |]. split; [done |].
    apply Forall_fmap, Forall_forall. by intros code _.
  - pose proof (batch_inv sched codes m Hfree) as HInv.
    unfold batch_tasks in *. rewrite arun_app.
    destruct (arun (maxAge (cache m)) sched _) as [tasks m1] eqn:Hrun.
    cbn [fst snd arun fold_left] in *.
    pose proof (astep_clock (maxAge (cache m)) i tasks m1) as Hlater.
    intros Hfresh.
    destruct (IH (all_fresh_earlier _ _ _ _ Hlater Hfresh))
      as (Hcache & Hcalls & Hserved).
    revert Hfresh. unfold astep. cbn [fst snd].
    destruct (fatal m1); [done |].
    destruct (tasks !! i) as [[code st] |] eqn:Hi; [| done].
    cbn [t_code t_state].
    destruct (wfault st tasks); [done |].
    destruct (wnext (maxAge (cache m)) code st m1) as [[[st' l] m2] |]
      eqn:Hnext; [| done].
    cbn [fst snd]. intros Hfresh.
    assert (Hcode : In code codes).
    { rewrite <- (inv_codes _ _ _ _ _ HInv).
      apply list_elem_of_In, list_elem_of_fmap. exists (Task code st).
      split; [done |]. by eapply list_elem_of_lookup_2. }
    destruct (Hfresh code Hcode) as (v & Hv & Hage).
    pose proof (Forall_lookup_1 _ _ _ _ Hserved Hi) as Hst.
    assert (cache m2 = cache m /\
            invocations [(Worker i, l)] = 0%nat /\
            served m (Task code st')) as (Hcache' & Hnone & Hst').
    { unfold served in Hst |- *. cbn [t_code t_state] in *.
      wcases Hnext; cbn -[Z.ltb] in *; try done;
        rewrite ?Hcache in *; simplify_eq.
      - (* the map read finds the entry *)
        done.
      - (* the entry is young enough *)
        eauto.
      - (* it cannot be too old *)
        apply Z.ltb_lt in Hage. congruence. }
    cbn [cache trace log]. split; [done |]. split.
    + rewrite invocations_app, Hnone.
      pose proof (wnext_frame _ _ _ _ _ _ _ Hnext) as (-> & _). lia.
    + apply Forall_insert; [done |]. done.
Qed.

(** X14: a batch that finds every entry fresh is answered from the store.
    When [GetPricesFor] returns and every item code of the input had an
    entry that is still younger than [maxAge] at the last clock reading of
    the batch, then no error is returned, each response carries the price of
    the entry of its item code, the service was not called, and the cache is
    as it was. *)
Theorem batch_served_from_store sched codes m res err m' :
  mutex (cache m) = false ->
  call_GetPricesFor sched codes m = Some ((res, err), m') ->
  all_fresh codes m (clock m') ->
  err = None /\
  cache m' = cache m /\
  invocations (trace m') = invocations (trace m) /\
  length res = length codes /\
  forall i r, In (i, r) (deliveries sched codes m) ->
    exists code v,
      codes !! i = Some code /\
      prices (cache m) !! code = Some v /\
      r = {| RespPrice := Price v; Err := None |}.
Proof.
  intros Hfree Hcall Hfresh.
  pose proof (call_batch_inv _ _ _ _ _ Hcall) as Hwg.
  pose proof (call_live _ _ _ _ _ Hcall) as Hlive.
  destruct (call_batch sched codes m Hfree Hwg Hlive)
    as (m1 & rcv & Hcall1 & Hcache & Hclock & Htr & Hrcv).
  rewrite Hcall in Hcall1. injection Hcall1 as Hres <-.
  destruct (batch_done sched codes m Hfree Hwg) as (_ & Hlen & _).
  pose proof (batch_inv sched codes m Hfree) as HInv.
  rewrite run_sched_batch in Hcache, Hclock. cbn [snd] in *.
  rewrite Hclock in Hfresh.
  destruct (batch_all_fresh sched codes m Hfree Hfresh)
    as (Hsame & Hcalls & Hserved).
  assert (Hdel : forall i r, In (i, r) (deliveries sched codes m) ->
    exists code v,
      codes !! i = Some code /\
      prices (cache m) !! code = Some v /\
      r = {| RespPrice := Price v; Err := None |}).
  { intros i r Hin.
    apply (inv_deliv _ _ _ _ _ HInv) in Hin as (t & Ht & Hd).
    pose proof (Forall_lookup_1 _ _ _ _ Hserved Ht) as Hst.
    exists (t_code t).
    assert (Hcode : codes !! i = Some (t_code t))
      by (by rewrite <- (inv_codes _ _ _ _ _ HInv), list_lookup_fmap, Ht).
    destruct t as [code st]. unfold served in Hst.
    destruct st; cbn in *; simplify_eq;
      destruct Hst as (v & Hv & ->); eauto. }
  assert (Hall : Forall (fun r => Err r = None)
                   (snd <$> deliveries sched codes m)).
  { apply Forall_fmap, Forall_forall. intros [i r] Hin. cbn.
    apply list_elem_of_In, Hdel in Hin as (code & v & _ & _ & ->). done. }
  rewrite (gather_ok _ _ Hall) in Hres. simplify_eq. cbn [app].
  split; [done |]. split; [congruence |]. split.
  - rewrite Htr, (inv_trace _ _ _ _ _ HInv) in *.
    rewrite !invocations_app in *. lia.
  - split; [by rewrite !length_fmap |]. done.
Qed.

(** *** A read during a write *)

(** A goroutine that runs while no other goroutine holds the lock takes the
    step that its program says. *)
Lemma solo_step a tasks0 i code st st' l m m' :
  fatal m = None ->
  (i < length tasks0)%nat ->
  (forall j u, j <> i -> tasks0 !! j = Some u -> holds u = false) ->
  wnext a code st m = Some (st', l, m') ->
  astep a i (<[i := Task code st]> tasks0, m) =
    (<[i := Task code st']> tasks0, log (Worker i) l m').
Proof.
  intros Hlive Hlt Hothers Hnext. unfold astep. cbn [fst snd].
  rewrite Hlive, list_lookup_insert_eq by done. cbn [t_code t_state].
  rewrite (wfault_alone (<[i := Task code st]> tasks0) i code st), Hnext.
  - by rewrite list_insert_insert_eq.
  - by rewrite list_lookup_insert_eq.
  - intros j u Hne. rewrite list_lookup_insert_ne by done. by apply Hothers.
Qed.

(** Alone, a goroutine that misses and gets a price from the service comes
    to the middle of its map write. *)
Lemma solo_to_write codes m i code :
  mutex (cache m) = false ->
  codes !! i = Some code ->
  miss code m ->
  snd (answer code m) = None ->
  exists n now m1,
    batch_tasks (repeat i n) codes m =
      (<[i := Task code (WStore (fst (answer code m)) now)]>
         ((fun code => Task code WStart) <$> codes), m1) /\
    fatal m1 = None.
Proof.
  intros Hfree Hi Hmiss Hans. unfold batch_tasks.
  set (a := maxAge (cache m)).
  set (tasks0 := (fun code => Task code WStart) <$> codes).
  assert (Hi0 : tasks0 !! i = Some (Task code WStart))
    by (unfold tasks0; by rewrite list_lookup_fmap, Hi).
  pose proof (lookup_lt_Some _ _ _ Hi0) as Hlt.
  assert (Hothers : forall j u,
            j <> i -> tasks0 !! j = Some u -> holds u = false).
  { intros j u _ (c & -> & _)%list_lookup_fmap_Some. done. }
  assert (Hgo : forall n m0,
            arun a (repeat i n) (tasks0, m0) =
            arun a (repeat i n) (<[i := Task code WStart]> tasks0, m0))
    by (intros; by rewrite list_insert_id).
  unfold miss, answer, env_at_fetch in *.
  destruct (prices (cache m) !! code) as [v |] eqn:Hk.
  - exists 6%nat. eexists _, _. rewrite Hgo. cbn [repeat arun fold_left].
    erewrite solo_step; [| done | done | done | cbn; by rewrite Hk].
    erewrite solo_step; [| done | done | done | ].
    2: { apply Z.ltb_ge in Hmiss. unfold wnext, now_at in *.
         cbn -[Z.ltb]. fold a in Hmiss. by rewrite Hmiss. }
    erewrite solo_step; [| done | done | done | cbn; by rewrite Hans].
    erewrite solo_step; [| done | done | done | cbn; by rewrite Hfree].
    erewrite solo_step; [| done | done | done | done].
    erewrite solo_step; [| done | done | done | done].
    done.
  - exists 5%nat. eexists _, _. rewrite Hgo. cbn [repeat arun fold_left].
    erewrite solo_step; [| done | done | done | cbn; by rewrite Hk].
    erewrite solo_step; [| done | done | done | cbn; by rewrite Hans].
    erewrite solo_step; [| done | done | done | cbn; by rewrite Hfree].
    erewrite solo_step; [| done | done | done | done].
    erewrite solo_step; [| done | done | done | done].
    done.
Qed.

(** X16: the map read of line 46 is not protected from the map write of
    line 57.  In a batch of two item codes or more, when a goroutine finds
    no fresh entry for its item code and the service answers it with a
    price, there is a schedule on which another goroutine reads the map
    during the write: the runtime stops the process with
    [concurrent map read and map write], and [GetPricesFor] does not
    return, however the schedule goes on. *)
Theorem batch_can_be_stopped codes m i j code :
  mutex (cache m) = false ->
  codes !! i = Some code ->
  (j < length codes)%nat ->
  j <> i ->
  miss code m ->
  snd (answer code m) = None ->
  exists n,
    fatal (snd (run_sched (repeat i n ++ [j]) (launch codes m))) =
      Some "concurrent map read and map write"%string /\
    forall sched',
      call_GetPricesFor ((repeat i n ++ [j]) ++ sched') codes m = None.
Proof.
  intros Hfree Hi Hj Hne Hmiss Hans.
  destruct (solo_to_write codes m i code Hfree Hi Hmiss Hans)
    as (n & now & m1 & Hrun & Hlive).
  exists n.
  assert (Hstop :
    fatal (snd (run_sched (repeat i n ++ [j]) (launch codes m))) =
      Some "concurrent map read and map write"%string).
  { rewrite run_sched_batch. cbn [snd]. unfold batch_tasks in *.
    rewrite arun_app, Hrun. cbn [arun fold_left]. unfold astep.
    cbn [fst snd]. rewrite Hlive.
    destruct (lookup_lt_is_Some_2 codes j Hj) as [cj Hcj].
    rewrite list_lookup_insert_ne by done.
    rewrite list_lookup_fmap, Hcj. cbn [fmap option_fmap option_map].
    cbn [t_state wfault].
    assert (existsb in_write
              (<[i := Task code (WStore (fst (answer code m)) now)]>
                 ((fun code => Task code WStart) <$> codes)) = true) as ->.
    { apply existsb_exists.
      exists (Task code (WStore (fst (answer code m)) now)).
      split; [| done].
      apply list_elem_of_In, list_elem_of_lookup. exists i.
      rewrite list_lookup_insert_eq; [done |].
      rewrite length_fmap. by eapply lookup_lt_Some. }
    done. }
  split; [done |]. intros sched'. apply stopped_no_return.
  rewrite Hstop. by eexists.
Qed.

End MoreBatch.

(** * Examples in the small world *)

Lemma fresh_entry_served_witness :
  prices (cache (demo_machine_A 100)) !! "A"%string =
    Some {| Price := 10%float; CreatedAt := 0 |} /\
  Sub (now_at (demo_machine_A 100)) 0 < 100 /\
  exists m',
    call_GetPriceFor "A" (demo_machine_A 100) = Some ((10%float, None), m') /\
    cache m' = cache (demo_machine_A 100) /\
    invocations (trace m') = invocations (trace (demo_machine_A 100)).
Proof.
  assert (Hk : prices (cache (demo_machine_A 100)) !! "A"%string =
               Some {| Price := 10%float; CreatedAt := 0 |}) by reflexivity.
  assert (Hage : Sub (now_at (demo_machine_A 100)) 0 < 100)
    by (vm_compute; reflexivity).
  split; [exact Hk |]. split; [exact Hage |].
  destruct (fresh_entry_served (demo_machine_A 100) "A"
              {| Price := 10%float; CreatedAt := 0 |} Hk Hage)
    as (m' & Hcall & Hcache & _ & Hcount & _).
  exists m'. split; [exact Hcall |]. split; [exact Hcache | exact Hcount].
Defined.

Lemma miss_fetches_and_stores_witness :
  mutex (cache (demo_machine 100)) = false /\
  miss "A" (demo_machine 100) /\
  exists res m',
    call_GetPriceFor "A" (demo_machine 100) = Some (res, m') /\
    invocations (trace m') = 1%nat /\
    res = (10%float, None) /\
    prices (cache m') !! "A"%string =
      Some {| Price := 10%float; CreatedAt := clock m' |}.
Proof.
  assert (Hfree : mutex (cache (demo_machine 100)) = false) by reflexivity.
  assert (Hmiss : miss "A" (demo_machine 100)) by (vm_compute; exact I).
  split; [exact Hfree |]. split; [exact Hmiss |].
  destruct (miss_fetches_and_stores (demo_machine 100) "A" Hfree Hmiss)
    as (res & m' & Hcall & Hcount & _ & Hok).
  destruct (Hok eq_refl) as (Hres & _ & Hstore).
  exists res, m'. split; [exact Hcall |]. split; [exact Hcount |].
  split; [exact Hres |]. rewrite Hstore. apply lookup_insert_eq.
Defined.

Lemma failure_not_cached_witness :
  miss "B" (demo_machine 100) /\
  snd (answer "B" (demo_machine 100)) = Some "unavailable"%string /\
  exists m',
    call_GetPriceFor "B" (demo_machine 100) =
      Some ((0%float, Some "getting price from service : unavailable"%string),
            m') /\
    cache m' = cache (demo_machine 100) /\
    invocations (trace m') = 1%nat.
Proof.
  assert (Hmiss : miss "B" (demo_machine 100)) by (vm_compute; exact I).
  assert (Herr : snd (answer "B" (demo_machine 100)) =
                 Some "unavailable"%string) by reflexivity.
  split; [exact Hmiss |]. split; [exact Herr |].
  destruct (failure_not_cached (demo_machine 100) "B" "unavailable"
              Hmiss Herr) as (m' & Hcall & Hcache & Hcount & _).
  exists m'. split; [exact Hcall |]. split; [exact Hcache | exact Hcount].
Defined.

(** The cache holds an entry for ["A"], written by a first call; with
    [maxAge] zero the next two calls go to the service all the same. *)
Lemma maxAge_zero_refetches_witness :
  let m := machine_after (call_GetPriceFor "A" (demo_machine 0))
             (demo_machine 0) in
  maxAge (cache m) = 0 /\
  reachable m /\
  is_Some (prices (cache m) !! "A"%string) /\
  exists res1 m1 res2 m2,
    call_GetPriceFor "A" m = Some (res1, m1) /\
    invocations (trace m1) = (invocations (trace m) + 1)%nat /\
    call_GetPriceFor "A" m1 = Some (res2, m2) /\
    invocations (trace m2) = (invocations (trace m) + 2)%nat.
Proof.
  intros m.
  assert (Hzero : maxAge (cache m) = 0) by reflexivity.
  assert (Hreach : reachable m).
  { apply (reach_op (demo_machine 0) (OpGetPriceFor "A")).
    - by apply (reach_new _ demo_service 0).
    - vm_compute. reflexivity. }
  split; [exact Hzero |]. split; [exact Hreach |].
  split; [vm_compute; eauto |].
  exact (maxAge_zero_refetches m "A" Hzero Hreach).
Defined.

Lemma new_cache_is_empty_witness :
  cache (demo_machine 100) = NewTransparentCache demo_service 100 /\
  exists res m',
    call_GetPriceFor "A" (demo_machine 100) = Some (res, m') /\
    invocations (trace m') = 1%nat.
Proof.
  split; [reflexivity |].
  destruct (new_cache_is_empty demo_service 100) as (_ & _ & _ & _ & Hfirst).
  destruct (Hfirst (demo_machine 100) "A"%string eq_refl)
    as (res & m' & Hcall & Hcount & _).
  exists res, m'. split; [exact Hcall | exact Hcount].
Defined.

(** C4: the claim does not hold of the code, which reads the map without
    the lock.  The service fails for ["B"], and the goroutine of ["B"] has
    delivered its error; the goroutine of ["A"] is in the middle of its map
    write when the goroutine of ["C"] reads the map.  The runtime stops the
    process: [GetPricesFor] does not return, however the schedule goes on,
    and two of the three goroutines have not run to their end. *)
Theorem batch_failure_stops_process :
  let codes := ["A"; "B"; "C"]%string in
  let m := demo_machine 100 in
  let cfg := run_sched read_during_write (launch codes m) in
  In (Worker 1, LService "B" 0%float (Some "unavailable"%string))
     (batch_events read_during_write codes m) /\
  fatal (snd cfg) = Some "concurrent map read and map write"%string /\
  (forall sched',
     call_GetPricesFor (read_during_write ++ sched') codes m = None) /\
  wg (snd cfg) = 2.
Proof.
  intros codes m cfg.
  assert (Hstop : fatal (snd cfg) =
                  Some "concurrent map read and map write"%string)
    by (vm_compute; reflexivity).
  split; [vm_compute; tauto |]. split; [exact Hstop |].
  split; [| vm_compute; reflexivity].
  intros sched'. apply stopped_no_return.
  fold cfg. rewrite Hstop. by eexists.
Qed.

(** The goroutine of ["A"] delivers its price, then the goroutine of ["B"]
    the error of the service: the call returns that error and the price of
    ["A"], and all three goroutines have run. *)
Lemma batch_failure_witness :
  let codes := ["A"; "B"; "C"]%string in
  let m := demo_machine 100 in
  let m' := machine_after (call_GetPricesFor first_second_third codes m) m in
  mutex (cache m) = false /\
  call_GetPricesFor first_second_third codes m =
    Some (([10%float],
           Some "getting price from service : unavailable"%string), m') /\
  In (Worker 1, LService "B" 0%float (Some "unavailable"%string))
     (batch_events first_second_third codes m) /\
  (exists before r after err',
     snd <$> deliveries first_second_third codes m = before ++ r :: after /\
     Forall (fun r => Err r = None) before /\
     Err r = Some err' /\
     Some "getting price from service : unavailable"%string = Some err' /\
     [10%float] = RespPrice <$> before) /\
  length (deliveries first_second_third codes m) = 3%nat.
Proof.
  intros codes m m'.
  assert (Hfree : mutex (cache m) = false) by reflexivity.
  assert (Hcall : call_GetPricesFor first_second_third codes m =
    Some (([10%float],
           Some "getting price from service : unavailable"%string), m'))
    by (vm_compute; reflexivity).
  assert (Hfailed :
    In (Worker 1, LService "B" 0%float (Some "unavailable"%string))
       (batch_events first_second_third codes m))
    by (vm_compute; tauto).
  split; [exact Hfree |]. split; [exact Hcall |]. split; [exact Hfailed |].
  destruct (batch_failure first_second_third codes m _ _ _ _ _ _ _
              Hfree Hcall Hfailed) as (Hfirst & _ & Hlen).
  split; [exact Hfirst | exact Hlen].
Defined.

(** Goroutine 1 delivers before goroutine 0: the price of ["C"] comes
    first. *)
Lemma batch_success_witness :
  let codes := ["A"; "C"]%string in
  let m := demo_machine 100 in
  let m' := machine_after (call_GetPricesFor second_first codes m) m in
  mutex (cache m) = false /\
  call_GetPricesFor second_first codes m =
    Some (([20%float; 10%float], None), m') /\
  (forall g k p e,
     ~ In (g, LService k p (Some e)) (batch_events second_first codes m)) /\
  length [20%float; 10%float] = length codes /\
  [20%float; 10%float] =
    (fun d => RespPrice (snd d)) <$> deliveries second_first codes m /\
  fst <$> deliveries second_first codes m ≡ₚ seq 0 (length codes) /\
  stable_prices (actualPriceService (cache m)) demo_price /\
  store_priced m demo_price /\
  forall i r code price m1,
    In (i, r) (deliveries second_first codes m) ->
    codes !! i = Some code ->
    call_GetPriceFor code m = Some ((price, None), m1) ->
    RespPrice r = price.
Proof.
  intros codes m m'.
  assert (Hfree : mutex (cache m) = false) by reflexivity.
  assert (Hcall : call_GetPricesFor second_first codes m =
    Some (([20%float; 10%float], None), m')) by (vm_compute; reflexivity).
  assert (Hnofail : forall g k p e,
    ~ In (g, LService k p (Some e)) (batch_events second_first codes m)).
  { apply no_failed_call. vm_compute. reflexivity. }
  split; [exact Hfree |]. split; [exact Hcall |]. split; [exact Hnofail |].
  assert (Hsvc : stable_prices (actualPriceService (cache m)) demo_price).
  { intros k e. unfold demo_price. cbn.
    destruct (String.eqb k "B"); [discriminate |].
    by destruct (String.eqb k "C"). }
  assert (Hstore : store_priced m demo_price).
  { intros k v Hk. cbn in Hk. by rewrite lookup_empty in Hk. }
  destruct (batch_success second_first codes m _ _ _ Hfree Hcall Hnofail)
    as (_ & Hlen & Hres & Hperm & _ & Hsame).
  split; [exact Hlen |]. split; [exact Hres |]. split; [exact Hperm |].
  split; [exact Hsvc |]. split; [exact Hstore |].
  exact (Hsame demo_price Hsvc Hstore).
Defined.

(** The same item code twice: two goroutines, two prices.  The second
    goroutine finds the entry that the first one wrote. *)
Lemma batch_keeps_duplicates_witness :
  let codes := ["A"; "A"]%string in
  let m := demo_machine 100 in
  let sched := repeat 0%nat 9 ++ repeat 1%nat 4 in
  let m' := machine_after (call_GetPricesFor sched codes m) m in
  mutex (cache m) = false /\
  call_GetPricesFor sched codes m =
    Some (([10%float; 10%float], None), m') /\
  length [10%float; 10%float] = length codes /\
  invocations (trace m') = 1%nat.
Proof.
  intros codes m sched m'.
  assert (Hfree : mutex (cache m) = false) by reflexivity.
  assert (Hcall : call_GetPricesFor sched codes m =
    Some (([10%float; 10%float], None), m')) by (vm_compute; reflexivity).
  split; [exact Hfree |]. split; [exact Hcall |].
  destruct (batch_keeps_duplicates sched codes m _ _ Hfree Hcall)
    as (Hlen & _).
  split; [exact Hlen | vm_compute; reflexivity].
Defined.

Lemma store_invariant_witness :
  let op := OpGetPricesFor second_first ["A"; "C"]%string in
  let m := demo_machine 100 in
  let m' := machine_after (call_GetPricesFor second_first ["A"; "C"]%string m)
              m in
  mutex (cache m) = false /\
  perform op m = Some m' /\
  (store_inv m -> store_inv m') /\
  (forall k, is_Some (prices (cache m) !! k) ->
             is_Some (prices (cache m') !! k)).
Proof.
  intros op m m'.
  assert (Hfree : mutex (cache m) = false) by reflexivity.
  assert (Hop : perform op m = Some m') by (vm_compute; reflexivity).
  split; [exact Hfree |]. split; [exact Hop |].
  destruct (store_invariant op m m' Hfree Hop)
    as ((new & _ & _ & Hkeep) & Hinv & _).
  split; [exact Hinv | exact Hkeep].
Defined.

(** C5 as the specification states it fails, in two ways.  When the
    goroutine of ["C"] delivers before the goroutine of ["A"], the first
    price returned for ["A"; "C"] is the price of ["C"], not what
    [GetPriceFor "A"] returns.  And when the prices of the service change,
    a returned price need not be what a [GetPriceFor], called alone before
    the batch, returns for any of the item codes: the goroutine of ["A"]
    makes the second call of the service and gets 11, where a call alone
    gets 10 for ["A"] and 20 for ["C"]. *)
Lemma batch_order_counterexample :
  ~ (forall sched codes (m : Machine nat) res m',
       mutex (cache m) = false ->
       call_GetPricesFor sched codes m = Some ((res, None), m') ->
       length res = length codes /\
       forall i code price m1,
         codes !! i = Some code ->
         call_GetPriceFor code m = Some ((price, None), m1) ->
         res !! i = Some price) /\
  ~ (forall sched codes (m : Machine nat) res m',
       mutex (cache m) = false ->
       call_GetPricesFor sched codes m = Some ((res, None), m') ->
       forall price, In price res ->
         exists code m1,
           In code codes /\
           call_GetPriceFor code m = Some ((price, None), m1)).
Proof.
  pose (codes := ["A"; "C"]%string).
  pose (is_10 := fun o : option ((float * option error) * Machine nat) =>
                   match o with
                   | Some ((x, _), _) => PrimFloat.eqb x 10%float
                   | None => false
                   end).
  pose (is_20 := fun o : option ((float * option error) * Machine nat) =>
                   match o with
                   | Some ((x, _), _) => PrimFloat.eqb x 20%float
                   | None => false
                   end).
  split.
  - intros Hclaim.
    pose (m := demo_machine 100).
    assert (Hcall : call_GetPricesFor second_first codes m =
      Some (([20%float; 10%float], None),
            machine_after (call_GetPricesFor second_first codes m) m))
      by (vm_compute; reflexivity).
    assert (Hsingle : call_GetPriceFor "A" m =
      Some ((10%float, None), machine_after (call_GetPriceFor "A" m) m))
      by (vm_compute; reflexivity).
    destruct (Hclaim second_first codes m _ _ eq_refl Hcall) as [_ Hpos].
    specialize (Hpos 0%nat "A"%string _ _ eq_refl Hsingle).
    apply (f_equal (fun o => match o with
                              | Some x => PrimFloat.eqb x 10%float
                              | None => false
                              end)) in Hpos.
    vm_compute in Hpos. discriminate Hpos.
  - intros Hclaim.
    pose (m := drifting_machine 100).
    assert (Hcall : call_GetPricesFor second_first codes m =
      Some (([20%float; 11%float], None),
            machine_after (call_GetPricesFor second_first codes m) m))
      by (vm_compute; reflexivity).
    assert (HA : is_10 (call_GetPriceFor "A" m) = true)
      by (vm_compute; reflexivity).
    assert (HC : is_20 (call_GetPriceFor "C" m) = true)
      by (vm_compute; reflexivity).
    destruct (Hclaim second_first codes m _ _ eq_refl Hcall 11%float)
      as (code & m1 & Hin & Hsingle).
    { right. by left. }
    destruct Hin as [<- | [<- | []]].
    + rewrite Hsingle in HA. vm_compute in HA. discriminate HA.
    + rewrite Hsingle in HC. vm_compute in HC. discriminate HC.
Qed.

(** ** The scenarios of the specification *)

(** The service returns 10 for ["A"], [maxAge] is one minute: the first call
    returns 10 and calls the service, the second call returns 10 and does
    not. *)
Example scenario_cached :
  let m := demo_machine 60000000000 in
  let m1 := machine_after (call_GetPriceFor "A" m) m in
  let m2 := machine_after (call_GetPriceFor "A" m1) m1 in
  call_GetPriceFor "A" m = Some ((10%float, None), m1) /\
  invocations (trace m1) = 1%nat /\
  call_GetPriceFor "A" m1 = Some ((10%float, None), m2) /\
  invocations (trace m2) = 1%nat.
Proof.
  intros m m1 m2.
  split; [| split; [| split]]; vm_compute; reflexivity.
Qed.

(** [maxAge] is zero: two calls, two calls of the service. *)
Example scenario_maxAge_zero :
  let m := demo_machine 0 in
  let m1 := machine_after (call_GetPriceFor "A" m) m in
  let m2 := machine_after (call_GetPriceFor "A" m1) m1 in
  call_GetPriceFor "A" m = Some ((10%float, None), m1) /\
  call_GetPriceFor "A" m1 = Some ((10%float, None), m2) /\
  invocations (trace m2) = 2%nat.
Proof.
  intros m m1 m2.
  split; [| split]; vm_compute; reflexivity.
Qed.

(** The service fails for ["B"] only: the batch returns an error, and the
    store holds the prices of ["A"] and ["C"] afterwards, none for ["B"]. *)
Example scenario_partial_failure :
  let codes := ["A"; "B"; "C"]%string in
  let m := demo_machine 100 in
  let m' := machine_after (call_GetPricesFor second_first_third codes m) m in
  snd <$> (fst <$> call_GetPricesFor second_first_third codes m) =
    Some (Some "getting price from service : unavailable"%string) /\
  Price <$> prices (cache m') !! "A"%string = Some 10%float /\
  prices (cache m') !! "B"%string = None /\
  Price <$> prices (cache m') !! "C"%string = Some 20%float.
Proof.
  intros codes m m'.
  split; [| split; [| split]]; vm_compute; reflexivity.
Qed.

(** ** Examples for the further properties *)

Lemma error_comes_from_service_witness :
  let m := demo_machine 100 in
  let m' := machine_after (call_GetPriceFor "B" m) m in
  call_GetPriceFor "B" m =
    Some ((0%float, Some "getting price from service : unavailable"%string),
          m') /\
  cache m' = cache m /\
  miss "B" m /\
  invocations (trace m') = (invocations (trace m) + 1)%nat.
Proof.
  intros m m'.
  assert (Hcall : call_GetPriceFor "B" m =
    Some ((0%float, Some "getting price from service : unavailable"%string),
          m')) by (vm_compute; reflexivity).
  split; [exact Hcall |].
  destruct (error_comes_from_service m "B" _ _ m' Hcall)
    as (_ & Hcache & Hmiss & Hcount & _).
  split; [exact Hcache |]. split; [exact Hmiss | exact Hcount].
Defined.

(** A call for ["C"] leaves the entry of ["A"] alone. *)
Lemma other_entries_untouched_witness :
  let m := demo_machine_A 100 in
  let m' := machine_after (call_GetPriceFor "C" m) m in
  call_GetPriceFor "C" m = Some ((20%float, None), m') /\
  prices (cache m') !! "A"%string = prices (cache m) !! "A"%string /\
  maxAge (cache m') = maxAge (cache m).
Proof.
  intros m m'.
  assert (Hcall : call_GetPriceFor "C" m = Some ((20%float, None), m'))
    by (vm_compute; reflexivity).
  split; [exact Hcall |].
  destruct (other_entries_untouched m "C" _ m' Hcall) as (Hrest & Hage & _).
  split; [| exact Hage]. apply Hrest. discriminate.
Defined.

(** With [maxAge] zero a second call for ["A"] overwrites the entry with a
    later time stamp. *)
Lemma stamps_never_decrease_witness :
  let m := demo_machine_A 0 in
  let m' := machine_after (call_GetPriceFor "A" m) m in
  store_past m /\
  call_GetPriceFor "A" m = Some ((10%float, None), m') /\
  store_past m' /\
  clock m <= clock m'.
Proof.
  intros m m'.
  assert (Hpast : store_past m).
  { intros k v Hk.
    destruct (decide (k = "A"%string)) as [-> | Hne].
    - injection Hk as <-. vm_compute. discriminate.
    - unfold m, demo_machine_A in Hk. cbn [prices cache] in Hk.
      rewrite lookup_singleton_ne in Hk by congruence. discriminate Hk. }
  assert (Hcall : call_GetPriceFor "A" m = Some ((10%float, None), m'))
    by (vm_compute; reflexivity).
  split; [exact Hpast |]. split; [exact Hcall |].
  destruct (stamps_never_decrease m "A" _ m' Hpast Hcall)
    as (Hpast' & Hclock & _).
  split; [exact Hpast' | exact Hclock].
Defined.

Lemma nonpositive_maxAge_always_fetches_witness :
  let m := demo_machine (-5) in
  maxAge (cache m) <= 0 /\
  reachable m /\
  exists res m',
    call_GetPriceFor "A" m = Some (res, m') /\
    invocations (trace m') = (invocations (trace m) + 1)%nat.
Proof.
  intros m.
  assert (Hage : maxAge (cache m) <= 0) by (vm_compute; discriminate).
  assert (Hreach : reachable m)
    by (by apply (reach_new _ demo_service (-5))).
  split; [exact Hage |]. split; [exact Hreach |].
  destruct (nonpositive_maxAge_always_fetches m "A" Hage Hreach)
    as (res & m' & Hcall & Hcount & _).
  exists res, m'. split; [exact Hcall | exact Hcount].
Defined.

(** After a batch the cache is well formed again. *)
Lemma reachable_well_formed_witness :
  let m0 := demo_machine 100 in
  let m := machine_after
             (call_GetPricesFor second_first ["A"; "C"]%string m0) m0 in
  reachable m /\
  mutex (cache m) = false /\
  store_past m /\
  exists res m', call_GetPriceFor "B" m = Some (res, m').
Proof.
  intros m0 m.
  assert (Hreach : reachable m).
  { apply (reach_op m0 (OpGetPricesFor second_first ["A"; "C"]%string)).
    - by apply (reach_new _ demo_service 100).
    - vm_compute. reflexivity. }
  split; [exact Hreach |].
  destruct (reachable_well_formed m Hreach) as (Hfree & Hpast & Hone & _).
  split; [exact Hfree |]. split; [exact Hpast | exact (Hone "B"%string)].
Defined.

(** Goroutine 0 holds the lock when the schedule ends. *)
Lemma writes_under_lock_witness :
  let codes := ["A"; "C"]%string in
  let m := demo_machine 100 in
  mutex (cache m) = false /\
  lock_discipline None (batch_events first_holds_lock codes m) =
    Some (Some (Worker 0)) /\
  exists holder,
    lock_discipline None (batch_events first_holds_lock codes m) =
      Some holder /\
    (holder = None <->
     mutex (cache (snd (run_sched first_holds_lock (launch codes m)))) =
       false).
Proof.
  intros codes m.
  assert (Hfree : mutex (cache m) = false) by reflexivity.
  split; [exact Hfree |]. split; [vm_compute; reflexivity |].
  exact (writes_under_lock first_holds_lock codes m Hfree).
Defined.

(** Goroutine 1 waits at line 56 while goroutine 0 holds the lock. *)
Lemma only_the_lock_blocks_witness :
  let codes := ["A"; "C"]%string in
  let m := demo_machine 100 in
  let cfg := run_sched first_holds_lock (launch codes m) in
  mutex (cache m) = false /\
  exists p,
    fst cfg !! 1%nat = Some p /\
    stuck (Worker 1) p (snd cfg) = true /\
    at_lock p = true /\
    mutex (cache (snd cfg)) = true.
Proof.
  intros codes m cfg.
  assert (Hfree : mutex (cache m) = false) by reflexivity.
  split; [exact Hfree |].
  destruct (only_the_lock_blocks first_holds_lock codes m Hfree)
    as (Hblocks & _).
  destruct (fst cfg !! 1%nat) as [p |] eqn:Hp.
  - exists p. split; [reflexivity |].
    assert (Hstuck : stuck (Worker 1) p (snd cfg) = true).
    { revert Hp. vm_compute. intros [= <-]. reflexivity. }
    split; [exact Hstuck |].
    exact (Hblocks 1%nat p Hp Hstuck).
  - exfalso. revert Hp. vm_compute. discriminate.
Defined.

Lemma batch_work_bounded_witness :
  let codes := ["A"; "C"; "A"]%string in
  let m := demo_machine 100 in
  mutex (cache m) = false /\
  (invocations_for "A" (batch_events second_first_third codes m) <= 2)%nat /\
  (invocations (batch_events second_first_third codes m) <= 3)%nat /\
  (length (batch_events second_first_third codes m) <= 30)%nat.
Proof.
  intros codes m.
  assert (Hfree : mutex (cache m) = false) by reflexivity.
  split; [exact Hfree |].
  destruct (batch_work_bounded second_first_third codes m Hfree)
    as (Hkey & Hall & Hlen).
  split; [exact (Hkey "A"%string) |]. split; [exact Hall | exact Hlen].
Defined.

(** A batch for ["C"], twice, leaves the entry of ["A"] alone. *)
Lemma batch_other_entries_untouched_witness :
  let codes := ["C"; "C"]%string in
  let m := demo_machine_A 100 in
  let m' := machine_after (call_GetPricesFor second_first codes m) m in
  mutex (cache m) = false /\
  call_GetPricesFor second_first codes m =
    Some (([20%float; 20%float], None), m') /\
  prices (cache m') !! "A"%string = prices (cache m) !! "A"%string /\
  maxAge (cache m') = maxAge (cache m).
Proof.
  intros codes m m'.
  assert (Hfree : mutex (cache m) = false) by reflexivity.
  assert (Hcall : call_GetPricesFor second_first codes m =
    Some (([20%float; 20%float], None), m')) by (vm_compute; reflexivity).
  split; [exact Hfree |]. split; [exact Hcall |].
  destruct (batch_other_entries_untouched second_first codes m _ m'
              Hfree Hcall) as (Hrest & Hage & _).
  split; [| exact Hage]. apply Hrest.
  intros [Hin | [Hin | []]]; discriminate Hin.
Defined.

(** The price of ["A"] came first, then the failure of ["B"]: one price and
    the error. *)
Lemma batch_error_shape_witness :
  let codes := ["A"; "B"; "C"]%string in
  let m := demo_machine 100 in
  let sched := first_second_third in
  let m' := machine_after (call_GetPricesFor sched codes m) m in
  mutex (cache m) = false /\
  call_GetPricesFor sched codes m =
    Some (([10%float],
           Some "getting price from service : unavailable"%string), m') /\
  (length [10%float] <= length codes)%nat /\
  exists i code price msg,
    codes !! i = Some code /\
    In (Worker i, LService code price (Some msg))
       (batch_events sched codes m) /\
    "getting price from service : unavailable"%string =
      ("getting price from service : " +:+ msg)%string.
Proof.
  intros codes m sched m'.
  assert (Hfree : mutex (cache m) = false) by reflexivity.
  assert (Hcall : call_GetPricesFor sched codes m =
    Some (([10%float],
           Some "getting price from service : unavailable"%string), m'))
    by (vm_compute; reflexivity).
  split; [exact Hfree |]. split; [exact Hcall |].
  destruct (batch_error_shape sched codes m _ _ m' Hfree Hcall)
    as (_ & Hlen & Herr).
  split; [exact Hlen | exact (Herr _ eq_refl)].
Defined.

Lemma batch_entries_present_witness :
  let codes := ["A"; "C"]%string in
  let m := demo_machine 100 in
  let m' := machine_after (call_GetPricesFor second_first codes m) m in
  mutex (cache m) = false /\
  call_GetPricesFor second_first codes m =
    Some (([20%float; 10%float], None), m') /\
  forall code, In code codes -> is_Some (prices (cache m') !! code).
Proof.
  intros codes m m'.
  assert (Hfree : mutex (cache m) = false) by reflexivity.
  assert (Hcall : call_GetPricesFor second_first codes m =
    Some (([20%float; 10%float], None), m')) by (vm_compute; reflexivity).
  split; [exact Hfree |]. split; [exact Hcall |].
  destruct (batch_entries_present second_first codes m _ _ m' Hfree Hcall)
    as (_ & Hall).
  exact (Hall eq_refl).
Defined.

Lemma batch_in_order_witness :
  let codes := ["A"; "C"]%string in
  let m := demo_machine 100 in
  mutex (cache m) = false /\
  exists res err m',
    call_GetPricesFor (in_order 0 (length codes)) codes m =
      Some ((res, err), m') /\
    fst <$> deliveries (in_order 0 (length codes)) codes m =
      seq 0 (length codes).
Proof.
  intros codes m.
  assert (Hfree : mutex (cache m) = false) by reflexivity.
  split; [exact Hfree |].
  destruct (batch_in_order codes m Hfree)
    as (res & err & m' & Hcall & Hord & _).
  exists res, err, m'. split; [exact Hcall | exact Hord].
Defined.

(** The entry of ["A"] is ten nanoseconds old at the last clock reading of
    the batch, [maxAge] is a hundred. *)
Lemma batch_served_from_store_witness :
  let codes := ["A"; "A"]%string in
  let m := demo_machine_A 100 in
  let m' := machine_after (call_GetPricesFor second_first codes m) m in
  mutex (cache m) = false /\
  call_GetPricesFor second_first codes m =
    Some (([10%float; 10%float], None), m') /\
  all_fresh codes m (clock m') /\
  cache m' = cache m /\
  invocations (trace m') = invocations (trace m).
Proof.
  intros codes m m'.
  assert (Hfree : mutex (cache m) = false) by reflexivity.
  assert (Hcall : call_GetPricesFor second_first codes m =
    Some (([10%float; 10%float], None), m')) by (vm_compute; reflexivity).
  assert (Hfresh : all_fresh codes m (clock m')).
  { intros code [<- | [<- | []]];
      exists {| Price := 10%float; CreatedAt := 0 |};
      (split; [reflexivity | vm_compute; reflexivity]). }
  split; [exact Hfree |]. split; [exact Hcall |]. split; [exact Hfresh |].
  destruct (batch_served_from_store second_first codes m _ _ m'
              Hfree Hcall Hfresh) as (_ & Hcache & Hcount & _).
  split; [exact Hcache | exact Hcount].
Defined.

(** The goroutine of ["A"] misses and gets a price; the goroutine of ["C"]
    can read the map during its write. *)
Lemma batch_can_be_stopped_witness :
  let codes := ["A"; "C"]%string in
  let m := demo_machine 100 in
  mutex (cache m) = false /\
  codes !! 0%nat = Some "A"%string /\
  (1 < length codes)%nat /\
  miss "A" m /\
  snd (answer "A" m) = None /\
  exists n,
    fatal (snd (run_sched (repeat 0%nat n ++ [1%nat]) (launch codes m))) =
      Some "concurrent map read and map write"%string /\
    forall sched',
      call_GetPricesFor ((repeat 0%nat n ++ [1%nat]) ++ sched') codes m =
        None.
Proof.
  intros codes m.
  assert (Hfree : mutex (cache m) = false) by reflexivity.
  assert (Hcode : codes !! 0%nat = Some "A"%string) by reflexivity.
  assert (Hlen : (1 < length codes)%nat) by (cbn; lia).
  assert (Hmiss : miss "A" m) by (vm_compute; exact I).
  assert (Hans : snd (answer "A" m) = None) by reflexivity.
  split; [exact Hfree |]. split; [exact Hcode |]. split; [exact Hlen |].
  split; [exact Hmiss |]. split; [exact Hans |].
  apply (batch_can_be_stopped codes m 0%nat 1%nat "A"%string
           Hfree Hcode Hlen); [lia | exact Hmiss | exact Hans].
Defined.
